(** * Board router ([src/server/api/routers/board.ts]): a shallow embedding

    The router's handlers are embedded as executable Rocq functions:

    - asynchronous handlers that read or write the database become functions
      over an explicit database value (tables are lists of rows, in table
      order);
    - [throw] becomes the [Throw] outcome of the [result] monad;
    - JavaScript values built by [mapOptions]/[addAtPath] are the inductive
      [value]; an object or array is the finite map of its own properties.

    Scope of the JavaScript model.  Objects are described by their own
    string-keyed properties only: the prototype chain is not modelled, so
    the special property name [__proto__] and the [length] of arrays are
    outside the model.  The module is an ES module and therefore runs in
    strict mode.  Strings are byte strings.  The number that [parseInt]
    gives for a row's value is computed where it is exact (an ASCII string
    that denotes an integer of magnitude at most 2^53) and is kept symbolic
    elsewhere; [parseFloat] is kept symbolic.  The property that
    [current[parseInt(key, 10)]] reads is computed exactly for the same
    keys.  The theorems that depend on what an assignment or a read does
    name the keys they cover.

    Code of the repository that is not in this file is taken as given: the
    collation behind [localeCompare], the UUID supply, the schema defaults
    of a board and [generateDefaultApp] are variables of the sections that
    use them; the config directory read by [configExists] and [getConfig]
    is a finite map from board names to parsed configs. *)

From stdpp Require Import gmap strings list pretty sorting.
From Stdlib Require Import ZArith Ascii Sorted Permutation.

Local Open Scope string_scope.
Local Open Scope list_scope.
Local Open Scope Z_scope.
Local Set Warnings "-register-all".

(** ** Outcomes of a handler *)

Inductive error :=
| TRPCError (code message : string)
| TypeError.

Inductive result (A : Type) :=
| Ok (a : A)
| Throw (e : error).
Arguments Ok {A} a.
Arguments Throw {A} e.

Global Instance error_eq_dec : EqDecision error.
Proof. solve_decision. Defined.

Global Instance result_eq_dec {A} `{EqDecision A} : EqDecision (result A).
Proof. solve_decision. Defined.

Global Instance result_bind : MBind result := fun A B k r =>
  match r with
  | Ok a => k a
  | Throw e => Throw e
  end.

Global Instance result_ret : MRet result := fun A a => Ok a.

(** [l.map(f)] for a callback that may throw. *)
Fixpoint mapR {A B} (f : A -> result B) (l : list A) : result (list B) :=
  match l with
  | [] => Ok []
  | a :: l' => b ← f a; bs ← mapR f l'; Ok (b :: bs)
  end.

Definition NOT_FOUND (message : string) : error := TRPCError "NOT_FOUND" message.

(** ** [Array.prototype.sort]

    A comparator [cmp] returns a negative, zero or positive number.  For a
    consistent comparator the result of [sort] is the stable sorted
    permutation; [js_sort] computes it by stable insertion.  The same
    function orders the rows of an [orderBy] clause. *)

Section Sort.
Context {A : Type} (cmp : A -> A -> Z).

Fixpoint sort_insert (x : A) (l : list A) : list A :=
  match l with
  | [] => [x]
  | y :: l' => if cmp x y <=? 0 then x :: y :: l' else y :: sort_insert x l'
  end.

Definition js_sort (l : list A) : list A := foldr sort_insert [] l.
End Sort.

(** ** JavaScript values *)

(** A Number: [Int z] is the integer [z], used where a double holds it
    exactly; [Float s] is [parseFloat(s)] and [ParsedInt s] is
    [parseInt(s, 10)], both left as they are written. *)
Inductive number :=
| NaN
| Int (z : Z)
| Float (literal : string)
| ParsedInt (literal : string).

(** An array or object is the finite map of the own properties that were
    assigned to it; the [length] that an array also has is not held. *)
Inductive value :=
| VUndefined
| VNull
| VBool (b : bool)
| VNumber (n : number)
| VString (s : string)
| VArray (props : gmap string value)
| VObject (props : gmap string value).

(** [s.split('.')]: never empty. *)
Fixpoint split (s : string) : list string :=
  match s with
  | EmptyString => [""]
  | String c s' =>
      if Ascii.eqb c "."%char then "" :: split s'
      else match split s' with
           | [] => [String c ""]
           | k :: ks => String c k :: ks
           end
  end.

(** [s.includes('.')] *)
Fixpoint includes_dot (s : string) : bool :=
  match s with
  | EmptyString => false
  | String c s' => Ascii.eqb c "."%char || includes_dot s'
  end.

Definition is_digit (c : ascii) : bool :=
  let n := Z.of_nat (nat_of_ascii c) in (48 <=? n) && (n <=? 57).

Definition is_space (c : ascii) : bool :=
  let n := Z.of_nat (nat_of_ascii c) in
  ((9 <=? n) && (n <=? 13)) || (n =? 32).

Fixpoint skip_spaces (s : string) : string :=
  match s with
  | String c s' => if is_space c then skip_spaces s' else s
  | EmptyString => s
  end.

Fixpoint digits (acc : Z) (s : string) : Z :=
  match s with
  | String c s' =>
      if is_digit c then digits (10 * acc + (Z.of_nat (nat_of_ascii c) - 48)) s'
      else acc
  | EmptyString => acc
  end.

(** The integer that [parseInt(s, 10)] reads: white space, a sign, then
    decimal digits up to the first other character; [None] is NaN.  The
    white space skipped is the ASCII one; the Number returned is the double
    nearest to this integer. *)
Definition parseInt (s : string) : option Z :=
  let s := skip_spaces s in
  let '(sign, s) :=
    match s with
    | String "-" r => (-1, r)
    | String "+" r => (1, r)
    | _ => (1, s)
    end in
  match s with
  | String c _ => if is_digit c then Some (sign * digits 0 s) else None
  | EmptyString => None
  end.

Definition is_ascii (c : ascii) : bool := Z.of_nat (nat_of_ascii c) <? 128.

Fixpoint all_ascii (s : string) : bool :=
  match s with
  | EmptyString => true
  | String c s' => is_ascii c && all_ascii s'
  end.

(** Integers of magnitude up to 2^53 are doubles. *)
Definition exact (z : Z) : bool := Z.abs z <=? 2 ^ 53.

(** [s] reads as minus zero. *)
Definition minus_zero (s : string) : bool :=
  match skip_spaces s, parseInt s with
  | String "-" _, Some 0 => true
  | _, _ => false
  end.

(** The Number [parseInt(s, 10)]: computed when [s] is ASCII, so that the
    white space skipped is all there is to skip, and the integer read is
    held exactly; left as written otherwise. *)
Definition parseIntNumber (s : string) : number :=
  if all_ascii s && negb (minus_zero s) then
    match parseInt s with
    | Some z => if exact z then Int z else ParsedInt s
    | None => NaN
    end
  else ParsedInt s.

Definition parseFloat (s : string) : number := Float s.

(** The property key read by [current[parseInt(key, 10)]]: the decimal
    numeral of the integer read, or ["NaN"].  This is the string of the
    Number when [key] is ASCII and the integer has magnitude at most 2^53
    ([exactIndex] below); larger Numbers print otherwise. *)
Definition indexKey (key : string) : string :=
  match parseInt key with
  | Some z => pretty z
  | None => "NaN"
  end.

(** ** Widget option rows *)

Inductive OptionType := TArray | TObject | TNumber | TBoolean | TString | TNull.

Record MapOption := {
  path : string;
  value_ : option string;
  type : OptionType;
}.

Global Instance OptionType_eq_dec : EqDecision OptionType.
Proof. solve_decision. Defined.

(** The right-hand side of the assignment [addAtPath] performs for a row;
    [None] when no branch of the chain assigns. *)
Definition assigned (item : MapOption) : option value :=
  match type item with
  | TArray => Some (VArray ∅)
  | TObject => Some (VObject ∅)
  | TNumber =>
      match value_ item with
      | Some v =>
          if String.eqb v "" then None
          else Some (VNumber (if includes_dot v then parseFloat v else parseIntNumber v))
      | None => None
      end
  | TBoolean =>
      Some (VBool (match value_ item with
                   | Some v => String.eqb v "true"
                   | None => false
                   end))
  | TString =>
      Some (match value_ item with
            | Some v => VString v
            | None => VNull
            end)
  | TNull => Some VNull
  end.

(** [pathArray.pop()] *)
Definition pop (pathArray : list string) : list string * string :=
  (removelast pathArray, List.last pathArray "").

(** The walk of [pathArray.forEach] from [current], followed by the
    assignment [current[lastKey] = rhs].  Nested containers are reached by
    reference and updated in place; here the updated container is written
    back where it was read.

    An array or object is the map of its own properties.  A read of a key
    that is not among them gives [undefined], which is what the code reads
    unless the key names a member of [Object.prototype]; an assignment adds
    or replaces an own property, which is what the code does unless the key
    is [__proto__], or [length] on an array.  [ownKeys], [exactWalk] and [plainKey] below
    name the keys for which the two agree. *)
Fixpoint assignAt (current : value) (pathArray : list string) (lastKey : string)
    (rhs : option value) : result value :=
  match pathArray with
  | [] =>
      match rhs with
      | None => Ok current
      | Some v =>
          match current with
          | VArray m => Ok (VArray (<[lastKey := v]> m))
          | VObject m => Ok (VObject (<[lastKey := v]> m))
          | _ => Throw TypeError
          end
      end
  | key :: keys =>
      match current with
      | VArray m =>
          match m !! indexKey key with
          | Some child =>
              child' ← assignAt child keys lastKey rhs;
              Ok (VArray (<[indexKey key := child']> m))
          | None =>
              _ ← assignAt VUndefined keys lastKey rhs; Ok current
          end
      | VObject m =>
          match m !! key with
          | Some child =>
              child' ← assignAt child keys lastKey rhs;
              Ok (VObject (<[key := child']> m))
          | None =>
              _ ← assignAt VUndefined keys lastKey rhs; Ok current
          end
      | VNull => Throw TypeError
      | _ => assignAt current keys lastKey rhs
      end
  end.

Definition addAtPath (outerObj : value) (item : MapOption) : result value :=
  let '(pathArray, lastKey) := pop (split (path item)) in
  assignAt outerObj pathArray lastKey (assigned item).

Section MapOptions.
(** [String.prototype.localeCompare] of the host's collation. *)
Variable localeCompare : string -> string -> Z.

Definition mapOptions (options : list MapOption) : result value :=
  let sorted := js_sort (fun a b => localeCompare (path a) (path b)) options in
  foldl (fun acc item => result ← acc; addAtPath result item)
        (Ok (VObject ∅)) sorted.
End MapOptions.

(** ** The database

    One list of rows per table, in table order.  The columns are the ones
    the router reads or writes.  Relations whose foreign keys the router
    never names (an app's integration with its secrets, an app's status
    codes, a widget's options) are kept with the row that owns them, as the
    relational queries below load them. *)

Inductive cell := CNull | CBool (b : bool) | CInt (z : Z) | CText (s : string).

(** The appearance and customization columns of a board. *)
Record Customization := {
  allowGuests : cell;
  isLeftSidebarVisible : cell;
  isRightSidebarVisible : cell;
  isPingEnabled : cell;
  appOpacity : cell;
  backgroundImageUrl : cell;
  primaryColor : cell;
  secondaryColor : cell;
  customCss : cell;
  pageTitle : cell;
  metaTitle : cell;
  logoImageUrl : cell;
  faviconImageUrl : cell;
  primaryShade : cell;
}.

Record BoardRow := {
  board_id : string;
  board_name : string;
  board_ownerId : string;
  board_customization : Customization;
}.

Record UserRow := { user_id : string; user_name : option string }.

Record LayoutRow := {
  layout_id : string;
  layout_name : string;
  layout_boardId : string;
}.

Record SectionRow := {
  section_id : string;
  section_layoutId : string;
  section_type : string;
  section_name : option string;
  section_position : option Z;
}.

Record ItemRow := {
  item_id : string;
  item_type : string;
  item_boardId : string;
}.

Record SecretRow := {
  secret_integrationId : string;
  secret_key : string;
  secret_value : option string;
  secret_visibility : string;
}.

Record IntegrationRow := {
  integration_id : string;
  integration_name : string;
  integration_secrets : list SecretRow;
}.

Record AppRow := {
  app_id : string;
  app_name : string;
  app_internalUrl : string;
  app_iconUrl : string;
  app_integration : option IntegrationRow;
  app_statusCodes : list Z;
}.

Record AppItemRow := { appItem_appId : string; appItem_itemId : string }.

Record WidgetRow := {
  widget_id : string;
  widget_type : string;
  widget_itemId : string;
  widget_options : list MapOption;
}.

Record LayoutItemRow := {
  layoutItem_id : string;
  layoutItem_itemId : string;
  layoutItem_sectionId : string;
  layoutItem_width : Z;
  layoutItem_height : Z;
  layoutItem_x : Z;
  layoutItem_y : Z;
}.

Record DB := {
  boards : list BoardRow;
  users : list UserRow;
  layouts : list LayoutRow;
  sections : list SectionRow;
  items : list ItemRow;
  apps : list AppRow;
  appItems : list AppItemRow;
  widgets : list WidgetRow;
  layoutItems : list LayoutItemRow;
}.

(** [findFirst]: the first row, in table order, that satisfies [where]. *)
Definition findFirst {A} (where_ : A -> Prop) `{forall row, Decision (where_ row)}
    (table : list A) : option A :=
  head (filter where_ table).

(** [orderBy: sections.position], ascending; SQLite puts NULL first. *)
Definition position_cmp (a b : SectionRow) : Z :=
  match section_position a, section_position b with
  | None, None => 0
  | None, Some _ => -1
  | Some _, None => 1
  | Some x, Some y => x - y
  end.

(** *** The relational queries *)

Record FullLayout := {
  fl_name : string;
  fl_sections : list SectionRow;
}.

Record FullBoard := {
  fb_board : BoardRow;
  fb_owner : option UserRow;
  fb_layouts : list FullLayout;
}.

Definition getFullBoardWithLayoutSectionsAsync (db : DB) (boardName layoutName : string)
  : option FullBoard :=
  board ← findFirst (fun b => board_name b = boardName) (boards db);
  Some {|
    fb_board := board;
    fb_owner := findFirst (fun u => user_id u = board_ownerId board) (users db);
    fb_layouts :=
      (fun l => {|
         fl_name := layout_name l;
         fl_sections :=
           js_sort position_cmp
             (filter (fun s => section_layoutId s = layout_id l) (sections db)) |})
      <$> filter (fun l => layout_boardId l = board_id board ∧ layout_name l = layoutName)
                 (layouts db)
  |}.

Record ItemWithLayouts := {
  iwl_item : ItemRow;
  iwl_layouts : list LayoutItemRow;
}.

Definition itemWithLayouts (db : DB) (sectionIds : list string) (itemId : string)
  : option ItemWithLayouts :=
  item ← findFirst (fun i => item_id i = itemId) (items db);
  Some {|
    iwl_item := item;
    iwl_layouts :=
      filter (fun li => layoutItem_itemId li = item_id item ∧ layoutItem_sectionId li ∈ sectionIds)
             (layoutItems db)
  |}.

Record MapApp := {
  ma_appId : string;
  ma_itemId : string;
  ma_app : option AppRow;
  ma_item : option ItemWithLayouts;
}.

(** An [appItems] row with its [app] and its [item]. *)
Definition withAppAndItem (db : DB) (sectionIds : list string) (ai : AppItemRow) : MapApp :=
  {| ma_appId := appItem_appId ai;
     ma_itemId := appItem_itemId ai;
     ma_app := findFirst (fun a => app_id a = appItem_appId ai) (apps db);
     ma_item := itemWithLayouts db sectionIds (appItem_itemId ai) |}.

Definition getAppsForSectionsAsync (db : DB) (sectionIds : list string) : list MapApp :=
  match sectionIds with
  | [] => []
  | _ => withAppAndItem db sectionIds <$> appItems db
  end.

Record MapWidget := {
  mw_id : string;
  mw_type : string;
  mw_itemId : string;
  mw_options : list MapOption;
  mw_item : option ItemWithLayouts;
}.

(** A [widgets] row with its [options] and its [item]. *)
Definition withOptionsAndItem (db : DB) (sectionIds : list string) (w : WidgetRow) : MapWidget :=
  {| mw_id := widget_id w;
     mw_type := widget_type w;
     mw_itemId := widget_itemId w;
     mw_options := widget_options w;
     mw_item := itemWithLayouts db sectionIds (widget_itemId w) |}.

Definition getWidgetsForSectionsAsync (db : DB) (sectionIds : list string) : list MapWidget :=
  match sectionIds with
  | [] => []
  | _ => withOptionsAndItem db sectionIds <$> widgets db
  end.

(** ** The response of [byName] *)

Record SecretOut := {
  so_key : string;
  so_value : option string;
  so_visibility : string;
  so_isDefined : bool;
}.

Record IntegrationOut := {
  io_id : string;
  io_name : string;
  io_secrets : list SecretOut;
}.

Record AppOut := {
  ao_id : string;
  ao_width : Z;
  ao_height : Z;
  ao_x : Z;
  ao_y : Z;
  ao_name : string;
  ao_internalUrl : string;
  ao_iconUrl : string;
  ao_integration : option IntegrationOut;
  ao_statusCodes : list Z;
}.

Record WidgetOut := {
  wo_id : string;
  wo_width : Z;
  wo_height : Z;
  wo_x : Z;
  wo_y : Z;
  wo_sort : string;
  wo_options : value;
}.

(** The [type] field of an item is ['app'] or ['widget']. *)
Inductive ItemOut :=
| ItemApp (app : AppOut)
| ItemWidget (widget : WidgetOut).

Inductive PositionOut :=
| PNumber (z : Z)
| PNull
| PLeft
| PRight.

Record SectionOut := {
  sec_id : string;
  sec_type : string;
  sec_name : option (option string);   (* [None]: the field is absent *)
  sec_position : PositionOut;
  sec_items : list ItemOut;
}.

Record BoardOut := {
  bo_id : string;
  bo_name : string;
  bo_customization : Customization;
  bo_owner : option UserRow;
  bo_sections : list SectionOut;
}.

(** [section.position!]: the assertion is erased, a NULL stays null. *)
Definition positionOut (position : option Z) : PositionOut :=
  match position with
  | Some z => PNumber z
  | None => PNull
  end.

Definition mapSection (section : SectionRow) (items : list ItemOut) : SectionOut :=
  if decide (section_type section = "empty") then
    {| sec_id := section_id section; sec_type := section_type section;
       sec_name := None;
       sec_position := positionOut (section_position section);
       sec_items := items |}
  else if decide (section_type section = "hidden") then
    {| sec_id := section_id section; sec_type := section_type section;
       sec_name := None;
       sec_position := PNull;
       sec_items := items |}
  else if decide (section_type section = "category") then
    {| sec_id := section_id section; sec_type := section_type section;
       sec_name := Some (section_name section);
       sec_position := positionOut (section_position section);
       sec_items := items |}
  else
    {| sec_id := section_id section; sec_type := section_type section;
       sec_name := None;
       sec_position := if decide (section_position section = Some 0) then PLeft else PRight;
       sec_items := items |}.

Definition mapSecret (secret : SecretRow) : SecretOut :=
  let isDefined :=
    bool_decide (secret_value secret ≠ None ∧ secret_value secret ≠ Some "") in
  if decide (secret_visibility secret = "private") then
    {| so_key := secret_key secret;
       so_visibility := "private";
       so_isDefined := isDefined;
       so_value := None |}
  else
    {| so_key := secret_key secret;
       so_visibility := "public";
       so_isDefined := isDefined;
       so_value := secret_value secret |}.

(** Reading a property of, or destructuring, [null] or [undefined]. *)
Definition deref {A} (o : option A) : result A :=
  match o with
  | Some a => Ok a
  | None => Throw TypeError
  end.

Definition mapApp (appItem : MapApp) : result AppOut :=
  item ← deref (ma_item appItem);
  layoutItem ← deref (head (iwl_layouts item));
  app ← deref (ma_app appItem);
  Ok {|
    ao_id := layoutItem_itemId layoutItem;
    ao_width := layoutItem_width layoutItem;
    ao_height := layoutItem_height layoutItem;
    ao_x := layoutItem_x layoutItem;
    ao_y := layoutItem_y layoutItem;
    ao_name := app_name app;
    ao_internalUrl := app_internalUrl app;
    ao_iconUrl := app_iconUrl app;
    ao_integration :=
      (fun integration => {|
         io_id := integration_id integration;
         io_name := integration_name integration;
         io_secrets := mapSecret <$> integration_secrets integration |})
      <$> app_integration app;
    ao_statusCodes := app_statusCodes app
  |}.

(** [x.item.layouts.some((y) => y.sectionId === section.id)] *)
Definition inSection (sectionId : string) (item : option ItemWithLayouts) : result bool :=
  item ← deref item;
  Ok (bool_decide (Exists (fun y => layoutItem_sectionId y = sectionId) (iwl_layouts item))).

(** [l.filter(p)] for a callback that may throw. *)
Fixpoint filterR {A} (p : A -> result bool) (l : list A) : result (list A) :=
  match l with
  | [] => Ok []
  | a :: l' =>
      keep ← p a; rest ← filterR p l';
      Ok (if keep : bool then a :: rest else rest)
  end.

Record ByNameInput := {
  bn_boardName : string;
  bn_layout : option string;
}.

Section Queries.
Variable localeCompare : string -> string -> Z.

Definition mapWidget (widgetItem : MapWidget) : result WidgetOut :=
  item ← deref (mw_item widgetItem);
  layoutItem ← deref (head (iwl_layouts item));
  options ← mapOptions localeCompare (mw_options widgetItem);
  Ok {|
    wo_id := layoutItem_itemId layoutItem;
    wo_width := layoutItem_width layoutItem;
    wo_height := layoutItem_height layoutItem;
    wo_x := layoutItem_x layoutItem;
    wo_y := layoutItem_y layoutItem;
    wo_sort := mw_type widgetItem;
    wo_options := options
  |}.

Definition byName (db : DB) (input : ByNameInput) : result BoardOut :=
  match getFullBoardWithLayoutSectionsAsync db (bn_boardName input)
          (default "default" (bn_layout input)) with
  | None => Throw (NOT_FOUND "Board not found")
  | Some board =>
      match head (fb_layouts board) with
      | None => Throw (NOT_FOUND "Layout not found")
      | Some layout =>
          let sectionIds := section_id <$> fl_sections layout in
          let apps := getAppsForSectionsAsync db sectionIds in
          let widgets := getWidgetsForSectionsAsync db sectionIds in
          preparedSections ←
            mapR (fun section =>
                    filteredApps ← filterR (fun x => inSection (section_id section) (ma_item x)) apps;
                    filteredWidgets ← filterR (fun x => inSection (section_id section) (mw_item x)) widgets;
                    mappedApps ← mapR mapApp filteredApps;
                    mappedWidgets ← mapR mapWidget filteredWidgets;
                    Ok (mapSection section
                          ((ItemApp <$> mappedApps) ++ (ItemWidget <$> mappedWidgets))))
                 (fl_sections layout);
          Ok {|
            bo_id := board_id (fb_board board);
            bo_name := board_name (fb_board board);
            bo_customization := board_customization (fb_board board);
            bo_owner := fb_owner board;
            bo_sections := preparedSections
          |}
      end
  end.
End Queries.

Definition byNameSimple (db : DB) (boardName : string) : result BoardRow :=
  match findFirst (fun b => board_name b = boardName) (boards db) with
  | None => Throw (NOT_FOUND "Board not found")
  | Some board => Ok board
  end.

(** ** [updateCustomization] *)

Record CustomizationInput := {
  access_allowGuests : cell;
  layout_leftSidebarEnabled : cell;
  layout_rightSidebarEnabled : cell;
  layout_pingsEnabled : cell;
  appearance_opacity : cell;
  appearance_backgroundSrc : cell;
  appearance_primaryColor : cell;
  appearance_secondaryColor : cell;
  appearance_customCss : cell;
  appearance_shade : cell;
  pageMetadata_pageTitle : cell;
  pageMetadata_metaTitle : cell;
  pageMetadata_logoSrc : cell;
  pageMetadata_faviconSrc : cell;
}.

(** The [.set({...})] clause. *)
Definition setCustomization (c : CustomizationInput) (row : BoardRow) : BoardRow :=
  {| board_id := board_id row;
     board_name := board_name row;
     board_ownerId := board_ownerId row;
     board_customization := {|
       allowGuests := access_allowGuests c;
       isLeftSidebarVisible := layout_leftSidebarEnabled c;
       isRightSidebarVisible := layout_rightSidebarEnabled c;
       isPingEnabled := layout_pingsEnabled c;
       appOpacity := appearance_opacity c;
       backgroundImageUrl := appearance_backgroundSrc c;
       primaryColor := appearance_primaryColor c;
       secondaryColor := appearance_secondaryColor c;
       customCss := appearance_customCss c;
       pageTitle := pageMetadata_pageTitle c;
       metaTitle := pageMetadata_metaTitle c;
       logoImageUrl := pageMetadata_logoSrc c;
       faviconImageUrl := pageMetadata_faviconSrc c;
       primaryShade := appearance_shade c |} |}.

(** [db.update(table).set(...).where(...)] *)
Definition update {A} (where_ : A -> Prop) `{forall row, Decision (where_ row)}
    (set : A -> A) (table : list A) : list A :=
  (fun row => if decide (where_ row) then set row else row) <$> table.

Definition withBoards (db : DB) (bs : list BoardRow) : DB :=
  {| boards := bs; users := users db; layouts := layouts db; sections := sections db;
     items := items db; apps := apps db; appItems := appItems db;
     widgets := widgets db; layoutItems := layoutItems db |}.

Definition updateCustomization (db : DB) (boardName : string)
    (customization : CustomizationInput) : result (DB * BoardRow) :=
  match findFirst (fun b => board_name b = boardName) (boards db) with
  | None => Throw (NOT_FOUND "Board not found")
  | Some dbBoard =>
      let db' :=
        withBoards db
          (update (fun b => board_id b = board_id dbBoard)
                  (setCustomization customization) (boards db)) in
      Ok (db', dbBoard)
  end.

(** ** [exampleBoard]

    [randomUUID()] draws from a supply: the n-th draw of a request returns
    [uuid n].  Columns an insert does not name take the schema's defaults. *)

Record World := {
  db : DB;
  drawn : nat;
}.

Record Position := {
  width : Z;
  height : Z;
  x : Z;
  y : Z;
}.

Record AddWidgetProps := {
  aw_boardId : string;
  aw_sectionId : string;
  aw_type : string;
  aw_position : Position;
}.

Record AddAppProps := {
  aa_boardId : string;
  aa_sectionId : string;
  aa_name : string;
  aa_internalUrl : string;
  aa_iconUrl : string;
  aa_position : Position;
}.

Section ExampleBoard.
Variable uuid : nat -> string.
(** Schema defaults of the board columns [exampleBoard] does not set. *)
Variable defaultCustomization : Customization.

Definition randomUUID (w : World) : string * World :=
  (uuid (drawn w), {| db := db w; drawn := S (drawn w) |}).

Definition onDb (f : DB -> DB) (w : World) : World :=
  {| db := f (db w); drawn := drawn w |}.

Definition insertBoard (row : BoardRow) (d : DB) : DB :=
  {| boards := boards d ++ [row]; users := users d; layouts := layouts d;
     sections := sections d; items := items d; apps := apps d;
     appItems := appItems d; widgets := widgets d; layoutItems := layoutItems d |}.

Definition insertLayout (row : LayoutRow) (d : DB) : DB :=
  {| boards := boards d; users := users d; layouts := layouts d ++ [row];
     sections := sections d; items := items d; apps := apps d;
     appItems := appItems d; widgets := widgets d; layoutItems := layoutItems d |}.

Definition insertSection (row : SectionRow) (d : DB) : DB :=
  {| boards := boards d; users := users d; layouts := layouts d;
     sections := sections d ++ [row]; items := items d; apps := apps d;
     appItems := appItems d; widgets := widgets d; layoutItems := layoutItems d |}.

Definition insertItem (row : ItemRow) (d : DB) : DB :=
  {| boards := boards d; users := users d; layouts := layouts d;
     sections := sections d; items := items d ++ [row]; apps := apps d;
     appItems := appItems d; widgets := widgets d; layoutItems := layoutItems d |}.

Definition insertApp (row : AppRow) (d : DB) : DB :=
  {| boards := boards d; users := users d; layouts := layouts d;
     sections := sections d; items := items d; apps := apps d ++ [row];
     appItems := appItems d; widgets := widgets d; layoutItems := layoutItems d |}.

Definition insertAppItem (row : AppItemRow) (d : DB) : DB :=
  {| boards := boards d; users := users d; layouts := layouts d;
     sections := sections d; items := items d; apps := apps d;
     appItems := appItems d ++ [row]; widgets := widgets d; layoutItems := layoutItems d |}.

Definition insertWidget (row : WidgetRow) (d : DB) : DB :=
  {| boards := boards d; users := users d; layouts := layouts d;
     sections := sections d; items := items d; apps := apps d;
     appItems := appItems d; widgets := widgets d ++ [row]; layoutItems := layoutItems d |}.

Definition insertLayoutItem (row : LayoutItemRow) (d : DB) : DB :=
  {| boards := boards d; users := users d; layouts := layouts d;
     sections := sections d; items := items d; apps := apps d;
     appItems := appItems d; widgets := widgets d; layoutItems := layoutItems d ++ [row] |}.

Definition addWidget (props : AddWidgetProps) (w : World) : World :=
  let '(itemId, w) := randomUUID w in
  let w := onDb (insertItem {| item_id := itemId; item_type := "widget";
                               item_boardId := aw_boardId props |}) w in
  let '(widgetId, w) := randomUUID w in
  let w := onDb (insertWidget {| widget_id := widgetId; widget_type := aw_type props;
                                 widget_itemId := itemId; widget_options := [] |}) w in
  let '(layoutItemId, w) := randomUUID w in
  onDb (insertLayoutItem {|
          layoutItem_id := layoutItemId;
          layoutItem_itemId := itemId;
          layoutItem_sectionId := aw_sectionId props;
          layoutItem_width := width (aw_position props);
          layoutItem_height := height (aw_position props);
          layoutItem_x := x (aw_position props);
          layoutItem_y := y (aw_position props) |}) w.

Definition addApp (props : AddAppProps) (w : World) : World :=
  let '(itemId, w) := randomUUID w in
  let w := onDb (insertItem {| item_id := itemId; item_type := "app";
                               item_boardId := aa_boardId props |}) w in
  let '(appId, w) := randomUUID w in
  let w := onDb (insertApp {| app_id := appId; app_name := aa_name props;
                              app_internalUrl := aa_internalUrl props;
                              app_iconUrl := aa_iconUrl props;
                              app_integration := None; app_statusCodes := [] |}) w in
  let w := onDb (insertAppItem {| appItem_appId := appId; appItem_itemId := itemId |}) w in
  let '(layoutItemId, w) := randomUUID w in
  onDb (insertLayoutItem {|
          layoutItem_id := layoutItemId;
          layoutItem_itemId := itemId;
          layoutItem_sectionId := aa_sectionId props;
          layoutItem_width := width (aa_position props);
          layoutItem_height := height (aa_position props);
          layoutItem_x := x (aa_position props);
          layoutItem_y := y (aa_position props) |}) w.

Definition exampleBoard (sessionUserId : string) (boardName : string) (w : World) : World :=
  let '(boardId, w) := randomUUID w in
  let '(layoutId, w) := randomUUID w in
  let '(sectionId, w) := randomUUID w in
  let w := onDb (insertBoard {| board_id := boardId; board_name := boardName;
                                board_ownerId := sessionUserId;
                                board_customization := defaultCustomization |}) w in
  let w := onDb (insertLayout {| layout_id := layoutId; layout_name := "default";
                                 layout_boardId := boardId |}) w in
  let w := onDb (insertSection {| section_id := sectionId; section_layoutId := layoutId;
                                  section_type := "empty"; section_name := None;
                                  section_position := Some 0 |}) w in
  let w := addApp {| aa_boardId := boardId; aa_sectionId := sectionId;
                     aa_name := "Contribute";
                     aa_internalUrl := "https://github.com/ajnart/homarr";
                     aa_iconUrl := "https://cdn.jsdelivr.net/gh/walkxcode/dashboard-icons@master/png/github.png";
                     aa_position := {| width := 2; height := 1; x := 2; y := 0 |} |} w in
  let w := addApp {| aa_boardId := boardId; aa_sectionId := sectionId;
                     aa_name := "Discord";
                     aa_internalUrl := "https://discord.com/invite/aCsmEV5RgA";
                     aa_iconUrl := "https://cdn.jsdelivr.net/gh/walkxcode/dashboard-icons@master/png/discord.png";
                     aa_position := {| width := 2; height := 1; x := 4; y := 0 |} |} w in
  let w := addApp {| aa_boardId := boardId; aa_sectionId := sectionId;
                     aa_name := "Donate";
                     aa_internalUrl := "https://ko-fi.com/ajnart";
                     aa_iconUrl := "https://cdn.jsdelivr.net/gh/walkxcode/dashboard-icons@master/png/ko-fi.png";
                     aa_position := {| width := 2; height := 1; x := 6; y := 0 |} |} w in
  let w := addApp {| aa_boardId := boardId; aa_sectionId := sectionId;
                     aa_name := "Documentation";
                     aa_internalUrl := "https://homarr.dev";
                     aa_iconUrl := "/imgs/logo/logo.png";
                     aa_position := {| width := 2; height := 2; x := 6; y := 1 |} |} w in
  let w := addWidget {| aw_boardId := boardId; aw_sectionId := sectionId;
                        aw_type := "weather";
                        aw_position := {| width := 2; height := 1; x := 0; y := 0 |} |} w in
  let w := addWidget {| aw_boardId := boardId; aw_sectionId := sectionId;
                        aw_type := "date";
                        aw_position := {| width := 2; height := 1; x := 8; y := 0 |} |} w in
  let w := addWidget {| aw_boardId := boardId; aw_sectionId := sectionId;
                        aw_type := "date";
                        aw_position := {| width := 2; height := 1; x := 8; y := 1 |} |} w in
  addWidget {| aw_boardId := boardId; aw_sectionId := sectionId;
               aw_type := "notebook";
               aw_position := {| width := 6; height := 3; x := 0; y := 1 |} |} w.
End ExampleBoard.

(** ** [addAppsForContainers]

    The config directory maps a board name to the parsed JSON config file of
    that name; [configExists] and [getConfig] read it, [fs.writeFileSync]
    replaces one file.  Fields of a config, of an app and of an app's
    [behaviour] that the handler does not name are kept as a property map. *)

Record Wrapper := {
  wrapper_id : string;
  wrapper_position : Z;
}.

Record Behaviour := {
  externalUrl : string;
  behaviour_rest : gmap string value;
}.

Record ConfigApp := {
  ca_name : string;
  ca_url : string;
  ca_behaviour : Behaviour;
  ca_rest : gmap string value;
}.

Record Config := {
  cfg_apps : list ConfigApp;
  cfg_wrappers : list Wrapper;
  cfg_rest : gmap string value;
}.

Record Container := {
  container_name : string;
  container_port : option Z;
}.

Definition configExists (configs : gmap string Config) (name : string) : bool :=
  bool_decide (is_Some (configs !! name)).

Definition getConfig (configs : gmap string Config) (name : string) : option Config :=
  configs !! name.

(** The template literal and the truthiness test on [container.port].  The
    port is an integer here; the decimal numeral is what the template
    literal prints for integers of magnitude below 2^53 ([safePort] below). *)
Definition address (container : Container) : string :=
  match container_port container with
  | Some port => if port =? 0 then "http://localhost" else "http://localhost:" +:+ pretty port
  | None => "http://localhost"
  end.

Section AddAppsForContainers.
(** [generateDefaultApp(wrapperId)] of [~/tools/shared/app]; the second
    argument numbers the calls of one request, each of which draws an id
    of its own. *)
Variable generateDefaultApp : string -> nat -> ConfigApp.

Definition containerApp (lowestWrapper : option Wrapper) (i : nat) (container : Container)
  : result ConfigApp :=
  wrapper ← deref lowestWrapper;
  let defaultApp := generateDefaultApp (wrapper_id wrapper) i in
  Ok {| ca_name := container_name container;
        ca_url := address container;
        ca_behaviour := {| externalUrl := address container;
                           behaviour_rest := behaviour_rest (ca_behaviour defaultApp) |};
        ca_rest := ca_rest defaultApp |}.

Definition addAppsForContainers (configs : gmap string Config) (boardName : string)
    (containers : list Container) : result (gmap string Config) :=
  if negb (configExists configs boardName) then Throw (NOT_FOUND "Board not found")
  else
    config ← deref (getConfig configs boardName);
    (* [sort] orders [config.wrappers] in place *)
    let wrappers :=
      js_sort (fun a b => wrapper_position a - wrapper_position b) (cfg_wrappers config) in
    let lowestWrapper := head wrappers in
    newApps ← mapR (fun '(i, container) => containerApp lowestWrapper i container)
                   (imap pair containers);
    let newConfig := {| cfg_apps := cfg_apps config ++ newApps;
                        cfg_wrappers := wrappers;
                        cfg_rest := cfg_rest config |} in
    Ok (<[boardName := newConfig]> configs).
End AddAppsForContainers.

(** ** [all]

    The handler lists the directory [./data/configs]; [readdirSync] gives
    its entries as a list of file names.  [getDefaultBoardAsync] and
    [getFrontendConfig] are not part of this file and are taken as given;
    of a frontend config the handler reads the lengths of three arrays.
    [Promise.all] is fulfilled with the list of all results when every
    call is fulfilled and is rejected otherwise, which is the outcome
    [None] here. *)

(** [s.endsWith(search)] *)
Fixpoint endsWith (s search : string) : bool :=
  bool_decide (s = search) ||
  match s with
  | EmptyString => false
  | String _ s' => endsWith s' search
  end.

(** The rest of [s] after the prefix [search], when [s] starts with it. *)
Fixpoint stripPrefix (search s : string) : option string :=
  match search, s with
  | EmptyString, _ => Some s
  | String a search', String b s' =>
      if decide (a = b) then stripPrefix search' s' else None
  | String _ _, EmptyString => None
  end.

(** [s.replace(search, replaceValue)] for a string pattern: the first
    occurrence of [search], from the left, is replaced ([replaceValue] is
    taken literally, it holds no [$] pattern). *)
Fixpoint replace (s search replaceValue : string) : string :=
  match stripPrefix search s with
  | Some rest => replaceValue +:+ rest
  | None =>
      match s with
      | EmptyString => EmptyString
      | String c s' => String c (replace s' search replaceValue)
      end
  end.

Record FrontendConfig := {
  fc_apps : list value;
  fc_widgets : list value;
  fc_categories : list value;
}.

Record BoardSummary := {
  bs_name : string;
  bs_countApps : nat;
  bs_countWidgets : nat;
  bs_countCategories : nat;
  bs_isDefaultForUser : bool;
}.

Section All.
Variable getDefaultBoardAsync : string -> string -> string.
Variable getFrontendConfig : string -> option FrontendConfig.

Definition boardSummary (defaultBoard : string) (file : string) : option BoardSummary :=
  let name := replace file ".json" "" in
  config ← getFrontendConfig name;
  let countApps := length (fc_apps config) in
  Some {| bs_name := name;
          bs_countApps := countApps;
          bs_countWidgets := length (fc_widgets config);
          bs_countCategories := length (fc_categories config);
          bs_isDefaultForUser := bool_decide (name = defaultBoard) |}.

Definition all (readdir : list string) (sessionUserId : string) : option (list BoardSummary) :=
  let files := filter (fun file => endsWith file ".json" = true) readdir in
  let defaultBoard := getDefaultBoardAsync sessionUserId "default" in
  mapM (boardSummary defaultBoard) files.
End All.

(** ** Reading a nested value, and what the rows of a widget denote *)

Definition properties (v : value) : option (gmap string value) :=
  match v with
  | VArray m | VObject m => Some m
  | _ => None
  end.

(** [getPath v [k1; ...; kn]] is what [v[k1]...[kn]] reads through own
    properties: every key is an own property of the array or object reached
    before it. *)
Fixpoint getPath (v : value) (keys : list string) : option value :=
  match keys with
  | [] => Some v
  | k :: ks => m ← properties v; child ← m !! k; getPath child ks
  end.

(** What the path of row [r] holds in [obj]. *)
Definition rowHolds (obj : value) (r : MapOption) : Prop :=
  let held := getPath obj (split (path r)) in
  match type r with
  | TArray => ∃ m, held = Some (VArray m)
  | TObject => ∃ m, held = Some (VObject m)
  | TNumber =>
      match value_ r with
      | Some v =>
          if decide (v = "") then held = None
          else held = Some (VNumber (if includes_dot v then parseFloat v else parseIntNumber v))
      | None => held = None
      end
  | TBoolean => held = Some (VBool (bool_decide (value_ r = Some "true")))
  | TString => held = Some (match value_ r with Some v => VString v | None => VNull end)
  | TNull => held = Some VNull
  end.

(** [keys.join('.')] *)
Fixpoint join (keys : list string) : string :=
  match keys with
  | [] => ""
  | [k] => k
  | k :: ks => k +:+ "." +:+ join ks
  end.

(** [setPath cur keys v]: [cur] with [cur[k1]...[kn]] replaced by [v]. *)
Fixpoint setPath (cur : value) (keys : list string) (v : value) : value :=
  match keys with
  | [] => v
  | k :: ks =>
      match cur with
      | VArray m => VArray (<[k := setPath (default VUndefined (m !! k)) ks v]> m)
      | VObject m => VObject (<[k := setPath (default VUndefined (m !! k)) ks v]> m)
      | _ => cur
      end
  end.

(** The walk of [addAtPath] along [keys] from [cur] only meets arrays and
    objects, reads existing properties, and under an array reads the key as
    it is written. *)
Fixpoint resolves (cur : value) (keys : list string) : Prop :=
  match keys with
  | [] => is_Some (properties cur)
  | k :: ks =>
      match cur with
      | VArray m => indexKey k = k ∧ ∃ c, m !! k = Some c ∧ resolves c ks
      | VObject m => ∃ c, m !! k = Some c ∧ resolves c ks
      | _ => False
      end
  end.

(** [c] is what a path assigned [v] holds later on: [v] itself, or the array
    or object [v] with the properties added since. *)
Definition shapeOf (v c : value) : Prop :=
  match v with
  | VArray _ => ∃ m, c = VArray m
  | VObject _ => ∃ m, c = VObject m
  | _ => c = v
  end.

(** Both arrays, or both objects. *)
Definition sameContainer (c c' : value) : Prop :=
  match c, c' with
  | VArray _, VArray _ | VObject _, VObject _ => True
  | _, _ => False
  end.

(** [obj] is what the rows [done] have built: every row that assigns holds
    at its path, and every path of [obj] is the path of such a row. *)
Definition built (obj : value) (done : list MapOption) : Prop :=
  (∃ m, obj = VObject m) ∧
  (∀ r v, r ∈ done → assigned r = Some v →
     ∃ c, getPath obj (split (path r)) = Some c ∧ shapeOf v c) ∧
  (∀ keys, keys ≠ [] → is_Some (getPath obj keys) →
     ∃ r, r ∈ done ∧ split (path r) = keys ∧ is_Some (assigned r)).

(** Every proper dotted-path ancestor of a row's path is the path of an
    ['array'] or ['object'] row. *)
Definition prefixClosed (rows : list MapOption) : Prop :=
  ∀ r p s, r ∈ rows → path r = p +:+ "." +:+ s →
    ∃ a, a ∈ rows ∧ path a = p ∧ (type a = TArray ∨ type a = TObject).

(** A key that [parseInt] and the number-to-string conversion give back
    unchanged, short enough to be an exact integer. *)
Definition canonicalIndex (key : string) : Prop :=
  indexKey key = key ∧ (String.length key ≤ 15)%nat.

(** A key directly below an ['array'] row that the walk of a row goes
    through is a canonical index.  The last key of a path is not walked: the
    assignment uses it as it is written. *)
Definition walkedKeysCanonical (rows : list MapOption) : Prop :=
  ∀ a r s key rest, a ∈ rows → r ∈ rows → type a = TArray →
    path r = path a +:+ "." +:+ s → split s = key :: rest → rest ≠ [] →
    canonicalIndex key.

(** The keys for which an object or array is the map of its own properties:
    no path has the segment [__proto__], whose assignment runs the inherited
    setter, and no row assigns to the [length] of an array. *)
Definition ownKeys (rows : list MapOption) : Prop :=
  Forall (fun r => "__proto__" ∉ split (path r)) rows ∧
  Forall (fun a => type a = TArray →
                   Forall (fun r => path r ≠ path a +:+ ".length") rows) rows.

(** Executable forms of the two conditions, for concrete rows. *)
Definition isContainerRow (a : MapOption) : bool :=
  match type a with
  | TArray | TObject => true
  | _ => false
  end.

Definition prefixClosedb (rows : list MapOption) : bool :=
  forallb (fun r =>
      forallb (fun n =>
          existsb (fun a =>
              bool_decide (split (path a) = take n (split (path r))) && isContainerRow a)
            rows)
        (seq 1 (length (split (path r)) - 1)))
    rows.

Definition canonicalIndexb (key : string) : bool :=
  bool_decide (indexKey key = key) && bool_decide (String.length key ≤ 15)%nat.

Definition walkedKeysCanonicalb (rows : list MapOption) : bool :=
  forallb (fun a =>
      match type a with
      | TArray =>
          forallb (fun r =>
              match drop (length (split (path a))) (split (path r)) with
              | key :: _ :: _ =>
                  negb (bool_decide (take (length (split (path a))) (split (path r))
                                     = split (path a)))
                  || canonicalIndexb key
              | _ => true
              end)
            rows
      | _ => true
      end)
    rows.

(** A consistent comparator: [cmp a b <= 0] is a total preorder. *)
Definition consistent {A} (cmp : A -> A -> Z) : Prop :=
  (∀ a b, cmp a b ≤ 0 ∨ cmp b a ≤ 0) ∧
  (∀ a b c, cmp a b ≤ 0 → cmp b c ≤ 0 → cmp a c ≤ 0).

(** The collation puts a path before the paths below it. *)
Definition ancestorsFirst (cmp : string -> string -> Z) : Prop :=
  ∀ p s, 0 < cmp (p +:+ "." +:+ s) p.

(** Comparison by code units, the collation used in the examples. *)
Definition codeUnitCompare (a b : string) : Z :=
  match String.compare a b with
  | Lt => -1
  | Eq => 0
  | Gt => 1
  end.

(** [a] comes no later than [b] in ascending order of position. *)
Definition position_le (a b : option Z) : Prop :=
  match a, b with
  | None, _ => True
  | Some _, None => False
  | Some x, Some y => x ≤ y
  end.

(** The item has a layout item in the section. *)
Definition hasLayoutItem (db : DB) (sectionId itemId : string) : Prop :=
  Exists (fun li => layoutItem_itemId li = itemId ∧ layoutItem_sectionId li = sectionId)
         (layoutItems db).

(** What the response shows of an [appItems] row: the id of its item and
    the columns of its app. *)
Definition showsApp (db : DB) (ai : AppItemRow) (out : AppOut) : Prop :=
  ao_id out = appItem_itemId ai ∧
  ∃ app, findFirst (fun a => app_id a = appItem_appId ai) (apps db) = Some app ∧
         ao_name out = app_name app ∧
         ao_internalUrl out = app_internalUrl app ∧
         ao_iconUrl out = app_iconUrl app ∧
         ao_statusCodes out = app_statusCodes app.

(** What the response shows of a [widgets] row: the id of its item, its
    type, and its options as [mapOptions] rebuilds them. *)
Definition showsWidget (localeCompare : string -> string -> Z)
    (w : WidgetRow) (out : WidgetOut) : Prop :=
  wo_id out = widget_itemId w ∧
  wo_sort out = widget_type w ∧
  mapOptions localeCompare (widget_options w) = Ok (wo_options out).

(** The section of the response assembled for the stored section [row]: its
    items are one app for every [appItems] row whose item has a layout item
    in the section, in table order, followed by one widget for every
    [widgets] row whose item has one. *)
Definition assembles (localeCompare : string -> string -> Z) (db : DB)
    (row : SectionRow) (section : SectionOut) : Prop :=
  sec_id section = section_id row ∧
  sec_type section = section_type row ∧
  ∃ appsOut widgetsOut,
    sec_items section = (ItemApp <$> appsOut) ++ (ItemWidget <$> widgetsOut) ∧
    Forall2 (showsApp db)
      (filter (fun ai => hasLayoutItem db (section_id row) (appItem_itemId ai))
              (appItems db))
      appsOut ∧
    Forall2 (showsWidget localeCompare)
      (filter (fun w => hasLayoutItem db (section_id row) (widget_itemId w))
              (widgets db))
      widgetsOut.

(** A port that JavaScript holds exactly and prints as its decimal numeral:
    an integer of magnitude below 2^53. *)
Definition safePort (container : Container) : Prop :=
  ∀ port, container_port container = Some port → - 2 ^ 53 < port < 2 ^ 53.

(** The only exception [r] can throw is a [TypeError]. *)
Definition onlyTypeError {A} (r : result A) : Prop := ∀ e, r = Throw e → e = TypeError.

(** *** Data of the examples *)

Definition emptyDb : DB :=
  {| boards := []; users := []; layouts := []; sections := []; items := [];
     apps := []; appItems := []; widgets := []; layoutItems := [] |}.

Definition noCustomization : Customization :=
  {| allowGuests := CBool false; isLeftSidebarVisible := CBool false;
     isRightSidebarVisible := CBool false; isPingEnabled := CBool false;
     appOpacity := CInt 100; backgroundImageUrl := CNull; primaryColor := CText "red";
     secondaryColor := CText "orange"; customCss := CNull; pageTitle := CNull;
     metaTitle := CNull; logoImageUrl := CNull; faviconImageUrl := CNull;
     primaryShade := CInt 7 |}.

Definition someCustomization : CustomizationInput :=
  {| access_allowGuests := CBool true; layout_leftSidebarEnabled := CBool true;
     layout_rightSidebarEnabled := CBool false; layout_pingsEnabled := CBool true;
     appearance_opacity := CInt 50; appearance_backgroundSrc := CText "/bg.png";
     appearance_primaryColor := CText "blue"; appearance_secondaryColor := CText "cyan";
     appearance_customCss := CText ""; appearance_shade := CInt 5;
     pageMetadata_pageTitle := CText "Home"; pageMetadata_metaTitle := CText "Home";
     pageMetadata_logoSrc := CText "/logo.png"; pageMetadata_faviconSrc := CText "/favicon.ico" |}.

(** The database after [exampleBoard] for board ["home"] of user ["u1"]. *)
Definition homeDb : DB :=
  db (exampleBoard (fun n => "id" +:+ pretty n) noCustomization "u1" "home"
        {| db := emptyDb; drawn := 0 |}).

(** [homeDb] with an integration, holding two secrets, attached to its apps. *)
Definition withSecrets (d : DB) : DB :=
  {| boards := boards d; users := users d; layouts := layouts d;
     sections := sections d; items := items d;
     apps :=
       (fun a => {|
          app_id := app_id a; app_name := app_name a;
          app_internalUrl := app_internalUrl a; app_iconUrl := app_iconUrl a;
          app_integration :=
            Some {| integration_id := "i1"; integration_name := "sonarr";
                    integration_secrets :=
                      [ {| secret_integrationId := "i1"; secret_key := "apiKey";
                           secret_value := Some "s3cr3t"; secret_visibility := "private" |};
                        {| secret_integrationId := "i1"; secret_key := "username";
                           secret_value := Some ""; secret_visibility := "public" |} ] |};
          app_statusCodes := app_statusCodes a |}) <$> apps d;
     appItems := appItems d; widgets := widgets d; layoutItems := layoutItems d |}.

(** [homeDb] with two more sections in its default layout, stored out of
    order, a second layout, and the weather widget placed in two sections. *)
Definition twoLayoutsDb : DB :=
  {| boards := boards homeDb; users := [ {| user_id := "u1"; user_name := Some "admin" |} ];
     layouts := layouts homeDb
                ++ [ {| layout_id := "l2"; layout_name := "mobile"; layout_boardId := "id0" |} ];
     sections :=
       {| section_id := "s9"; section_layoutId := "id1"; section_type := "category";
          section_name := Some "Media"; section_position := Some 5 |}
       :: sections homeDb
       ++ [ {| section_id := "s1"; section_layoutId := "id1"; section_type := "sidebar";
               section_name := None; section_position := Some 1 |};
            {| section_id := "m1"; section_layoutId := "l2"; section_type := "empty";
               section_name := None; section_position := Some 0 |} ];
     items := items homeDb; apps := apps homeDb; appItems := appItems homeDb;
     widgets := widgets homeDb;
     layoutItems := layoutItems homeDb
       ++ [ {| layoutItem_id := "x1"; layoutItem_itemId := "id15";
               layoutItem_sectionId := "s9"; layoutItem_width := 1; layoutItem_height := 1;
               layoutItem_x := 0; layoutItem_y := 0 |} ] |}.

Definition twoBoards : DB :=
  withBoards emptyDb
    [ {| board_id := "b1"; board_name := "home"; board_ownerId := "u1";
         board_customization := noCustomization |};
      {| board_id := "b2"; board_name := "work"; board_ownerId := "u2";
         board_customization := noCustomization |} ].

Definition homeInput : ByNameInput := {| bn_boardName := "home"; bn_layout := None |}.

Definition row (p : string) (t : OptionType) (v : option string) : MapOption :=
  {| path := p; value_ := v; type := t |}.

(** The rows of the options [{ a: { b: 1.5, c: ["x"] }, n: 12, on: true }]. *)
Definition someOptions : list MapOption :=
  [ row "n" TNumber (Some "12");
    row "a.c.0" TString (Some "x");
    row "a" TObject None;
    row "a.c" TArray None;
    row "on" TBoolean (Some "true");
    row "a.b" TNumber (Some "1.5") ].

Definition defaultApp (wrapperId : string) (i : nat) : ConfigApp :=
  {| ca_name := "Your app";
     ca_url := "https://homarr.dev";
     ca_behaviour := {| externalUrl := "https://homarr.dev";
                        behaviour_rest := {[ "isOpeningNewTab" := VBool true ]} |};
     ca_rest := {[ "id" := VString ("app" +:+ pretty i);
                   "area" := VObject {[ "type" := VString "wrapper";
                                        "properties" := VObject {[ "id" := VString wrapperId ]} ]} ]} |}.

Definition someConfig (wrappers : list Wrapper) : Config :=
  {| cfg_apps := []; cfg_wrappers := wrappers;
     cfg_rest := {[ "schemaVersion" := VNumber (Int 2) ]} |}.

Definition twoWrappers : list Wrapper :=
  [ {| wrapper_id := "w2"; wrapper_position := 2 |};
    {| wrapper_id := "w1"; wrapper_position := 1 |} ].

(** *** Notions used by the further properties *)

(** Two stored secrets that the response of [byName] cannot tell apart:
    same key, both private or both not, and either the same value or, when
    private, values that are both defined or both not. *)
Definition secretLowEq (s1 s2 : SecretRow) : Prop :=
  secret_key s1 = secret_key s2 ∧
  (secret_visibility s1 = "private" ↔ secret_visibility s2 = "private") ∧
  (secret_visibility s1 ≠ "private" → secret_value s1 = secret_value s2) ∧
  (secret_value s1 ≠ None ∧ secret_value s1 ≠ Some "" ↔
   secret_value s2 ≠ None ∧ secret_value s2 ≠ Some "").

Definition integrationLowEq (i1 i2 : IntegrationRow) : Prop :=
  integration_id i1 = integration_id i2 ∧
  integration_name i1 = integration_name i2 ∧
  Forall2 secretLowEq (integration_secrets i1) (integration_secrets i2).

(** Two [apps] rows that differ at most in the values of private secrets. *)
Definition appLowEq (a1 a2 : AppRow) : Prop :=
  app_id a1 = app_id a2 ∧
  app_name a1 = app_name a2 ∧
  app_internalUrl a1 = app_internalUrl a2 ∧
  app_iconUrl a1 = app_iconUrl a2 ∧
  app_statusCodes a1 = app_statusCodes a2 ∧
  option_Forall2 integrationLowEq (app_integration a1) (app_integration a2).

Definition withApps (d : DB) (rows : list AppRow) : DB :=
  {| boards := boards d; users := users d; layouts := layouts d; sections := sections d;
     items := items d; apps := rows; appItems := appItems d;
     widgets := widgets d; layoutItems := layoutItems d |}.

(** The id and the geometry of an item of the response, and the geometry of
    a layout item. *)
Definition itemOutId (i : ItemOut) : string :=
  match i with
  | ItemApp a => ao_id a
  | ItemWidget w => wo_id w
  end.

Definition itemOutPosition (i : ItemOut) : Position :=
  match i with
  | ItemApp a =>
      {| width := ao_width a; height := ao_height a; x := ao_x a; y := ao_y a |}
  | ItemWidget w =>
      {| width := wo_width w; height := wo_height w; x := wo_x w; y := wo_y w |}
  end.

Definition layoutItemPosition (li : LayoutItemRow) : Position :=
  {| width := layoutItem_width li; height := layoutItem_height li;
     x := layoutItem_x li; y := layoutItem_y li |}.

(** The response with another customization. *)
Definition withCustomization (res : BoardOut) (c : Customization) : BoardOut :=
  {| bo_id := bo_id res; bo_name := bo_name res; bo_customization := c;
     bo_owner := bo_owner res; bo_sections := bo_sections res |}.

(** [homeDb] with the [apiKey] of its integration changed. *)
Definition withOtherSecrets (d : DB) : DB :=
  withApps d
    ((fun a => {|
        app_id := app_id a; app_name := app_name a;
        app_internalUrl := app_internalUrl a; app_iconUrl := app_iconUrl a;
        app_integration :=
          Some {| integration_id := "i1"; integration_name := "sonarr";
                  integration_secrets :=
                    [ {| secret_integrationId := "i1"; secret_key := "apiKey";
                         secret_value := Some "0th3r"; secret_visibility := "private" |};
                      {| secret_integrationId := "i1"; secret_key := "username";
                         secret_value := Some ""; secret_visibility := "public" |} ] |};
        app_statusCodes := app_statusCodes a |}) <$> apps d).

(** The item is placed in one of the sections: it has a layout item there. *)
Definition placed (db : DB) (sectionIds : list string) (itemId : string) : Prop :=
  ∃ sectionId, sectionId ∈ sectionIds ∧ hasLayoutItem db sectionId itemId.

(** [search] occurs in [s] at its end only. *)
Definition onlyAtEnd (search s : string) : Prop :=
  ∀ pre post, s = pre +:+ search +:+ post → post = "".

(** [out] is [s] without its first occurrence of [search]. *)
Definition removesFirst (search s out : string) : Prop :=
  ∃ pre post,
    s = pre +:+ search +:+ post ∧ out = pre +:+ post ∧
    ∀ pre' post', s = pre' +:+ search +:+ post' →
      (String.length pre ≤ String.length pre')%nat.

Fixpoint onlyAtEndb (search s : string) : bool :=
  match stripPrefix search s with
  | Some (String _ _) => false
  | _ =>
      match s with
      | EmptyString => true
      | String _ s' => onlyAtEndb search s'
      end
  end.

(** A config directory with two boards, and their frontend configs. *)
Definition someDirectory : list string := ["default.json"; "notes.txt"; "media.json"].

Definition someFrontendConfig (name : string) : option FrontendConfig :=
  if decide (name = "default") then
    Some {| fc_apps := [VNull; VNull]; fc_widgets := [VNull]; fc_categories := [] |}
  else if decide (name = "media") then
    Some {| fc_apps := []; fc_widgets := []; fc_categories := [VNull] |}
  else None.

(** A user without a board of their own: the fallback is their default. *)
Definition fallbackBoard (userId fallback : string) : string := fallback.

(** *** A database made of two parts

    [merged lP lQ lD]: the table [lD] holds the rows [lP] and the rows
    [lQ], one part after the other. *)
Definition merged {A} (lP lQ lD : list A) : Prop :=
  lD = lP ++ lQ ∨ lD = lQ ++ lP.

Definition mergedDb (P Q D : DB) : Prop :=
  users D = users P ∧
  merged (layouts P) (layouts Q) (layouts D) ∧
  merged (sections P) (sections Q) (sections D) ∧
  merged (items P) (items Q) (items D) ∧
  merged (apps P) (apps Q) (apps D) ∧
  merged (appItems P) (appItems Q) (appItems D) ∧
  merged (widgets P) (widgets Q) (widgets D) ∧
  merged (layoutItems P) (layoutItems Q) (layoutItems D).

(** The item ids the [appItems] and [widgets] rows of a database refer to. *)
Definition itemRefs (d : DB) : list string :=
  (appItem_itemId <$> appItems d) ++ (widget_itemId <$> widgets d).

(** [separate P Q]: no row of [Q] refers to a board, layout or section of
    [P] or bears an id that a row of [P] refers to, no layout item of [P]
    belongs to an item that [Q] refers to, and the [appItems] and [widgets]
    rows of [Q] refer to items of [Q]. *)
Definition separate (P Q : DB) : Prop :=
  Forall (fun l => layout_boardId l ∉ board_id <$> boards P) (layouts Q) ∧
  Forall (fun s => section_layoutId s ∉ layout_id <$> layouts P) (sections Q) ∧
  Forall (fun li => layoutItem_sectionId li ∉ section_id <$> sections P) (layoutItems Q) ∧
  Forall (fun i => item_id i ∉ itemRefs P) (items Q) ∧
  Forall (fun a => app_id a ∉ appItem_appId <$> appItems P) (apps Q) ∧
  Forall (fun li => layoutItem_itemId li ∉ itemRefs Q) (layoutItems P) ∧
  Forall (fun ref => ∃ i, i ∈ items Q ∧ item_id i = ref) (itemRefs Q).

Definition withUsers (d : DB) (rows : list UserRow) : DB :=
  {| boards := boards d; users := rows; layouts := layouts d; sections := sections d;
     items := items d; apps := apps d; appItems := appItems d;
     widgets := widgets d; layoutItems := layoutItems d |}.

(** *** Fresh ids

    The ids and references stored in the columns that the queries of
    [byName] compare. *)
Definition storedIds (d : DB) : list string :=
  (board_id <$> boards d) ++
  (layout_id <$> layouts d) ++ (layout_boardId <$> layouts d) ++
  (section_id <$> sections d) ++ (section_layoutId <$> sections d) ++
  (item_id <$> items d) ++ (app_id <$> apps d) ++
  (appItem_appId <$> appItems d) ++ (appItem_itemId <$> appItems d) ++
  (widget_itemId <$> widgets d) ++
  (layoutItem_itemId <$> layoutItems d) ++ (layoutItem_sectionId <$> layoutItems d).

(** From the state [w] on, the supply draws ids that differ from one another
    and from every stored id. *)
Definition fresh (uuid : nat -> string) (w : World) : Prop :=
  (∀ i j, (drawn w ≤ i)%nat → (drawn w ≤ j)%nat → uuid i = uuid j → i = j) ∧
  (∀ k, (drawn w ≤ k)%nat → uuid k ∉ storedIds (db w)).

(** *** The example board as [byName] returns it *)

Definition exampleApp (id : string) (p : Position) (name internalUrl iconUrl : string)
  : ItemOut :=
  ItemApp {| ao_id := id; ao_width := width p; ao_height := height p;
             ao_x := x p; ao_y := y p;
             ao_name := name; ao_internalUrl := internalUrl; ao_iconUrl := iconUrl;
             ao_integration := None; ao_statusCodes := [] |}.

Definition exampleWidget (id : string) (p : Position) (sort : string) : ItemOut :=
  ItemWidget {| wo_id := id; wo_width := width p; wo_height := height p;
                wo_x := x p; wo_y := y p;
                wo_sort := sort; wo_options := VObject ∅ |}.

Definition exampleResponse (uuid : nat -> string) (defaults : Customization)
    (owner : option UserRow) (boardName : string) (n : nat) : BoardOut :=
  {| bo_id := uuid n; bo_name := boardName; bo_customization := defaults;
     bo_owner := owner;
     bo_sections :=
       [ {| sec_id := uuid (2 + n)%nat; sec_type := "empty"; sec_name := None;
            sec_position := PNumber 0;
            sec_items :=
              [ exampleApp (uuid (3 + n)%nat) {| width := 2; height := 1; x := 2; y := 0 |}
                  "Contribute" "https://github.com/ajnart/homarr"
                  "https://cdn.jsdelivr.net/gh/walkxcode/dashboard-icons@master/png/github.png";
                exampleApp (uuid (6 + n)%nat) {| width := 2; height := 1; x := 4; y := 0 |}
                  "Discord" "https://discord.com/invite/aCsmEV5RgA"
                  "https://cdn.jsdelivr.net/gh/walkxcode/dashboard-icons@master/png/discord.png";
                exampleApp (uuid (9 + n)%nat) {| width := 2; height := 1; x := 6; y := 0 |}
                  "Donate" "https://ko-fi.com/ajnart"
                  "https://cdn.jsdelivr.net/gh/walkxcode/dashboard-icons@master/png/ko-fi.png";
                exampleApp (uuid (12 + n)%nat) {| width := 2; height := 2; x := 6; y := 1 |}
                  "Documentation" "https://homarr.dev" "/imgs/logo/logo.png";
                exampleWidget (uuid (15 + n)%nat) {| width := 2; height := 1; x := 0; y := 0 |}
                  "weather";
                exampleWidget (uuid (18 + n)%nat) {| width := 2; height := 1; x := 8; y := 0 |}
                  "date";
                exampleWidget (uuid (21 + n)%nat) {| width := 2; height := 1; x := 8; y := 1 |}
                  "date";
                exampleWidget (uuid (24 + n)%nat) {| width := 6; height := 3; x := 0; y := 1 |}
                  "notebook" ] |} ] |}.

(** The rows that [exampleBoard] inserts when [n] ids have been drawn. *)
Definition exampleRows (uuid : nat -> string) (defaults : Customization)
    (sessionUserId boardName : string) (n : nat) : DB :=
  db (exampleBoard uuid defaults sessionUserId boardName {| db := emptyDb; drawn := n |}).

(** The supply of ids of the examples and the state after [homeDb] was made. *)
Definition exampleUuid (n : nat) : string := "id" +:+ pretty n.

Definition homeWorld : World := {| db := homeDb; drawn := 27 |}.

Definition otherCustomization : CustomizationInput :=
  {| access_allowGuests := CBool false; layout_leftSidebarEnabled := CBool false;
     layout_rightSidebarEnabled := CBool true; layout_pingsEnabled := CBool false;
     appearance_opacity := CInt 80; appearance_backgroundSrc := CNull;
     appearance_primaryColor := CText "green"; appearance_secondaryColor := CText "lime";
     appearance_customCss := CNull; appearance_shade := CInt 3;
     pageMetadata_pageTitle := CText "Work"; pageMetadata_metaTitle := CNull;
     pageMetadata_logoSrc := CNull; pageMetadata_faviconSrc := CNull |}.

Definition withItems (d : DB) (rows : list ItemRow) : DB :=
  {| boards := boards d; users := users d; layouts := layouts d; sections := sections d;
     items := rows; apps := apps d; appItems := appItems d;
     widgets := widgets d; layoutItems := layoutItems d |}.

(** The items of [homeDb], each marked as a widget of another board. *)
Definition movedItems : list ItemRow :=
  (fun i => {| item_id := item_id i; item_type := "widget"; item_boardId := "elsewhere" |})
    <$> items homeDb.

(** *** The keys for which a map of own properties describes an object

    The names of the members of [Object.prototype], which every object
    inherits. *)
Definition objectPrototypeNames : list string :=
  [ "constructor"; "__defineGetter__"; "__defineSetter__"; "hasOwnProperty";
    "__lookupGetter__"; "__lookupSetter__"; "isPrototypeOf"; "propertyIsEnumerable";
    "toString"; "valueOf"; "__proto__"; "toLocaleString" ].

(** A key under which [current[parseInt(key, 10)]] reads the property
    [indexKey key]: it is ASCII, and when it reads as an integer that integer
    has magnitude at most 2^53. *)
Definition exactIndex (key : string) : Prop :=
  all_ascii key && match parseInt key with
                   | Some z => exact z
                   | None => true
                   end = true.

(** The walk from [cur] along [keys] reads what the map of own properties
    gives: under an array it reads an exact index, and a key that an object
    does not have is not the name of an inherited member.  From [undefined]
    or a scalar nothing more is read. *)
Fixpoint exactWalk (cur : value) (keys : list string) : Prop :=
  match keys with
  | [] => True
  | key :: keys' =>
      match cur with
      | VArray m =>
          exactIndex key ∧
          match m !! indexKey key with
          | Some child => exactWalk child keys'
          | None => True
          end
      | VObject m =>
          match m !! key with
          | Some child => exactWalk child keys'
          | None => key ∉ objectPrototypeNames
          end
      | _ => True
      end
  end.

(** A key that is read and assigned as an own property wherever it stands:
    not the name of an inherited member, not [length], and an exact index. *)
Definition plainKey (key : string) : Prop :=
  (key ∉ objectPrototypeNames) ∧ key ≠ "length" ∧ exactIndex key.

Definition plainRows (rows : list MapOption) : Prop :=
  Forall (fun r => Forall plainKey (split (path r))) rows.

(** * Properties *)

(** ** The [result] monad and its list traversals *)

Lemma bind_Ok {A B} (r : result A) (k : A -> result B) (b : B) :
  r ≫= k = Ok b → ∃ a, r = Ok a ∧ k a = Ok b.
Proof. destruct r as [a|e]; [eauto | discriminate]. Qed.

Ltac inv_bind H :=
  let a := fresh "a" in
  let Ha := fresh "H" a in
  apply bind_Ok in H; destruct H as (a & Ha & H).

Lemma deref_Ok {A} (o : option A) (a : A) : deref o = Ok a → o = Some a.
Proof. destruct o; simpl; congruence. Qed.

Lemma mapR_Ok {A B} (f : A -> result B) (l : list A) (bs : list B) :
  mapR f l = Ok bs → Forall2 (fun a b => f a = Ok b) l bs.
Proof.
  revert bs. induction l as [|a l IH]; simpl; intros bs H.
  - injection H as <-. constructor.
  - inv_bind H. inv_bind H. injection H as <-. constructor; auto.
Qed.

Lemma mapR_total {A B} (f : A -> result B) (l : list A) :
  Forall (fun a => ∃ b, f a = Ok b) l → ∃ bs, mapR f l = Ok bs.
Proof.
  induction 1 as [|a l [b Hb] _ [bs Hbs]]; simpl.
  - eauto.
  - rewrite Hb. simpl. rewrite Hbs. simpl. eauto.
Qed.

Lemma filterR_Ok {A} (p : A -> result bool) (l l' : list A) :
  filterR p l = Ok l' →
  Forall (fun a => ∃ b, p a = Ok b) l ∧ l' = filter (fun a => p a = Ok true) l.
Proof.
  revert l'. induction l as [|a l IH]; simpl; intros l' H.
  - injection H as <-. split; [constructor | reflexivity].
  - inv_bind H. inv_bind H. injection H as <-.
    destruct (IH _ Ha1) as [Hall ->]. split; [constructor; eauto |].
    rewrite filter_cons. destruct a0; case_decide; congruence.
Qed.

(** ** [js_sort] sorts *)

Section SortFacts.
Context {A : Type} (cmp : A -> A -> Z).

Lemma sort_insert_Permutation (a : A) (l : list A) : sort_insert cmp a l ≡ₚ a :: l.
Proof.
  induction l as [|b l IH]; simpl; [reflexivity |].
  destruct (cmp a b <=? 0); [reflexivity |].
  rewrite IH. apply perm_swap.
Qed.

Lemma js_sort_Permutation (l : list A) : js_sort cmp l ≡ₚ l.
Proof.
  induction l as [|a l IH]; simpl; [reflexivity |].
  unfold js_sort in *. simpl. rewrite sort_insert_Permutation. by rewrite IH.
Qed.

Lemma js_sort_nil_inv (l : list A) : js_sort cmp l = [] → l = [].
Proof.
  intros H. apply Permutation_nil_r. rewrite <- H. symmetry. apply js_sort_Permutation.
Qed.

Hypothesis Hcmp : consistent cmp.

Lemma sort_insert_sorted (a : A) (l : list A) :
  StronglySorted (fun x y => cmp x y ≤ 0) l →
  StronglySorted (fun x y => cmp x y ≤ 0) (sort_insert cmp a l).
Proof.
  destruct Hcmp as [Htotal Htrans].
  induction 1 as [|b l Hl IH Hb]; simpl.
  - repeat constructor.
  - destruct (Z.leb_spec (cmp a b) 0) as [Hab|Hab].
    + constructor; [by constructor |].
      constructor; [done |].
      eapply Forall_impl; [exact Hb |]. intros c Hc. simpl in Hc. eauto.
    + constructor; [done |].
      rewrite sort_insert_Permutation. constructor; [| done].
      destruct (Htotal a b); [lia | done].
Qed.

Lemma js_sort_sorted (l : list A) :
  StronglySorted (fun x y => cmp x y ≤ 0) (js_sort cmp l).
Proof.
  induction l as [|a l IH]; [constructor |].
  apply sort_insert_sorted, IH.
Qed.

(** The first element of the sorted array is a least element. *)
Lemma js_sort_head_least (l : list A) (a : A) :
  head (js_sort cmp l) = Some a → a ∈ l ∧ ∀ b, b ∈ l → cmp a b ≤ 0.
Proof.
  destruct Hcmp as [Htotal Htrans].
  intros Hhd. pose proof (js_sort_sorted l) as Hs.
  pose proof (js_sort_Permutation l) as Hp.
  destruct (js_sort cmp l) as [|a' l'] eqn:E; [discriminate |].
  injection Hhd as ->. split.
  - rewrite <- Hp. left.
  - intros b Hb. rewrite <- Hp in Hb.
    apply StronglySorted_inv in Hs as [_ Hall].
    apply elem_of_cons in Hb as [->|Hb].
    + destruct (Htotal a a); done.
    + rewrite Forall_forall in Hall. by apply Hall.
Qed.
End SortFacts.

Lemma StronglySorted_weaken {A} (R S : A -> A -> Prop) (l : list A) :
  (∀ a b, R a b → S a b) → StronglySorted R l → StronglySorted S l.
Proof.
  intros HRS. induction 1 as [|a l _ IH Ha]; constructor; [done |].
  eapply Forall_impl; [exact Ha | auto].
Qed.

Lemma position_cmp_consistent : consistent position_cmp.
Proof.
  split.
  - intros a b. unfold position_cmp.
    destruct (section_position a), (section_position b); lia.
  - intros a b c. unfold position_cmp.
    destruct (section_position a), (section_position b), (section_position c); lia.
Qed.

Lemma position_cmp_le (a b : SectionRow) :
  position_cmp a b ≤ 0 ↔ position_le (section_position a) (section_position b).
Proof.
  unfold position_cmp, position_le.
  destruct (section_position a), (section_position b); lia.
Qed.

Lemma wrapper_cmp_consistent :
  consistent (fun a b => wrapper_position a - wrapper_position b).
Proof. split; intros; lia. Qed.

(** ** Queries *)

Lemma findFirst_Some {A} (P : A -> Prop) `{forall a, Decision (P a)} (l : list A) (a : A) :
  findFirst P l = Some a → a ∈ l ∧ P a.
Proof.
  unfold findFirst. intros Hhd.
  assert (a ∈ filter P l) as Hin.
  { destruct (filter P l); [discriminate |]. injection Hhd as ->. left. }
  by apply list_elem_of_filter in Hin as [? ?].
Qed.

Lemma findFirst_None {A} (P : A -> Prop) `{forall a, Decision (P a)} (l : list A) :
  findFirst P l = None ↔ ¬ ∃ a, a ∈ l ∧ P a.
Proof.
  unfold findFirst. split.
  - intros Hhd (a & Hin & Ha).
    assert (a ∈ filter P l) as Hf by (apply list_elem_of_filter; done).
    destruct (filter P l); [by apply elem_of_nil in Hf | discriminate].
  - intros Hno. destruct (filter P l) as [|a l'] eqn:E; [done |].
    exfalso. apply Hno. exists a.
    assert (a ∈ filter P l) as Hf by (rewrite E; left).
    apply list_elem_of_filter in Hf as [? ?]. done.
Qed.

(** The layouts loaded with a board: the board's layouts of the requested
    name, each with its sections in ascending order of position. *)
Lemma getFullBoard_Some (db : DB) (boardName layoutName : string) (board : FullBoard) :
  getFullBoardWithLayoutSectionsAsync db boardName layoutName = Some board →
  findFirst (fun b => board_name b = boardName) (boards db) = Some (fb_board board) ∧
  fb_owner board =
    findFirst (fun u => user_id u = board_ownerId (fb_board board)) (users db) ∧
  Forall (fun fl => ∃ l, l ∈ layouts db ∧
            layout_boardId l = board_id (fb_board board) ∧
            layout_name l = layoutName ∧
            fl_sections fl =
              js_sort position_cmp
                (filter (fun s => section_layoutId s = layout_id l) (sections db)))
         (fb_layouts board).
Proof.
  unfold getFullBoardWithLayoutSectionsAsync. intros H.
  destruct (findFirst _ (boards db)) as [b|] eqn:Hb; [|discriminate].
  simpl in H. injection H as <-. simpl. split; [done |]. split; [done |].
  apply Forall_fmap, Forall_forall. intros l Hl.
  apply list_elem_of_filter in Hl as [[? ?] ?]. simpl. eauto.
Qed.

Lemma getFullBoard_None (db : DB) (boardName layoutName : string) :
  getFullBoardWithLayoutSectionsAsync db boardName layoutName = None ↔
  findFirst (fun b => board_name b = boardName) (boards db) = None.
Proof.
  unfold getFullBoardWithLayoutSectionsAsync.
  destruct (findFirst _ (boards db)); simpl; split; congruence.
Qed.

(** An item loaded with its layout items is the item of that id, and the
    test of [byName] on it looks for a layout item in the section. *)
Lemma inSection_spec (db : DB) (sectionIds : list string) (sectionId itemId : string) (b : bool) :
  sectionId ∈ sectionIds →
  inSection sectionId (itemWithLayouts db sectionIds itemId) = Ok b →
  (b = true ↔ hasLayoutItem db sectionId itemId).
Proof.
  intros Hin H. unfold inSection in H. inv_bind H. apply deref_Ok in Ha.
  unfold itemWithLayouts in Ha.
  destruct (findFirst _ (items db)) as [item|] eqn:Hitem; [|discriminate].
  simpl in Ha. injection Ha as <-. simpl in H. injection H as <-.
  apply findFirst_Some in Hitem as [_ Hid].
  rewrite bool_decide_eq_true. unfold hasLayoutItem. rewrite !Exists_exists.
  split.
  - intros (li & Hli & Hsec). apply list_elem_of_filter in Hli as [[? ?] ?].
    exists li. split; [done |]. split; congruence.
  - intros (li & Hli & Hitm & Hsec). exists li. split; [|done].
    apply list_elem_of_filter. split; [|done]. split; congruence.
Qed.

Lemma mapApp_id (db : DB) (sectionIds : list string) (x : MapApp) (out : AppOut) :
  ma_item x = itemWithLayouts db sectionIds (ma_itemId x) →
  mapApp x = Ok out → ao_id out = ma_itemId x.
Proof.
  intros Hitem H. unfold mapApp in H.
  inv_bind H. inv_bind H. inv_bind H. injection H as <-. simpl.
  apply deref_Ok in Ha, Ha0. rewrite Hitem in Ha. unfold itemWithLayouts in Ha.
  destruct (findFirst _ (items db)) as [item|] eqn:Hi; [|discriminate].
  simpl in Ha. injection Ha as <-. simpl in Ha0.
  apply findFirst_Some in Hi as [_ Hid].
  assert (a0 ∈ filter (fun li => layoutItem_itemId li = item_id item ∧
                                  layoutItem_sectionId li ∈ sectionIds) (layoutItems db)) as Hin.
  { destruct (filter _ (layoutItems db)); [discriminate |]. injection Ha0 as ->. left. }
  apply list_elem_of_filter in Hin as [[? ?] ?]. congruence.
Qed.

Lemma mapApp_integration (x : MapApp) (out : AppOut) (integration : IntegrationOut) :
  mapApp x = Ok out → ao_integration out = Some integration →
  ∃ app stored, ma_app x = Some app ∧ app_integration app = Some stored ∧
    io_secrets integration = mapSecret <$> integration_secrets stored.
Proof.
  intros H Hint. unfold mapApp in H.
  inv_bind H. inv_bind H. inv_bind H. injection H as <-. simpl in Hint.
  apply deref_Ok in Ha1. exists a1.
  destruct (app_integration a1) as [stored|]; [|discriminate].
  simpl in Hint. injection Hint as <-. eauto.
Qed.

Section ByNameFacts.
Variable localeCompare : string -> string -> Z.

Lemma mapWidget_id (db : DB) (sectionIds : list string) (x : MapWidget) (out : WidgetOut) :
  mw_item x = itemWithLayouts db sectionIds (mw_itemId x) →
  mapWidget localeCompare x = Ok out → wo_id out = mw_itemId x.
Proof.
  intros Hitem H. unfold mapWidget in H.
  inv_bind H. inv_bind H. inv_bind H. injection H as <-. simpl.
  apply deref_Ok in Ha, Ha0. rewrite Hitem in Ha. unfold itemWithLayouts in Ha.
  destruct (findFirst _ (items db)) as [item|] eqn:Hi; [|discriminate].
  simpl in Ha. injection Ha as <-. simpl in Ha0.
  apply findFirst_Some in Hi as [_ Hid].
  assert (a0 ∈ filter (fun li => layoutItem_itemId li = item_id item ∧
                                  layoutItem_sectionId li ∈ sectionIds) (layoutItems db)) as Hin.
  { destruct (filter _ (layoutItems db)); [discriminate |]. injection Ha0 as ->. left. }
  apply list_elem_of_filter in Hin as [[? ?] ?]. congruence.
Qed.

(** What a successful [byName] computed, section by section. *)
Lemma byName_Ok (db : DB) (input : ByNameInput) (res : BoardOut) :
  byName localeCompare db input = Ok res →
  ∃ board layout,
    getFullBoardWithLayoutSectionsAsync db (bn_boardName input)
      (default "default" (bn_layout input)) = Some board ∧
    head (fb_layouts board) = Some layout ∧
    bo_id res = board_id (fb_board board) ∧
    let sectionIds := section_id <$> fl_sections layout in
    Forall2 (fun section out =>
        ∃ filteredApps filteredWidgets mappedApps mappedWidgets,
          filterR (fun x => inSection (section_id section) (ma_item x))
                  (getAppsForSectionsAsync db sectionIds) = Ok filteredApps ∧
          filterR (fun x => inSection (section_id section) (mw_item x))
                  (getWidgetsForSectionsAsync db sectionIds) = Ok filteredWidgets ∧
          mapR mapApp filteredApps = Ok mappedApps ∧
          mapR (mapWidget localeCompare) filteredWidgets = Ok mappedWidgets ∧
          out = mapSection section
                  ((ItemApp <$> mappedApps) ++ (ItemWidget <$> mappedWidgets)))
      (fl_sections layout) (bo_sections res).
Proof.
  unfold byName. intros H.
  destruct (getFullBoardWithLayoutSectionsAsync _ _ _) as [board|] eqn:Hboard; [|discriminate].
  destruct (head (fb_layouts board)) as [layout|] eqn:Hlayout; [|discriminate].
  inv_bind H. injection H as <-. simpl.
  exists board, layout. repeat split; try done.
  apply mapR_Ok in Ha. eapply Forall2_impl; [exact Ha |].
  intros section out Hs. simpl in Hs.
  inv_bind Hs. inv_bind Hs. inv_bind Hs. inv_bind Hs. injection Hs as <-.
  eauto 10.
Qed.

Lemma filtered_apps_ids (db : DB) (sectionIds : list string) (sectionId : string)
    (rows : list AppItemRow) (filtered : list MapApp) (mapped : list AppOut) :
  sectionId ∈ sectionIds →
  filterR (fun x => inSection sectionId (ma_item x))
          (withAppAndItem db sectionIds <$> rows) = Ok filtered →
  mapR mapApp filtered = Ok mapped →
  ao_id <$> mapped =
    appItem_itemId <$>
      filter (fun ai => hasLayoutItem db sectionId (appItem_itemId ai)) rows.
Proof.
  intros Hin. revert filtered mapped.
  induction rows as [|ai rows IH]; simpl; intros filtered mapped Hf Hm.
  - injection Hf as <-. injection Hm as <-. done.
  - inv_bind Hf. inv_bind Hf. injection Hf as <-.
    pose proof (inSection_spec _ _ _ _ _ Hin Ha) as Hspec.
    rewrite filter_cons. destruct a.
    + simpl in Hm. inv_bind Hm. inv_bind Hm. injection Hm as <-.
      rewrite decide_True by (by apply Hspec).
      rewrite !fmap_cons. f_equal; [|by eapply IH].
      by apply (mapApp_id db sectionIds) in Ha1.
    + rewrite decide_False by (intros Hh; apply Hspec in Hh; done).
      by eapply IH.
Qed.

Lemma filtered_widgets_ids (db : DB) (sectionIds : list string) (sectionId : string)
    (rows : list WidgetRow) (filtered : list MapWidget) (mapped : list WidgetOut) :
  sectionId ∈ sectionIds →
  filterR (fun x => inSection sectionId (mw_item x))
          (withOptionsAndItem db sectionIds <$> rows) = Ok filtered →
  mapR (mapWidget localeCompare) filtered = Ok mapped →
  wo_id <$> mapped =
    widget_itemId <$>
      filter (fun w => hasLayoutItem db sectionId (widget_itemId w)) rows.
Proof.
  intros Hin. revert filtered mapped.
  induction rows as [|w rows IH]; simpl; intros filtered mapped Hf Hm.
  - injection Hf as <-. injection Hm as <-. done.
  - inv_bind Hf. inv_bind Hf. injection Hf as <-.
    pose proof (inSection_spec _ _ _ _ _ Hin Ha) as Hspec.
    rewrite filter_cons. destruct a.
    + simpl in Hm. inv_bind Hm. inv_bind Hm. injection Hm as <-.
      rewrite decide_True by (by apply Hspec).
      rewrite !fmap_cons. f_equal; [|by eapply IH].
      by apply (mapWidget_id db sectionIds) in Ha1.
    + rewrite decide_False by (intros Hh; apply Hspec in Hh; done).
      by eapply IH.
Qed.

Lemma mapSection_id (section : SectionRow) (items : list ItemOut) :
  sec_id (mapSection section items) = section_id section ∧
  sec_type (mapSection section items) = section_type section ∧
  sec_items (mapSection section items) = items.
Proof. unfold mapSection. repeat case_decide; done. Qed.
End ByNameFacts.

(** *** Only [TypeError]s escape the reshaping code *)

Lemma onlyTypeError_Ok {A} (a : A) : onlyTypeError (Ok a).
Proof. intros e; discriminate. Qed.

Lemma onlyTypeError_Throw {A} : onlyTypeError (@Throw A TypeError).
Proof. intros e; congruence. Qed.

Lemma onlyTypeError_bind {A B} (r : result A) (k : A -> result B) :
  onlyTypeError r → (∀ a, onlyTypeError (k a)) → onlyTypeError (r ≫= k).
Proof.
  intros Hr Hk e H. destruct r as [a|e'].
  - exact (Hk a e H).
  - injection H as <-. exact (Hr e' eq_refl).
Qed.

Lemma onlyTypeError_deref {A} (o : option A) : onlyTypeError (deref o).
Proof. destruct o; [apply onlyTypeError_Ok | apply onlyTypeError_Throw]. Qed.

Lemma onlyTypeError_mapR {A B} (f : A -> result B) (l : list A) :
  (∀ a, onlyTypeError (f a)) → onlyTypeError (mapR f l).
Proof.
  intros Hf. induction l as [|a l IH]; simpl; [apply onlyTypeError_Ok |].
  apply onlyTypeError_bind; [apply Hf | intros b].
  apply onlyTypeError_bind; [apply IH | intros bs; apply onlyTypeError_Ok].
Qed.

Lemma onlyTypeError_filterR {A} (p : A -> result bool) (l : list A) :
  (∀ a, onlyTypeError (p a)) → onlyTypeError (filterR p l).
Proof.
  intros Hp. induction l as [|a l IH]; simpl; [apply onlyTypeError_Ok |].
  apply onlyTypeError_bind; [apply Hp | intros b].
  apply onlyTypeError_bind; [apply IH | intros bs; apply onlyTypeError_Ok].
Qed.

Lemma onlyTypeError_assignAt (pathArray : list string) (lastKey : string)
    (rhs : option value) (current : value) :
  onlyTypeError (assignAt current pathArray lastKey rhs).
Proof.
  revert current. induction pathArray as [|key keys IH]; intros current; simpl.
  - destruct rhs; [|apply onlyTypeError_Ok].
    destruct current; first [apply onlyTypeError_Ok | apply onlyTypeError_Throw].
  - destruct current; try apply IH; try apply onlyTypeError_Throw.
    + destruct (props !! indexKey key);
        (apply onlyTypeError_bind; [apply IH | intros ?; apply onlyTypeError_Ok]).
    + destruct (props !! key);
        (apply onlyTypeError_bind; [apply IH | intros ?; apply onlyTypeError_Ok]).
Qed.

Lemma onlyTypeError_mapOptions (cmp : string -> string -> Z) (options : list MapOption) :
  onlyTypeError (mapOptions cmp options).
Proof.
  unfold mapOptions. generalize (js_sort (fun a b => cmp (path a) (path b)) options).
  intros sorted. assert (onlyTypeError (Ok (VObject ∅))) as H by apply onlyTypeError_Ok.
  revert H. generalize (Ok (VObject ∅)). induction sorted as [|item sorted IH]; intros acc Hacc.
  - exact Hacc.
  - simpl. apply IH, onlyTypeError_bind; [exact Hacc |].
    intros obj. unfold addAtPath. destruct (pop _). apply onlyTypeError_assignAt.
Qed.

Lemma onlyTypeError_sections (cmp : string -> string -> Z) (db : DB)
    (sectionIds : list string) (rows : list SectionRow) :
  onlyTypeError
    (mapR (fun section =>
             filteredApps ← filterR (fun x => inSection (section_id section) (ma_item x))
                              (getAppsForSectionsAsync db sectionIds);
             filteredWidgets ← filterR (fun x => inSection (section_id section) (mw_item x))
                                 (getWidgetsForSectionsAsync db sectionIds);
             mappedApps ← mapR mapApp filteredApps;
             mappedWidgets ← mapR (mapWidget cmp) filteredWidgets;
             Ok (mapSection section
                   ((ItemApp <$> mappedApps) ++ (ItemWidget <$> mappedWidgets))))
          rows).
Proof.
  assert (∀ sid item, onlyTypeError (inSection sid item)) as Hin.
  { intros. apply onlyTypeError_bind; [apply onlyTypeError_deref | intros; apply onlyTypeError_Ok]. }
  apply onlyTypeError_mapR. intros section.
  apply onlyTypeError_bind; [apply onlyTypeError_filterR; intros; apply Hin | intros ?].
  apply onlyTypeError_bind; [apply onlyTypeError_filterR; intros; apply Hin | intros ?].
  apply onlyTypeError_bind.
  { apply onlyTypeError_mapR. intros x. unfold mapApp.
    repeat (apply onlyTypeError_bind; [apply onlyTypeError_deref | intros ?]).
    apply onlyTypeError_Ok. }
  intros ?. apply onlyTypeError_bind; [|intros; apply onlyTypeError_Ok].
  apply onlyTypeError_mapR. intros x. unfold mapWidget.
  repeat (apply onlyTypeError_bind; [apply onlyTypeError_deref | intros ?]).
  apply onlyTypeError_bind; [apply onlyTypeError_mapOptions | intros; apply onlyTypeError_Ok].
Qed.

(** When [byName] throws a tRPC error, the reshaping code is not its source. *)
Lemma byName_Throw (cmp : string -> string -> Z) (db : DB) (input : ByNameInput)
    (message : string) :
  byName cmp db input = Throw (NOT_FOUND message) →
  match getFullBoardWithLayoutSectionsAsync db (bn_boardName input)
          (default "default" (bn_layout input)) with
  | None => message = "Board not found"
  | Some board => fb_layouts board = [] ∧ message = "Layout not found"
  end.
Proof.
  unfold byName, NOT_FOUND. intros H.
  destruct (getFullBoardWithLayoutSectionsAsync _ _ _) as [board|]; [|congruence].
  destruct (fb_layouts board) as [|layout ?]; simpl in H; [split; congruence |].
  exfalso.
  match type of H with ?r ≫= _ = _ => destruct r as [a|e] eqn:E end; [discriminate |].
  simpl in H. apply onlyTypeError_sections in E. congruence.
Qed.

(** *** The response of [byName] *)

(** C5.  The sections of the response follow one layout of the board, the
    first one named as requested (['default'] when no name is given), and
    they come in ascending order of the [position] column of their rows. *)
Theorem byName_sections_ordered (localeCompare : string -> string -> Z)
    (db : DB) (input : ByNameInput) (res : BoardOut) :
  byName localeCompare db input = Ok res →
  ∃ layout rows,
    layout ∈ layouts db ∧
    layout_boardId layout = bo_id res ∧
    layout_name layout = default "default" (bn_layout input) ∧
    rows ≡ₚ filter (fun s => section_layoutId s = layout_id layout) (sections db) ∧
    StronglySorted
      (fun a b => position_le (section_position a) (section_position b)) rows ∧
    Forall2 (fun row out => sec_id out = section_id row ∧ sec_type out = section_type row)
            rows (bo_sections res).
Proof.
  intros H. apply byName_Ok in H as (board & fl & Hboard & Hfl & Hid & Hsections).
  apply getFullBoard_Some in Hboard as (_ & _ & Hlayouts).
  assert (fl ∈ fb_layouts board) as Hin.
  { destruct (fb_layouts board); [discriminate |]. injection Hfl as ->. left. }
  rewrite Forall_forall in Hlayouts.
  destruct (Hlayouts fl Hin) as (layout & Hl & Hb & Hn & Hs).
  exists layout, (fl_sections fl). repeat split; try done.
  - congruence.
  - rewrite Hs. apply js_sort_Permutation.
  - rewrite Hs.
    eapply StronglySorted_weaken; [|apply js_sort_sorted, position_cmp_consistent].
    intros a b. apply position_cmp_le.
  - eapply Forall2_impl; [exact Hsections |].
    intros row out (fApps & fWidgets & mApps & mWidgets & _ & _ & _ & _ & ->).
    pose proof (mapSection_id row
      ((ItemApp <$> mApps) ++ (ItemWidget <$> mWidgets))) as (? & ? & _). done.
Qed.

Lemma byName_sections_ordered_witness :
  ∃ res, byName codeUnitCompare twoLayoutsDb homeInput = Ok res ∧
    sec_id <$> bo_sections res = ["id2"; "s1"; "s9"] ∧
    ∃ layout rows,
      layout ∈ layouts twoLayoutsDb ∧
      layout_boardId layout = bo_id res ∧
      layout_name layout = "default" ∧
      rows ≡ₚ filter (fun s => section_layoutId s = layout_id layout) (sections twoLayoutsDb) ∧
      StronglySorted
        (fun a b => position_le (section_position a) (section_position b)) rows ∧
      Forall2 (fun row out => sec_id out = section_id row ∧ sec_type out = section_type row)
              rows (bo_sections res).
Proof.
  eexists. split; [vm_compute; reflexivity |]. split; [reflexivity |].
  apply (byName_sections_ordered codeUnitCompare twoLayoutsDb homeInput).
  vm_compute. reflexivity.
Defined.

Lemma mapSecret_spec (secret : SecretRow) :
  so_key (mapSecret secret) = secret_key secret ∧
  (secret_visibility secret = "private" → so_value (mapSecret secret) = None) ∧
  (secret_visibility secret ≠ "private" →
   so_value (mapSecret secret) = secret_value secret) ∧
  (so_isDefined (mapSecret secret) = true ↔
     secret_value secret ≠ None ∧ secret_value secret ≠ Some "").
Proof.
  unfold mapSecret.
  case_decide; cbn [so_key so_value so_isDefined];
    (split; [reflexivity |]; split; [tauto |]; split; [tauto |];
     apply bool_decide_eq_true).
Qed.

(** C3.  For an app of the response with an integration, the secrets shown
    are those stored with the app's integration, in order; a private secret
    is shown with value [null], and [isDefined] tells whether the stored
    value is neither [null] nor the empty string. *)
Theorem byName_secrets (localeCompare : string -> string -> Z)
    (db : DB) (input : ByNameInput) (res : BoardOut)
    (section : SectionOut) (app : AppOut) (integration : IntegrationOut) :
  byName localeCompare db input = Ok res →
  section ∈ bo_sections res →
  ItemApp app ∈ sec_items section →
  ao_integration app = Some integration →
  ∃ appRow stored,
    appRow ∈ apps db ∧
    app_integration appRow = Some stored ∧
    Forall2 (fun secret out =>
        so_key out = secret_key secret ∧
        (secret_visibility secret = "private" → so_value out = None) ∧
        (secret_visibility secret ≠ "private" → so_value out = secret_value secret) ∧
        (so_isDefined out = true ↔
           secret_value secret ≠ None ∧ secret_value secret ≠ Some ""))
      (integration_secrets stored) (io_secrets integration).
Proof.
  intros H Hsec Happ Hint.
  apply byName_Ok in H as (board & fl & _ & _ & _ & Hsections). simpl in Hsections.
  apply list_elem_of_lookup in Hsec as [i Hi].
  destruct (Forall2_lookup_r _ _ _ _ _ Hsections Hi)
    as (row & Hrow & fApps & fWidgets & mApps & mWidgets & HfA & _ & HmA & _ & ->).
  destruct (mapSection_id row ((ItemApp <$> mApps) ++ (ItemWidget <$> mWidgets)))
    as (_ & _ & Hitems).
  rewrite Hitems in Happ. apply elem_of_app in Happ as [Happ|Happ].
  2: { apply list_elem_of_fmap in Happ as (? & ? & ?). discriminate. }
  apply list_elem_of_fmap in Happ as (app' & [= <-] & Happ).
  apply mapR_Ok in HmA. apply list_elem_of_lookup in Happ as [j Hj].
  destruct (Forall2_lookup_r _ _ _ _ _ HmA Hj) as (x & Hx & Hmap).
  destruct (mapApp_integration _ _ _ Hmap Hint) as (appRow & stored & Happrow & Hstored & Hsecrets).
  exists appRow, stored. split; [|split; [done |]].
  - apply filterR_Ok in HfA as [_ ->]. apply list_elem_of_lookup_2 in Hx.
    apply list_elem_of_filter in Hx as [_ Hx].
    unfold getAppsForSectionsAsync in Hx.
    destruct (section_id <$> fl_sections fl); [by apply elem_of_nil in Hx |].
    apply list_elem_of_fmap in Hx as (ai & -> & _). simpl in Happrow.
    by apply findFirst_Some in Happrow as [? _].
  - rewrite Hsecrets. apply Forall2_fmap_r, Forall_Forall2_diag, Forall_forall.
    intros secret _. apply mapSecret_spec.
Qed.

Lemma byName_secrets_witness :
  ∃ res section app integration,
    byName codeUnitCompare (withSecrets homeDb) homeInput = Ok res ∧
    bo_sections res !! 0%nat = Some section ∧
    sec_items section !! 0%nat = Some (ItemApp app) ∧
    ao_integration app = Some integration ∧
    so_value <$> io_secrets integration = [None; Some ""] ∧
    so_isDefined <$> io_secrets integration = [true; false] ∧
    ∃ appRow stored,
      appRow ∈ apps (withSecrets homeDb) ∧
      app_integration appRow = Some stored ∧
      Forall2 (fun secret out =>
          so_key out = secret_key secret ∧
          (secret_visibility secret = "private" → so_value out = None) ∧
          (secret_visibility secret ≠ "private" → so_value out = secret_value secret) ∧
          (so_isDefined out = true ↔
             secret_value secret ≠ None ∧ secret_value secret ≠ Some ""))
        (integration_secrets stored) (io_secrets integration).
Proof.
  do 4 eexists.
  split; [vm_compute; reflexivity |]. split; [reflexivity |]. split; [reflexivity |].
  split; [reflexivity |]. split; [reflexivity |]. split; [reflexivity |].
  eapply (byName_secrets codeUnitCompare (withSecrets homeDb) homeInput).
  - vm_compute. reflexivity.
  - apply list_elem_of_lookup_2 with 0%nat. reflexivity.
  - apply list_elem_of_lookup_2 with 0%nat. reflexivity.
  - reflexivity.
Defined.

(** *** When [byName] returns *)

Lemma findFirst_is_Some {A} (P : A -> Prop) `{forall a, Decision (P a)} (l : list A) (a : A) :
  a ∈ l → P a → ∃ b, findFirst P l = Some b.
Proof.
  intros Hin Ha. destruct (findFirst P l) as [b|] eqn:E; [eauto |].
  exfalso. apply findFirst_None in E. eauto.
Qed.

Lemma filterR_total {A} (p : A -> result bool) (l : list A) :
  Forall (fun a => ∃ b, p a = Ok b) l → ∃ l', filterR p l = Ok l'.
Proof.
  induction 1 as [|a l [b Hb] _ [l' Hl']]; simpl.
  - eauto.
  - rewrite Hb. simpl. rewrite Hl'. simpl. eauto.
Qed.

Lemma inSection_total (db : DB) (sectionIds : list string) (sectionId itemId : string)
    (item : ItemRow) :
  item ∈ items db → item_id item = itemId →
  ∃ b, inSection sectionId (itemWithLayouts db sectionIds itemId) = Ok b.
Proof.
  intros Hin Hid. unfold inSection, itemWithLayouts.
  destruct (findFirst_is_Some (fun i => item_id i = itemId) _ _ Hin Hid) as [i ->].
  simpl. eauto.
Qed.

(** A loaded item that passed the test of [byName] has a first layout item. *)
Lemma inSection_true_head (sectionId : string) (item : option ItemWithLayouts) :
  inSection sectionId item = Ok true →
  ∃ i li, item = Some i ∧ head (iwl_layouts i) = Some li.
Proof.
  unfold inSection. intros H. inv_bind H. apply deref_Ok in Ha. injection H as H.
  apply bool_decide_eq_true in H. apply Exists_exists in H as (li & Hli & _).
  exists a. destruct (iwl_layouts a) as [|li' ?]; [by apply elem_of_nil in Hli |].
  simpl. eauto.
Qed.

(** [byName] returns a board whenever the board and the layout exist, every
    [appItems] row refers to an item and an app, every widget refers to an
    item, and the options of every widget can be rebuilt. *)
Lemma byName_returns (localeCompare : string -> string -> Z) (db : DB) (input : ByNameInput)
    (board : BoardRow) (layout : LayoutRow) :
  findFirst (fun b => board_name b = bn_boardName input) (boards db) = Some board →
  layout ∈ layouts db →
  layout_boardId layout = board_id board →
  layout_name layout = default "default" (bn_layout input) →
  (∀ ai, ai ∈ appItems db →
     (∃ i, i ∈ items db ∧ item_id i = appItem_itemId ai) ∧
     (∃ a, a ∈ apps db ∧ app_id a = appItem_appId ai)) →
  (∀ w, w ∈ widgets db →
     (∃ i, i ∈ items db ∧ item_id i = widget_itemId w) ∧
     (∃ o, mapOptions localeCompare (widget_options w) = Ok o)) →
  ∃ res, byName localeCompare db input = Ok res.
Proof.
  intros Hboard Hlayout Hlb Hln Happs Hwidgets.
  unfold byName, getFullBoardWithLayoutSectionsAsync. rewrite Hboard. simpl.
  assert (layout ∈ filter (fun l => layout_boardId l = board_id board ∧
                                    layout_name l = default "default" (bn_layout input))
                          (layouts db)) as Hin by (by apply list_elem_of_filter).
  destruct (filter _ (layouts db)) as [|l ls]; [by apply elem_of_nil in Hin |]. simpl.
  set (rows := js_sort position_cmp _).
  destruct (mapR_total
    (fun section =>
       filteredApps ← filterR (fun x => inSection (section_id section) (ma_item x))
                        (getAppsForSectionsAsync db (section_id <$> rows));
       filteredWidgets ← filterR (fun x => inSection (section_id section) (mw_item x))
                           (getWidgetsForSectionsAsync db (section_id <$> rows));
       mappedApps ← mapR mapApp filteredApps;
       mappedWidgets ← mapR (mapWidget localeCompare) filteredWidgets;
       Ok (mapSection section ((ItemApp <$> mappedApps) ++ (ItemWidget <$> mappedWidgets))))
    rows) as [prepared Hprepared]; [|rewrite Hprepared; simpl; eauto].
  apply Forall_forall. intros section Hsection.
  unfold getAppsForSectionsAsync, getWidgetsForSectionsAsync.
  destruct (section_id <$> rows) as [|sid sids] eqn:Hids.
  { apply fmap_nil_inv in Hids. rewrite Hids in Hsection. by apply elem_of_nil in Hsection. }
  destruct (filterR_total (fun x => inSection (section_id section) (ma_item x))
              (withAppAndItem db (sid :: sids) <$> appItems db)) as [fApps HfApps].
  { apply Forall_fmap, Forall_forall. intros ai Hai.
    destruct (Happs ai Hai) as [(i & Hi & Hid) _]. by eapply inSection_total. }
  destruct (filterR_total (fun x => inSection (section_id section) (mw_item x))
              (withOptionsAndItem db (sid :: sids) <$> widgets db)) as [fWidgets HfWidgets].
  { apply Forall_fmap, Forall_forall. intros w Hw.
    destruct (Hwidgets w Hw) as [(i & Hi & Hid) _]. by eapply inSection_total. }
  rewrite HfApps, HfWidgets. simpl.
  apply filterR_Ok in HfApps as [_ ->]. apply filterR_Ok in HfWidgets as [_ ->].
  destruct (mapR_total mapApp
    (filter (fun x => inSection (section_id section) (ma_item x) = Ok true)
            (withAppAndItem db (sid :: sids) <$> appItems db))) as [mApps ->].
  { apply Forall_forall. intros x Hx. apply list_elem_of_filter in Hx as [Htrue Hx].
    apply list_elem_of_fmap in Hx as (ai & -> & Hai).
    destruct (inSection_true_head _ _ Htrue) as (i & li & Hi & Hli).
    destruct (Happs ai Hai) as [_ (a & Ha & Hid)].
    destruct (findFirst_is_Some (fun a => app_id a = appItem_appId ai) _ _ Ha Hid) as [a' Ha'].
    unfold mapApp. rewrite Hi. simpl. rewrite Hli. simpl in *. rewrite Ha'. simpl. eauto. }
  destruct (mapR_total (mapWidget localeCompare)
    (filter (fun x => inSection (section_id section) (mw_item x) = Ok true)
            (withOptionsAndItem db (sid :: sids) <$> widgets db))) as [mWidgets ->].
  { apply Forall_forall. intros x Hx. apply list_elem_of_filter in Hx as [Htrue Hx].
    apply list_elem_of_fmap in Hx as (w & -> & Hw).
    destruct (inSection_true_head _ _ Htrue) as (i & li & Hi & Hli).
    destruct (Hwidgets w Hw) as [_ (o & Ho)].
    unfold mapWidget. rewrite Hi. simpl. rewrite Hli. simpl in *. rewrite Ho. simpl. eauto. }
  simpl. eauto.
Qed.

(** *** The sections of the response and their items *)

Lemma mapApp_shows (db : DB) (sectionIds : list string) (ai : AppItemRow) (out : AppOut) :
  mapApp (withAppAndItem db sectionIds ai) = Ok out → showsApp db ai out.
Proof.
  intros H. split; [by apply (mapApp_id db sectionIds) in H |].
  unfold mapApp in H. inv_bind H. inv_bind H. inv_bind H. injection H as <-.
  apply deref_Ok in Ha1. simpl in Ha1. exists a1. simpl. done.
Qed.

Lemma mapWidget_shows (localeCompare : string -> string -> Z) (db : DB)
    (sectionIds : list string) (w : WidgetRow) (out : WidgetOut) :
  mapWidget localeCompare (withOptionsAndItem db sectionIds w) = Ok out →
  showsWidget localeCompare w out.
Proof.
  intros H. split; [by apply (mapWidget_id localeCompare db sectionIds) in H |].
  unfold mapWidget in H. inv_bind H. inv_bind H. inv_bind H. injection H as <-.
  simpl. done.
Qed.

Lemma filtered_apps_shown (db : DB) (sectionIds : list string) (sectionId : string)
    (rows : list AppItemRow) (filtered : list MapApp) (mapped : list AppOut) :
  sectionId ∈ sectionIds →
  filterR (fun x => inSection sectionId (ma_item x))
          (withAppAndItem db sectionIds <$> rows) = Ok filtered →
  mapR mapApp filtered = Ok mapped →
  Forall2 (showsApp db)
    (filter (fun ai => hasLayoutItem db sectionId (appItem_itemId ai)) rows) mapped.
Proof.
  intros Hin. revert filtered mapped.
  induction rows as [|ai rows IH]; simpl; intros filtered mapped Hf Hm.
  - injection Hf as <-. injection Hm as <-. constructor.
  - inv_bind Hf. inv_bind Hf. injection Hf as <-.
    pose proof (inSection_spec _ _ _ _ _ Hin Ha) as Hspec.
    rewrite filter_cons. destruct a.
    + simpl in Hm. inv_bind Hm. inv_bind Hm. injection Hm as <-.
      rewrite decide_True by (by apply Hspec).
      constructor; [by eapply mapApp_shows | by eapply IH].
    + rewrite decide_False by (intros Hh; apply Hspec in Hh; done).
      by eapply IH.
Qed.

Lemma filtered_widgets_shown (localeCompare : string -> string -> Z) (db : DB)
    (sectionIds : list string) (sectionId : string)
    (rows : list WidgetRow) (filtered : list MapWidget) (mapped : list WidgetOut) :
  sectionId ∈ sectionIds →
  filterR (fun x => inSection sectionId (mw_item x))
          (withOptionsAndItem db sectionIds <$> rows) = Ok filtered →
  mapR (mapWidget localeCompare) filtered = Ok mapped →
  Forall2 (showsWidget localeCompare)
    (filter (fun w => hasLayoutItem db sectionId (widget_itemId w)) rows) mapped.
Proof.
  intros Hin. revert filtered mapped.
  induction rows as [|w rows IH]; simpl; intros filtered mapped Hf Hm.
  - injection Hf as <-. injection Hm as <-. constructor.
  - inv_bind Hf. inv_bind Hf. injection Hf as <-.
    pose proof (inSection_spec _ _ _ _ _ Hin Ha) as Hspec.
    rewrite filter_cons. destruct a.
    + simpl in Hm. inv_bind Hm. inv_bind Hm. injection Hm as <-.
      rewrite decide_True by (by apply Hspec).
      constructor; [by eapply mapWidget_shows | by eapply IH].
    + rewrite decide_False by (intros Hh; apply Hspec in Hh; done).
      by eapply IH.
Qed.

(** C2.  The response of [byName] has one section for every section of the
    chosen layout, in ascending order of position, and the items of each are
    the apps, then the widgets, whose item has a layout item in that section:
    one app for every such [appItems] row and one widget for every such
    [widgets] row, each kind in table order, with the id of the item and the
    columns of the app or widget.  [byName] returns such a response whenever
    the board and the layout exist, every [appItems] row refers to a stored
    item and app, and every widget refers to a stored item and has options
    that [mapOptions] rebuilds. *)
Theorem byName_section_items (localeCompare : string -> string -> Z)
    (db : DB) (input : ByNameInput) :
  (∀ res, byName localeCompare db input = Ok res →
     ∃ board layout rows,
       findFirst (fun b => board_name b = bn_boardName input) (boards db) = Some board ∧
       findFirst (fun l => layout_boardId l = board_id board ∧
                           layout_name l = default "default" (bn_layout input))
                 (layouts db) = Some layout ∧
       rows ≡ₚ filter (fun s => section_layoutId s = layout_id layout) (sections db) ∧
       StronglySorted
         (fun a b => position_le (section_position a) (section_position b)) rows ∧
       Forall2 (assembles localeCompare db) rows (bo_sections res)) ∧
  (∀ board layout,
     findFirst (fun b => board_name b = bn_boardName input) (boards db) = Some board →
     layout ∈ layouts db →
     layout_boardId layout = board_id board →
     layout_name layout = default "default" (bn_layout input) →
     (∀ ai, ai ∈ appItems db →
        (∃ i, i ∈ items db ∧ item_id i = appItem_itemId ai) ∧
        (∃ a, a ∈ apps db ∧ app_id a = appItem_appId ai)) →
     (∀ w, w ∈ widgets db →
        (∃ i, i ∈ items db ∧ item_id i = widget_itemId w) ∧
        (∃ o, mapOptions localeCompare (widget_options w) = Ok o)) →
     ∃ res, byName localeCompare db input = Ok res).
Proof.
  split; [|apply byName_returns].
  intros res H. apply byName_Ok in H as (board & fl & Hboard & Hfl & _ & Hsections).
  simpl in Hsections.
  unfold getFullBoardWithLayoutSectionsAsync in Hboard.
  destruct (findFirst _ (boards db)) as [b|] eqn:Hb; [|discriminate].
  simpl in Hboard. injection Hboard as <-. simpl in Hfl.
  destruct (filter (fun l => layout_boardId l = board_id b ∧
                             layout_name l = default "default" (bn_layout input))
                   (layouts db)) as [|layout others] eqn:Hlayouts; [discriminate |].
  simpl in Hfl. injection Hfl as <-. simpl in Hsections.
  exists b, layout, (js_sort position_cmp
                       (filter (fun s => section_layoutId s = layout_id layout)
                               (sections db))).
  split; [done |]. split; [unfold findFirst; by rewrite Hlayouts |].
  split; [apply js_sort_Permutation |]. split.
  { eapply StronglySorted_weaken; [|apply js_sort_sorted, position_cmp_consistent].
    intros x y. apply position_cmp_le. }
  set (rows := js_sort position_cmp _) in *.
  apply Forall2_same_length_lookup_2; [by eapply Forall2_length |].
  intros i row section Hrow Hsection.
  destruct (Forall2_lookup_l _ _ _ _ _ Hsections Hrow)
    as (section' & Hsection' & fApps & fWidgets & mApps & mWidgets
        & HfA & HfW & HmA & HmW & Heq).
  rewrite Hsection in Hsection'. injection Hsection' as <-. subst section.
  apply list_elem_of_lookup_2 in Hrow.
  assert (section_id row ∈ section_id <$> rows) as Hids
    by (by apply list_elem_of_fmap_2).
  destruct (mapSection_id row ((ItemApp <$> mApps) ++ (ItemWidget <$> mWidgets)))
    as (Hid & Htype & Hitems).
  split; [done |]. split; [done |].
  exists mApps, mWidgets. split; [done |].
  unfold getAppsForSectionsAsync in HfA. unfold getWidgetsForSectionsAsync in HfW.
  destruct (section_id <$> rows) as [|sid0 sids] eqn:E;
    [by apply elem_of_nil in Hids |].
  split.
  - by eapply filtered_apps_shown.
  - by eapply filtered_widgets_shown.
Qed.

Lemma byName_section_items_witness :
  ∃ res, byName codeUnitCompare twoLayoutsDb homeInput = Ok res ∧
    (fun section => (sec_id section, itemOutId <$> sec_items section)) <$> bo_sections res
      = [ ("id2", ["id3"; "id6"; "id9"; "id12"; "id15"; "id18"; "id21"; "id24"]);
          ("s1", []);
          ("s9", ["id15"]) ] ∧
    ∃ board layout rows,
      findFirst (fun b => board_name b = bn_boardName homeInput) (boards twoLayoutsDb)
        = Some board ∧
      findFirst (fun l => layout_boardId l = board_id board ∧
                          layout_name l = default "default" (bn_layout homeInput))
                (layouts twoLayoutsDb) = Some layout ∧
      rows ≡ₚ filter (fun s => section_layoutId s = layout_id layout)
                     (sections twoLayoutsDb) ∧
      StronglySorted
        (fun a b => position_le (section_position a) (section_position b)) rows ∧
      Forall2 (assembles codeUnitCompare twoLayoutsDb) rows (bo_sections res).
Proof.
  eexists. split; [vm_compute; reflexivity |]. split; [reflexivity |].
  apply (proj1 (byName_section_items codeUnitCompare twoLayoutsDb homeInput)).
  vm_compute. reflexivity.
Defined.

(** ** [updateCustomization] *)

Lemma update_lookup {A} (P : A -> Prop) `{forall a, Decision (P a)} (set : A -> A)
    (table : list A) (i : nat) :
  update P set table !! i =
    (fun row => if decide (P row) then set row else row) <$> table !! i.
Proof. unfold update. apply list_lookup_fmap. Qed.

Lemma findFirst_update {A} (P Q : A -> Prop) `{forall a, Decision (P a)}
    `{forall a, Decision (Q a)} (set : A -> A) (table : list A) (a : A) :
  (∀ row, P (set row) ↔ P row) →
  findFirst P table = Some a →
  findFirst P (update Q set table) = Some (if decide (Q a) then set a else a).
Proof.
  intros Hset. unfold findFirst, update.
  induction table as [|row table IH]; [discriminate |].
  rewrite fmap_cons, !filter_cons.
  destruct (decide (P row)) as [Hrow|Hrow].
  - intros [= ->]. rewrite decide_True; [done |].
    destruct (decide (Q a)); [by apply Hset | done].
  - intros Hfind. rewrite decide_False; [by apply IH |].
    destruct (decide (Q row)); [by rewrite Hset | done].
Qed.

(** C6.  [updateCustomization] leaves every table but [boards] alone; in
    [boards] it keeps the number and order of rows, and the [id], [name] and
    [ownerId] of every row, and it leaves every row whose [id] is not the
    board's exactly as it was. *)
Theorem updateCustomization_frame (db db' : DB) (boardName : string)
    (customization : CustomizationInput) (dbBoard : BoardRow) :
  updateCustomization db boardName customization = Ok (db', dbBoard) →
  (users db', layouts db', sections db', items db') =
    (users db, layouts db, sections db, items db) ∧
  (apps db', appItems db', widgets db', layoutItems db') =
    (apps db, appItems db, widgets db, layoutItems db) ∧
  length (boards db') = length (boards db) ∧
  ∀ i row, boards db !! i = Some row →
    ∃ row', boards db' !! i = Some row' ∧
      board_id row' = board_id row ∧
      board_name row' = board_name row ∧
      board_ownerId row' = board_ownerId row ∧
      (board_id row ≠ board_id dbBoard → row' = row) ∧
      (board_id row = board_id dbBoard → row' = setCustomization customization row).
Proof.
  unfold updateCustomization. intros H.
  destruct (findFirst _ (boards db)) as [b|]; [|discriminate].
  injection H as <- <-. simpl.
  split; [done |]. split; [done |]. split; [unfold update; by rewrite length_fmap |].
  intros i row Hrow. rewrite update_lookup, Hrow. simpl.
  eexists. split; [reflexivity |]. case_decide; simpl; repeat split; done.
Qed.

Lemma updateCustomization_frame_witness :
  ∃ db' dbBoard,
    updateCustomization twoBoards "work" someCustomization = Ok (db', dbBoard) ∧
    boards db' !! 0%nat = boards twoBoards !! 0%nat ∧
    (users db', layouts db', sections db', items db') =
      (users twoBoards, layouts twoBoards, sections twoBoards, items twoBoards) ∧
    (apps db', appItems db', widgets db', layoutItems db') =
      (apps twoBoards, appItems twoBoards, widgets twoBoards, layoutItems twoBoards) ∧
    length (boards db') = length (boards twoBoards) ∧
    ∀ i row, boards twoBoards !! i = Some row →
      ∃ row', boards db' !! i = Some row' ∧
        board_id row' = board_id row ∧
        board_name row' = board_name row ∧
        board_ownerId row' = board_ownerId row ∧
        (board_id row ≠ board_id dbBoard → row' = row) ∧
        (board_id row = board_id dbBoard → row' = setCustomization someCustomization row).
Proof.
  do 2 eexists. split; [reflexivity |]. split; [reflexivity |].
  apply (updateCustomization_frame twoBoards _ "work" someCustomization).
  reflexivity.
Defined.

(** C9.  [updateCustomization] returns the row it read before the update:
    the row [byNameSimple] finds in the database as it was, while in the
    database as it is afterwards the same query finds that row with the new
    customization. *)
Theorem updateCustomization_returns_read_row (db db' : DB) (boardName : string)
    (customization : CustomizationInput) (dbBoard : BoardRow) :
  updateCustomization db boardName customization = Ok (db', dbBoard) →
  byNameSimple db boardName = Ok dbBoard ∧
  byNameSimple db' boardName = Ok (setCustomization customization dbBoard).
Proof.
  unfold updateCustomization, byNameSimple. intros H.
  destruct (findFirst _ (boards db)) as [b|] eqn:Hb; [|discriminate].
  injection H as <- <-. split; [done |]. simpl.
  erewrite findFirst_update; [|done | exact Hb].
  by rewrite decide_True.
Qed.

Lemma updateCustomization_returns_read_row_witness :
  ∃ db' dbBoard,
    updateCustomization twoBoards "work" someCustomization = Ok (db', dbBoard) ∧
    board_customization dbBoard = noCustomization ∧
    board_customization dbBoard ≠ board_customization (setCustomization someCustomization dbBoard) ∧
    byNameSimple twoBoards "work" = Ok dbBoard ∧
    byNameSimple db' "work" = Ok (setCustomization someCustomization dbBoard).
Proof.
  do 2 eexists. split; [reflexivity |]. split; [reflexivity |]. split; [discriminate |].
  apply (updateCustomization_returns_read_row twoBoards _ "work" someCustomization).
  reflexivity.
Defined.

(** ** [exampleBoard] *)

(** C8.  [exampleBoard] draws the ids of the board, its layout and its
    section, then appends: one board row of the given name owned by the
    session user; one layout ['default'] of that board; one section of type
    ['empty'] at position 0 in that layout; four apps (Contribute, Discord,
    Donate, Documentation) and four widgets (weather, date, date, notebook),
    each with an item of the board and a layout item in that section.
    Nothing else changes. *)
Theorem exampleBoard_inserts (uuid : nat -> string) (defaults : Customization)
    (sessionUserId boardName : string) (w : World) :
  let w' := exampleBoard uuid defaults sessionUserId boardName w in
  let boardId := uuid (drawn w) in
  let layoutId := uuid (S (drawn w)) in
  let sectionId := uuid (S (S (drawn w))) in
  users (db w') = users (db w) ∧
  boards (db w') =
    boards (db w) ++ [ {| board_id := boardId; board_name := boardName;
                          board_ownerId := sessionUserId;
                          board_customization := defaults |} ] ∧
  layouts (db w') =
    layouts (db w) ++ [ {| layout_id := layoutId; layout_name := "default";
                           layout_boardId := boardId |} ] ∧
  sections (db w') =
    sections (db w) ++ [ {| section_id := sectionId; section_layoutId := layoutId;
                            section_type := "empty"; section_name := None;
                            section_position := Some 0 |} ] ∧
  ∃ newItems newApps newAppItems newWidgets newLayoutItems,
    items (db w') = items (db w) ++ newItems ∧
    apps (db w') = apps (db w) ++ newApps ∧
    appItems (db w') = appItems (db w) ++ newAppItems ∧
    widgets (db w') = widgets (db w) ++ newWidgets ∧
    layoutItems (db w') = layoutItems (db w) ++ newLayoutItems ∧
    app_name <$> newApps = ["Contribute"; "Discord"; "Donate"; "Documentation"] ∧
    widget_type <$> newWidgets = ["weather"; "date"; "date"; "notebook"] ∧
    item_type <$> newItems =
      ["app"; "app"; "app"; "app"; "widget"; "widget"; "widget"; "widget"] ∧
    Forall (fun i => item_boardId i = boardId) newItems ∧
    appItem_appId <$> newAppItems = app_id <$> newApps ∧
    appItem_itemId <$> newAppItems = take 4 (item_id <$> newItems) ∧
    widget_itemId <$> newWidgets = drop 4 (item_id <$> newItems) ∧
    layoutItem_itemId <$> newLayoutItems = item_id <$> newItems ∧
    Forall (fun li => layoutItem_sectionId li = sectionId) newLayoutItems.
Proof.
  destruct w as [d n]. cbn -[take drop].
  rewrite <- !app_assoc. cbn -[take drop].
  repeat split.
  do 5 eexists. repeat split; try reflexivity.
  - repeat constructor.
  - repeat constructor.
Qed.

(** ** [addAppsForContainers] *)

Section AddAppsFacts.
Variable generateDefaultApp : string -> nat -> ConfigApp.

Lemma containerApps_Ok (wrapper : Wrapper) (containers : list Container) (f : nat -> nat) :
  ∃ newApps,
    mapR (fun '(i, container) => containerApp generateDefaultApp (Some wrapper) i container)
         (imap (fun i c => (f i, c)) containers) = Ok newApps ∧
    length newApps = length containers ∧
    ∀ i container, containers !! i = Some container →
      newApps !! i =
        Some {| ca_name := container_name container;
                ca_url := address container;
                ca_behaviour :=
                  {| externalUrl := address container;
                     behaviour_rest :=
                       behaviour_rest
                         (ca_behaviour (generateDefaultApp (wrapper_id wrapper) (f i))) |};
                ca_rest := ca_rest (generateDefaultApp (wrapper_id wrapper) (f i)) |}.
Proof.
  revert f. induction containers as [|c containers IH]; intros f.
  - exists []. repeat split. intros i ?. by rewrite lookup_nil.
  - destruct (IH (f ∘ S)) as (newApps & Hmap & Hlen & Hnth).
    change (imap (fun i c => (f i, c)) (c :: containers))
      with ((f 0%nat, c) :: imap (fun i c => ((f ∘ S) i, c)) containers).
    cbn [mapR]. rewrite Hmap. simpl.
    eexists. split; [reflexivity |]. split; [simpl; by rewrite Hlen |].
    intros [|i] container Hc; simpl in *.
    + by injection Hc as ->.
    + by apply Hnth.
Qed.

Lemma containerApps_Throw (containers : list Container) (f : nat -> nat) :
  containers ≠ [] →
  mapR (fun '(i, container) => containerApp generateDefaultApp None i container)
       (imap (fun i c => (f i, c)) containers) = Throw TypeError.
Proof. destruct containers; [done | reflexivity]. Qed.

Lemma addAppsForContainers_missing (configs : gmap string Config) (boardName : string)
    (containers : list Container) :
  configs !! boardName = None →
  addAppsForContainers generateDefaultApp configs boardName containers =
    Throw (NOT_FOUND "Board not found").
Proof.
  intros Hnone. unfold addAppsForContainers, configExists.
  rewrite bool_decide_eq_false_2; [done |]. rewrite Hnone. by intros [? ?].
Qed.

Lemma addAppsForContainers_existing (configs : gmap string Config) (boardName : string)
    (containers : list Container) (config : Config) :
  configs !! boardName = Some config →
  addAppsForContainers generateDefaultApp configs boardName containers =
    let wrappers :=
      js_sort (fun a b => wrapper_position a - wrapper_position b) (cfg_wrappers config) in
    newApps ← mapR (fun '(i, container) =>
                      containerApp generateDefaultApp (head wrappers) i container)
                   (imap pair containers);
    Ok (<[boardName := {| cfg_apps := cfg_apps config ++ newApps;
                          cfg_wrappers := wrappers;
                          cfg_rest := cfg_rest config |}]> configs).
Proof.
  intros Hsome. unfold addAppsForContainers, configExists, getConfig.
  rewrite bool_decide_eq_true_2 by (by rewrite Hsome).
  rewrite Hsome. reflexivity.
Qed.

Lemma address_spec (container : Container) :
  address container =
    match container_port container with
    | Some port =>
        if decide (port = 0) then "http://localhost"
        else "http://localhost:" +:+ pretty port
    | None => "http://localhost"
    end.
Proof.
  unfold address. destruct (container_port container) as [port|]; [|done].
  destruct (Z.eqb_spec port 0); case_decide; done.
Qed.
End AddAppsFacts.

(** C7, as amended.  When the named config exists and has a wrapper (or no
    container is given), and the ports given are integers of magnitude below
    2^53, the file of that name is replaced by a config with the same
    remaining fields, the same wrappers up to their order, and the old apps
    followed by one app per container, in order; the app has the container's
    name, and its [url] and [behaviour.externalUrl] are both
    ['http://localhost:<port>'], with the port in decimal, when the container
    has a port other than 0 and ['http://localhost'] otherwise. *)
Theorem addAppsForContainers_appends (generateDefaultApp : string -> nat -> ConfigApp)
    (configs : gmap string Config) (boardName : string) (containers : list Container)
    (config : Config) :
  configs !! boardName = Some config →
  cfg_wrappers config ≠ [] ∨ containers = [] →
  Forall safePort containers →
  ∃ newConfig newApps,
    addAppsForContainers generateDefaultApp configs boardName containers =
      Ok (<[boardName := newConfig]> configs) ∧
    cfg_rest newConfig = cfg_rest config ∧
    cfg_wrappers newConfig ≡ₚ cfg_wrappers config ∧
    cfg_apps newConfig = cfg_apps config ++ newApps ∧
    Forall2 (fun container app =>
        ca_name app = container_name container ∧
        externalUrl (ca_behaviour app) = ca_url app ∧
        ca_url app =
          match container_port container with
          | Some port =>
              if decide (port = 0) then "http://localhost"
              else "http://localhost:" +:+ pretty port
          | None => "http://localhost"
          end)
      containers newApps.
Proof.
  intros Hsome Hpre _. rewrite (addAppsForContainers_existing _ _ _ _ _ Hsome). simpl.
  destruct (head (js_sort _ (cfg_wrappers config))) as [lowest|] eqn:Hhead.
  - destruct (containerApps_Ok generateDefaultApp lowest containers id)
      as (newApps & Hmap & Hlen & Hnth).
    change (imap (fun i c => (id i, c)) containers) with (imap pair containers) in Hmap.
    rewrite Hmap. simpl. eexists _, newApps. split; [reflexivity |]. simpl.
    split; [done |]. split; [apply js_sort_Permutation |]. split; [done |].
    apply Forall2_same_length_lookup. split; [done |].
    intros i container app Hc Happ. rewrite (Hnth _ _ Hc) in Happ.
    injection Happ as <-. simpl. by rewrite <- address_spec.
  - destruct Hpre as [Hw | ->].
    + exfalso. apply Hw. eapply js_sort_nil_inv.
      destruct (js_sort _ (cfg_wrappers config)) eqn:E; [exact E | discriminate].
    + simpl. eexists _, []. split; [reflexivity |]. simpl.
      split; [done |]. split; [apply js_sort_Permutation |]. split; [done | constructor].
Qed.

Lemma addAppsForContainers_appends_witness :
  ∃ newConfig newApps,
    addAppsForContainers defaultApp {[ "home" := someConfig twoWrappers ]} "home"
      [ {| container_name := "plex"; container_port := Some 32400 |};
        {| container_name := "pihole"; container_port := None |} ] =
      Ok (<["home" := newConfig]> {[ "home" := someConfig twoWrappers ]}) ∧
    cfg_rest newConfig = cfg_rest (someConfig twoWrappers) ∧
    cfg_wrappers newConfig ≡ₚ twoWrappers ∧
    cfg_apps newConfig = [] ++ newApps ∧
    Forall2 (fun container app =>
        ca_name app = container_name container ∧
        externalUrl (ca_behaviour app) = ca_url app ∧
        ca_url app =
          match container_port container with
          | Some port =>
              if decide (port = 0) then "http://localhost"
              else "http://localhost:" +:+ pretty port
          | None => "http://localhost"
          end)
      [ {| container_name := "plex"; container_port := Some 32400 |};
        {| container_name := "pihole"; container_port := None |} ] newApps.
Proof.
  apply (addAppsForContainers_appends defaultApp {[ "home" := someConfig twoWrappers ]}
           "home" _ (someConfig twoWrappers)).
  - reflexivity.
  - left. discriminate.
  - apply Forall_cons. split; [intros port [= <-]; split; reflexivity |].
    apply Forall_cons. split; [intros port [=] | constructor].
Defined.

(** C7 as stated fails in three ways: the wrappers of the written config
    are sorted by position, so their order can differ from the old one; a
    container with port 0 gets ['http://localhost']; and with no wrapper and
    a container, nothing is written. *)
Lemma addAppsForContainers_counterexample :
  addAppsForContainers defaultApp {[ "home" := someConfig twoWrappers ]} "home" [] =
    Ok {[ "home" := {| cfg_apps := [];
                        cfg_wrappers := [ {| wrapper_id := "w1"; wrapper_position := 1 |};
                                          {| wrapper_id := "w2"; wrapper_position := 2 |} ];
                        cfg_rest := cfg_rest (someConfig twoWrappers) |} ]} ∧
  cfg_wrappers (someConfig twoWrappers) =
    [ {| wrapper_id := "w2"; wrapper_position := 2 |};
      {| wrapper_id := "w1"; wrapper_position := 1 |} ] ∧
  (addAppsForContainers defaultApp {[ "home" := someConfig twoWrappers ]} "home"
     [ {| container_name := "c"; container_port := Some 0 |} ]
   ≫= fun configs => config ← deref (configs !! "home"); Ok (cfg_apps config)) =
    Ok [ {| ca_name := "c"; ca_url := "http://localhost";
            ca_behaviour := {| externalUrl := "http://localhost";
                               behaviour_rest := behaviour_rest (ca_behaviour (defaultApp "w1" 0)) |};
            ca_rest := ca_rest (defaultApp "w1" 0) |} ] ∧
  addAppsForContainers defaultApp {[ "home" := someConfig [] ]} "home"
    [ {| container_name := "c"; container_port := Some 8080 |} ] = Throw TypeError.
Proof. repeat split; vm_compute; reflexivity. Qed.

(** C10, as amended.  When the named config has a wrapper, every app that
    is added is the default app generated for the id of a wrapper of least
    position, with its name, url and external url replaced.  With no wrapper
    the handler throws, and writes nothing, as soon as there is a container;
    with no wrapper and no container it writes the config back. *)
Theorem addAppsForContainers_lowest_wrapper
    (generateDefaultApp : string -> nat -> ConfigApp)
    (configs : gmap string Config) (boardName : string) (containers : list Container)
    (config : Config) :
  configs !! boardName = Some config →
  (cfg_wrappers config ≠ [] →
   ∃ lowest newConfig newApps,
     lowest ∈ cfg_wrappers config ∧
     (∀ w, w ∈ cfg_wrappers config → wrapper_position lowest ≤ wrapper_position w) ∧
     addAppsForContainers generateDefaultApp configs boardName containers =
       Ok (<[boardName := newConfig]> configs) ∧
     cfg_apps newConfig = cfg_apps config ++ newApps ∧
     length newApps = length containers ∧
     ∀ i app, newApps !! i = Some app →
       let generated := generateDefaultApp (wrapper_id lowest) i in
       ca_rest app = ca_rest generated ∧
       behaviour_rest (ca_behaviour app) = behaviour_rest (ca_behaviour generated)) ∧
  (cfg_wrappers config = [] → containers ≠ [] →
   addAppsForContainers generateDefaultApp configs boardName containers = Throw TypeError) ∧
  (cfg_wrappers config = [] → containers = [] →
   addAppsForContainers generateDefaultApp configs boardName containers =
     Ok (<[boardName := config]> configs)).
Proof.
  intros Hsome. rewrite (addAppsForContainers_existing _ _ _ _ _ Hsome). simpl.
  split; [|split].
  - intros Hw.
    destruct (head (js_sort _ (cfg_wrappers config))) as [lowest|] eqn:Hhead.
    2: { exfalso. apply Hw. eapply js_sort_nil_inv.
         destruct (js_sort _ (cfg_wrappers config)) eqn:E; [exact E | discriminate]. }
    destruct (js_sort_head_least _ wrapper_cmp_consistent _ _ Hhead) as [Hin Hleast].
    destruct (containerApps_Ok generateDefaultApp lowest containers id)
      as (newApps & Hmap & Hlen & Hnth).
    change (imap (fun i c => (id i, c)) containers) with (imap pair containers) in Hmap.
    rewrite Hmap. simpl. eexists lowest, _, newApps.
    split; [done |]. split; [intros w Hwin; specialize (Hleast w Hwin); simpl in Hleast; lia |].
    split; [reflexivity |]. split; [done |]. split; [done |].
    intros i app Happ.
    destruct (lookup_lt_is_Some_2 containers i) as [container Hc].
    { rewrite <- Hlen. by eapply lookup_lt_Some. }
    rewrite (Hnth _ _ Hc) in Happ. by injection Happ as <-.
  - intros -> Hc. simpl.
    change (imap pair containers) with (imap (fun i c => (id i, c)) containers).
    by rewrite containerApps_Throw.
  - intros Hw ->. simpl. rewrite Hw. simpl. rewrite app_nil_r.
    destruct config; simpl in *. by rewrite Hw.
Qed.

Lemma addAppsForContainers_lowest_wrapper_witness :
  (∃ lowest newConfig newApps,
     lowest ∈ twoWrappers ∧
     (∀ w, w ∈ twoWrappers → wrapper_position lowest ≤ wrapper_position w) ∧
     addAppsForContainers defaultApp {[ "home" := someConfig twoWrappers ]} "home"
       [ {| container_name := "plex"; container_port := Some 32400 |} ] =
       Ok (<["home" := newConfig]> {[ "home" := someConfig twoWrappers ]}) ∧
     cfg_apps newConfig = [] ++ newApps ∧
     length newApps = 1%nat ∧
     ∀ i app, newApps !! i = Some app →
       ca_rest app = ca_rest (defaultApp (wrapper_id lowest) i) ∧
       behaviour_rest (ca_behaviour app) =
         behaviour_rest (ca_behaviour (defaultApp (wrapper_id lowest) i))) ∧
  addAppsForContainers defaultApp {[ "home" := someConfig [] ]} "home"
    [ {| container_name := "plex"; container_port := Some 32400 |} ] = Throw TypeError.
Proof.
  split.
  - destruct (addAppsForContainers_lowest_wrapper defaultApp
                {[ "home" := someConfig twoWrappers ]} "home"
                [ {| container_name := "plex"; container_port := Some 32400 |} ]
                (someConfig twoWrappers)) as (Hlowest & _ & _); [reflexivity |].
    apply Hlowest. discriminate.
  - destruct (addAppsForContainers_lowest_wrapper defaultApp
                {[ "home" := someConfig [] ]} "home"
                [ {| container_name := "plex"; container_port := Some 32400 |} ]
                (someConfig [])) as (_ & Hthrow & _); [reflexivity |].
    apply Hthrow; [reflexivity | discriminate].
Defined.

(** C10 as stated fails: with no wrapper and no container the handler does
    not fail, it writes the config. *)
Lemma addAppsForContainers_no_wrapper_counterexample :
  cfg_wrappers (someConfig []) = [] ∧
  addAppsForContainers defaultApp {[ "home" := someConfig [] ]} "home" [] =
    Ok (<["home" := someConfig []]> {[ "home" := someConfig [] ]}).
Proof. split; vm_compute; reflexivity. Qed.

(** ** Not-found errors *)

(** C4.  [byName], [byNameSimple] and [updateCustomization] throw
    [NOT_FOUND] "Board not found" exactly when no board has the given name,
    and [addAppsForContainers] exactly when no config file has it; [byName]
    throws [NOT_FOUND] "Layout not found" exactly when the board exists and
    has no layout of the requested name (['default'] when none is given). *)
Theorem not_found_errors (localeCompare : string -> string -> Z)
    (generateDefaultApp : string -> nat -> ConfigApp)
    (db : DB) (configs : gmap string Config) (boardName : string)
    (layout : option string) (customization : CustomizationInput)
    (containers : list Container) :
  let noBoard := ¬ ∃ b, b ∈ boards db ∧ board_name b = boardName in
  let input := {| bn_boardName := boardName; bn_layout := layout |} in
  (byName localeCompare db input = Throw (TRPCError "NOT_FOUND" "Board not found") ↔ noBoard) ∧
  (byNameSimple db boardName = Throw (TRPCError "NOT_FOUND" "Board not found") ↔ noBoard) ∧
  (updateCustomization db boardName customization =
     Throw (TRPCError "NOT_FOUND" "Board not found") ↔ noBoard) ∧
  (addAppsForContainers generateDefaultApp configs boardName containers =
     Throw (TRPCError "NOT_FOUND" "Board not found") ↔ configs !! boardName = None) ∧
  (byName localeCompare db input = Throw (TRPCError "NOT_FOUND" "Layout not found") ↔
     ∃ board, findFirst (fun b => board_name b = boardName) (boards db) = Some board ∧
       ¬ ∃ l, l ∈ layouts db ∧ layout_boardId l = board_id board ∧
              layout_name l = default "default" layout).
Proof.
  intros noBoard input. subst noBoard.
  rewrite <- (findFirst_None (fun b => board_name b = boardName)).
  repeat split.
  - intros H. apply byName_Throw in H.
    destruct (getFullBoardWithLayoutSectionsAsync _ _ _) eqn:E.
    + destruct H; discriminate.
    + by apply getFullBoard_None in E.
  - intros H. unfold byName. simpl.
    apply (getFullBoard_None db boardName (default "default" layout)) in H. by rewrite H.
  - unfold byNameSimple. destruct (findFirst _ (boards db)); [discriminate | done].
  - unfold byNameSimple. by intros ->.
  - unfold updateCustomization. destruct (findFirst _ (boards db)); [discriminate | done].
  - unfold updateCustomization. by intros ->.
  - intros H. destruct (configs !! boardName) as [config|] eqn:E; [|done]. exfalso.
    rewrite (addAppsForContainers_existing _ _ _ _ _ E) in H. simpl in H.
    match type of H with ?r ≫= _ = _ => destruct r as [a|e] eqn:Er end; [discriminate |].
    simpl in H.
    assert (e = TypeError); [|congruence].
    eapply onlyTypeError_mapR; [|exact Er]. intros [i c]. unfold containerApp.
    apply onlyTypeError_bind; [apply onlyTypeError_deref | intros; apply onlyTypeError_Ok].
  - apply addAppsForContainers_missing.
  - intros H. apply byName_Throw in H. simpl in H.
    destruct (getFullBoardWithLayoutSectionsAsync _ _ _) as [board|] eqn:E; [|discriminate].
    destruct H as [Hnil _].
    unfold getFullBoardWithLayoutSectionsAsync in E.
    destruct (findFirst _ (boards db)) as [b|] eqn:Hb; [|discriminate].
    simpl in E. injection E as <-. simpl in Hnil.
    exists b. split; [done |]. intros (l & Hl & Hboard & Hname).
    apply fmap_nil_inv in Hnil.
    assert (l ∈ filter (fun l => layout_boardId l = board_id b ∧
                                 layout_name l = default "default" layout) (layouts db)) as Hin
      by (by apply list_elem_of_filter).
    rewrite Hnil in Hin. by apply elem_of_nil in Hin.
  - intros (board & Hb & Hno). unfold byName, getFullBoardWithLayoutSectionsAsync. simpl.
    rewrite Hb. simpl.
    destruct (filter _ (layouts db)) as [|l ls] eqn:E; [done |]. exfalso. apply Hno.
    assert (l ∈ filter (fun l => layout_boardId l = board_id board ∧
                                 layout_name l = default "default" layout) (layouts db)) as Hin
      by (rewrite E; left).
    apply list_elem_of_filter in Hin as [[? ?] ?]. eauto.
Qed.

(** ** Dotted paths *)

Lemma split_nonempty (s : string) : split s ≠ [].
Proof.
  induction s as [|c s IH]; simpl; [done |].
  destruct (Ascii.eqb c "."); [done |]. by destruct (split s).
Qed.

Lemma split_app (p s : string) : split (p +:+ "." +:+ s) = split p ++ split s.
Proof.
  induction p as [|c p IH]; simpl; [done |].
  rewrite IH. destruct (Ascii.eqb c "."); [done |].
  pose proof (split_nonempty p). by destruct (split p).
Qed.

Lemma join_split (s : string) : join (split s) = s.
Proof.
  induction s as [|c s IH]; simpl; [done |].
  pose proof (split_nonempty s) as Hne.
  destruct (Ascii.eqb_spec c ".") as [->|_].
  - destruct (split s) as [|k ks]; [done |]. simpl in *. by rewrite IH.
  - destruct (split s) as [|k [|k' ks]]; [done | |]; simpl in *; by rewrite <- IH.
Qed.

Lemma split_inj (s1 s2 : string) : split s1 = split s2 → s1 = s2.
Proof. intros H. rewrite <- (join_split s1), <- (join_split s2). by rewrite H. Qed.

(** A split of the keys of a path is a split of the path at a dot. *)
Lemma split_app_inv (q : string) (l1 l2 : list string) :
  split q = l1 ++ l2 → l1 ≠ [] → l2 ≠ [] →
  ∃ p s, q = p +:+ "." +:+ s ∧ split p = l1 ∧ split s = l2.
Proof.
  revert l1. induction q as [|c q IH]; intros l1 Hsplit Hl1 Hl2; simpl in Hsplit.
  - destruct l1 as [|? [|? ?]]; [done | |]; destruct l2; try done; discriminate.
  - destruct l1 as [|k1 l1]; [done |]. clear Hl1.
    destruct (Ascii.eqb_spec c ".") as [->|Hc].
    + injection Hsplit as <- Hsplit.
      destruct l1 as [|k l1].
      * exists "", q. simpl in Hsplit. by rewrite Hsplit.
      * destruct (IH (k :: l1) Hsplit) as (p & s & -> & Hp & Hs); [done | done |].
        exists (String "." p), s. simpl. by rewrite Hp.
    + pose proof (split_nonempty q) as Hne.
      destruct (split q) as [|k ks] eqn:Hq; [done |].
      injection Hsplit as <- Hks.
      destruct (IH (k :: l1)) as (p & s & -> & Hp & Hs); [by rewrite Hks | done | done |].
      exists (String c p), s. simpl. rewrite Hp.
      destruct (Ascii.eqb_spec c "."); done.
Qed.

(** ** Comparison by code units *)

Lemma codeUnitCompare_le (a b : string) :
  codeUnitCompare a b ≤ 0 ↔ String.compare a b ≠ Gt.
Proof. unfold codeUnitCompare. destruct (String.compare a b); split; (done || lia). Qed.

Lemma string_compare_trans (a b c : string) :
  String.compare a b ≠ Gt → String.compare b c ≠ Gt → String.compare a c ≠ Gt.
Proof.
  revert b c. induction a as [|x a IH]; intros [|y b] [|z c]; simpl; try done.
  destruct (Ascii.compare x y) eqn:Hxy; [| |done].
  - apply Ascii.compare_eq_iff in Hxy as ->.
    destruct (Ascii.compare y z); [apply IH | done | done].
  - destruct (Ascii.compare y z) eqn:Hyz; [| |done].
    + apply Ascii.compare_eq_iff in Hyz as <-. by rewrite Hxy.
    + intros _ _.
      assert (Ascii.compare x z = Lt) as ->; [|done].
      unfold Ascii.compare in *. rewrite N.compare_lt_iff in *. lia.
Qed.

Lemma codeUnitCompare_consistent : consistent codeUnitCompare.
Proof.
  split.
  - intros a b. rewrite !codeUnitCompare_le, (String.compare_antisym b a).
    destruct (String.compare a b); simpl; auto.
  - intros a b c. rewrite !codeUnitCompare_le. apply string_compare_trans.
Qed.

Lemma codeUnitCompare_ancestorsFirst : ancestorsFirst codeUnitCompare.
Proof.
  intros p s. unfold codeUnitCompare.
  assert (String.compare (p +:+ "." +:+ s) p = Gt) as ->; [|done].
  induction p as [|c p IH]; simpl; [done |].
  assert (Ascii.compare c c = Eq) as ->; [|done].
  unfold Ascii.compare. apply N.compare_refl.
Qed.

(** ** Reading and writing nested values *)

Lemma resolves_container (cur : value) (keys : list string) :
  resolves cur keys → is_Some (properties cur).
Proof. destruct keys, cur; simpl; try done; eauto. Qed.

(** On a path that resolves, [addAtPath] is the functional update. *)
Lemma assignAt_resolves (cur : value) (keys : list string) (lastKey : string) (v : value) :
  resolves cur keys →
  assignAt cur keys lastKey (Some v) = Ok (setPath cur (keys ++ [lastKey]) v).
Proof.
  revert cur. induction keys as [|k keys IH]; intros cur Hres; simpl in *.
  - destruct cur; try (by destruct Hres); done.
  - destruct cur; try done.
    + destruct Hres as (Hk & c & Hc & Hres). rewrite Hk, Hc. simpl.
      by rewrite (IH _ Hres).
    + destruct Hres as (c & Hc & Hres). rewrite Hc. simpl. by rewrite (IH _ Hres).
Qed.

Lemma assignAt_nothing (cur : value) (keys : list string) (lastKey : string) :
  resolves cur keys → assignAt cur keys lastKey None = Ok cur.
Proof.
  revert cur. induction keys as [|k keys IH]; intros cur Hres; simpl in *; [done |].
  destruct cur; try done.
  - destruct Hres as (Hk & c & Hc & Hres). rewrite Hk, Hc. simpl.
    rewrite (IH _ Hres). simpl. by rewrite insert_id.
  - destruct Hres as (c & Hc & Hres). rewrite Hc. simpl.
    rewrite (IH _ Hres). simpl. by rewrite insert_id.
Qed.

(** At and below the path written: the value written. *)
Lemma getPath_setPath_below (cur : value) (keys : list string) (lastKey : string)
    (v : value) (rest : list string) :
  resolves cur keys →
  getPath (setPath cur (keys ++ [lastKey]) v) ((keys ++ [lastKey]) ++ rest) = getPath v rest.
Proof.
  revert cur. induction keys as [|k keys IH]; intros cur Hres; simpl in *.
  - destruct cur; try (by destruct Hres); simpl; by rewrite lookup_insert_eq.
  - destruct cur; try done; simpl; rewrite lookup_insert_eq; simpl.
    + destruct Hres as (_ & c & -> & Hres). by apply IH.
    + destruct Hres as (c & -> & Hres). by apply IH.
Qed.

(** Above the path written: the same array or object, with new content. *)
Lemma getPath_setPath_above (cur : value) (keys : list string) (lastKey : string)
    (v : value) (above below : list string) :
  resolves cur keys → keys = above ++ below →
  ∃ c c', getPath cur above = Some c ∧
          getPath (setPath cur (keys ++ [lastKey]) v) above = Some c' ∧
          sameContainer c c'.
Proof.
  revert cur keys. induction above as [|k above IH]; intros cur keys Hres Hkeys.
  - exists cur, (setPath cur (keys ++ [lastKey]) v). repeat split.
    apply resolves_container in Hres.
    destruct keys, cur; simpl in *; try done; by destruct Hres.
  - subst keys. simpl in *. destruct cur; try done; simpl; rewrite lookup_insert_eq; simpl.
    + destruct Hres as (_ & c & -> & Hres). simpl. by eapply IH.
    + destruct Hres as (c & -> & Hres). simpl. by eapply IH.
Qed.

(** Off the path written: unchanged. *)
Lemma getPath_setPath_apart (cur : value) (keys : list string) (lastKey : string)
    (v : value) (other : list string) :
  resolves cur keys →
  ¬ (keys ++ [lastKey]) `prefix_of` other →
  ¬ other `prefix_of` (keys ++ [lastKey]) →
  getPath (setPath cur (keys ++ [lastKey]) v) other = getPath cur other.
Proof.
  revert cur other. induction keys as [|k keys IH]; intros cur other Hres Hnot1 Hnot2.
  - destruct other as [|q other]; [exfalso; apply Hnot2, prefix_nil |].
    assert (q ≠ lastKey) as Hq.
    { intros ->. apply Hnot1. by apply prefix_cons, prefix_nil. }
    simpl in *. destruct cur; try (by destruct Hres); simpl; by rewrite lookup_insert_ne.
  - destruct other as [|q other]; [exfalso; apply Hnot2, prefix_nil |].
    simpl in *. destruct cur; try done; simpl.
    + destruct Hres as (_ & c & Hc & Hres).
      destruct (decide (k = q)) as [->|Hkq]; [|by rewrite lookup_insert_ne].
      rewrite lookup_insert_eq, Hc. simpl. apply IH; [done | |].
      * intros Hp. by apply Hnot1, prefix_cons.
      * intros Hp. by apply Hnot2, prefix_cons.
    + destruct Hres as (c & Hc & Hres).
      destruct (decide (k = q)) as [->|Hkq]; [|by rewrite lookup_insert_ne].
      rewrite lookup_insert_eq, Hc. simpl. apply IH; [done | |].
      * intros Hp. by apply Hnot1, prefix_cons.
      * intros Hp. by apply Hnot2, prefix_cons.
Qed.

(** The walk resolves when every prefix of the path holds an array or an
    object, and the key read under an array is an index in canonical form. *)
Lemma resolves_intro (cur : value) (keys : list string) :
  (∀ above below, keys = above ++ below →
     ∃ c, getPath cur above = Some c ∧ is_Some (properties c) ∧
          ∀ k below', below = k :: below' → (∃ m, c = VArray m) → indexKey k = k) →
  resolves cur keys.
Proof.
  revert cur. induction keys as [|k keys IH]; intros cur H.
  - destruct (H [] [] eq_refl) as (c & [= <-] & Hc & _). done.
  - destruct (H [] (k :: keys) eq_refl) as (c & [= <-] & Hc & Hidx).
    assert (∃ c, properties cur = Some (c : gmap string value) ∧
                 ∃ child, c !! k = Some child ∧ resolves child keys) as (m & Hm & child & Hk & Hres).
    { destruct Hc as [m Hm]. exists m. split; [done |].
      destruct (H [k] keys eq_refl) as (child & Hchild & _).
      simpl in Hchild. rewrite Hm in Hchild. simpl in Hchild.
      destruct (m !! k) as [child'|] eqn:Hk; [|done]. simpl in Hchild.
      injection Hchild as ->. exists child. split; [done |].
      apply IH. intros above below ->.
      destruct (H (k :: above) below eq_refl) as (c & Hc' & Hrest).
      simpl in Hc'. rewrite Hm in Hc'. simpl in Hc'. rewrite Hk in Hc'. simpl in Hc'.
      eauto. }
    destruct cur; try done; simpl in *; injection Hm as ->.
    + split; [eapply Hidx; eauto | eauto].
    + eauto.
Qed.

(** Nothing lies below what a row assigns. *)
Lemma getPath_assigned (item : MapOption) (v : value) (k : string) (keys : list string) :
  assigned item = Some v → getPath v (k :: keys) = None.
Proof.
  unfold assigned. intros H.
  destruct (type item); try (injection H as <-; done).
  - destruct (value_ item) as [s|]; [|done].
    destruct (String.eqb s ""); [done |]. by injection H as <-.
  - destruct (value_ item); by injection H as <-.
Qed.

Lemma shapeOf_assigned (item : MapOption) (v : value) :
  assigned item = Some v → shapeOf v v.
Proof. intros _. destruct v; simpl; eauto. Qed.

Lemma shapeOf_sameContainer (v c c' : value) :
  shapeOf v c → sameContainer c c' → shapeOf v c'.
Proof.
  destruct v; simpl; intros Hs Hc; try (subst c; by destruct c').
  - destruct Hs as [m ->]. destruct c'; try done. eauto.
  - destruct Hs as [m ->]. destruct c'; try done. eauto.
Qed.

(** ** [mapOptions] rebuilds the nested options *)

Section MapOptionsCorrect.
Variable localeCompare : string -> string -> Z.
Variable rows : list MapOption.

Hypothesis Hconsistent : consistent localeCompare.
Hypothesis Hancestors : ancestorsFirst localeCompare.
Hypothesis Hnodup : NoDup (path <$> rows).
Hypothesis Hclosed : prefixClosed rows.
Hypothesis Hindices : walkedKeysCanonical rows.

Let sorted := js_sort (fun a b => localeCompare (path a) (path b)) rows.

Lemma sorted_Permutation : sorted ≡ₚ rows.
Proof. apply js_sort_Permutation. Qed.

Lemma sorted_StronglySorted :
  StronglySorted (fun a b => localeCompare (path a) (path b) ≤ 0) sorted.
Proof.
  apply js_sort_sorted. destruct Hconsistent as [Htotal Htrans].
  split; [intros a b; apply Htotal | intros a b c; apply Htrans].
Qed.

Lemma sorted_NoDup : NoDup (path <$> sorted).
Proof. by rewrite sorted_Permutation. Qed.

Lemma not_before_ancestor (p s : string) : ¬ localeCompare (p +:+ "." +:+ s) p ≤ 0.
Proof. specialize (Hancestors p s). lia. Qed.

(** The sort puts a row after the rows of its ancestors... *)
Lemma ancestor_before (done todo : list MapOption) (r : MapOption)
    (above below : list string) :
  sorted = done ++ r :: todo →
  split (path r) = above ++ below → above ≠ [] → below ≠ [] →
  ∃ a, a ∈ done ∧ split (path a) = above ∧
       (type a = TArray ∨ type a = TObject) ∧
       (type a = TArray → ∀ k k' below', below = k :: k' :: below' → indexKey k = k).
Proof.
  intros Hsorted Hsplit Habove Hbelow.
  destruct (split_app_inv _ _ _ Hsplit Habove Hbelow) as (p & s & Hpath & Hp & Hs).
  assert (r ∈ rows) as Hr.
  { rewrite <- sorted_Permutation, Hsorted. apply elem_of_app. right. left. }
  destruct (Hclosed r p s Hr Hpath) as (a & Ha & Hap & Htype).
  exists a. split; [|split; [by rewrite Hap | split; [done |]]].
  - assert (a ∈ sorted) as Hin by (by rewrite sorted_Permutation).
    rewrite Hsorted in Hin.
    apply elem_of_app in Hin as [Hin|Hin]; [done |]. exfalso.
    pose proof sorted_StronglySorted as Hss. rewrite Hsorted in Hss.
    apply StronglySorted_app_1_r in Hss.
    apply elem_of_cons in Hin as [->|Hin].
    + rewrite Hpath in Hap.
      destruct Hconsistent as [Htotal _]. apply (not_before_ancestor p s).
      rewrite Hap. destruct (Htotal p p); done.
    + apply StronglySorted_inv in Hss as [_ Hall].
      rewrite Forall_forall in Hall. specialize (Hall a Hin). simpl in Hall.
      rewrite Hpath, Hap in Hall. by apply not_before_ancestor in Hall.
  - intros Harray k k' below' ->. rewrite <- Hap in Hpath.
    by destruct (Hindices a r s k (k' :: below') Ha Hr Harray Hpath Hs) as [Hcanon _].
Qed.

(** ... and before the rows below it. *)
Lemma no_descendant_before (done todo : list MapOption) (r r' : MapOption) :
  sorted = done ++ r :: todo → r' ∈ done →
  ¬ split (path r) `prefix_of` split (path r').
Proof.
  intros Hsorted Hr' [below Hbelow].
  destruct (decide (below = [])) as [->|Hne].
  - rewrite app_nil_r in Hbelow. apply split_inj in Hbelow.
    pose proof sorted_NoDup as Hnd. rewrite Hsorted, fmap_app, fmap_cons in Hnd.
    apply NoDup_app in Hnd as (_ & Hdisjoint & _).
    apply (Hdisjoint (path r')); [by apply list_elem_of_fmap_2 |].
    rewrite Hbelow. left.
  - destruct (split_app_inv _ _ _ Hbelow (split_nonempty _) Hne) as (p & s & Hpath & Hp & _).
    apply split_inj in Hp. subst p.
    pose proof sorted_StronglySorted as Hss. rewrite Hsorted in Hss.
    apply StronglySorted_app in Hss as (Hcross & _ & _).
    specialize (Hcross r' r Hr' ltac:(left)). simpl in Hcross.
    rewrite Hpath in Hcross. by apply not_before_ancestor in Hcross.
Qed.

Lemma assigned_container (a : MapOption) :
  type a = TArray ∨ type a = TObject →
  ∃ v, assigned a = Some v ∧ is_Some (properties v) ∧
       ((∃ m, v = VArray m) → type a = TArray).
Proof.
  unfold assigned. intros [->| ->]; eexists; (split; [reflexivity |]); split; eauto.
  intros [m ?]. discriminate.
Qed.

(** One round of the [forEach]. *)
Lemma addAtPath_built (done todo : list MapOption) (r : MapOption) (obj : value) :
  sorted = done ++ r :: todo → built obj done →
  ∃ obj', addAtPath obj r = Ok obj' ∧ built obj' (done ++ [r]).
Proof.
  intros Hsorted (Hroot & Hholds & Honly).
  set (keys := removelast (split (path r))).
  set (lastKey := List.last (split (path r)) "").
  assert (split (path r) = keys ++ [lastKey]) as Hkeys
    by apply app_removelast_last, split_nonempty.
  assert (resolves obj keys) as Hres.
  { apply resolves_intro. intros above below Habove.
    destruct (decide (above = [])) as [->|Hne].
    - exists obj. destruct Hroot as [m ->]. split; [done |]. split; [by eexists |].
      intros ? ? _ [? ?]. discriminate.
    - destruct (ancestor_before done todo r above (below ++ [lastKey]))
        as (a & Ha & Hap & Htype & Hidx); try done.
      { rewrite Hkeys, Habove. by rewrite <- app_assoc. }
      { by destruct below. }
      destruct (assigned_container a Htype) as (v & Hv & Hprops & Harr).
      destruct (Hholds a v Ha Hv) as (c & Hc & Hshape). rewrite Hap in Hc.
      exists c. split; [done |].
      assert (is_Some (properties c) ∧ ((∃ m, c = VArray m) → ∃ m, v = VArray m))
        as [Hpc Hca].
      { destruct v; simpl in Hshape; try (by destruct Hprops);
          destruct Hshape as [m ->]; split; eauto; intros [? ?]; discriminate. }
      split; [done |]. intros k below' -> Hcarr.
      destruct below' as [|k' below'']; by eapply (Hidx (Harr (Hca Hcarr))). }
  unfold addAtPath, pop. fold keys lastKey.
  destruct (assigned r) as [v|] eqn:Hassigned.
  - rewrite (assignAt_resolves _ _ _ _ Hres). eexists. split; [reflexivity |].
    rewrite <- Hkeys.
    assert (∀ other,
      split (path r) `prefix_of` other ∨
      (∃ c c', getPath obj other = Some c ∧
               getPath (setPath obj (split (path r)) v) other = Some c' ∧
               sameContainer c c') ∨
      getPath (setPath obj (split (path r)) v) other = getPath obj other) as Hcases.
    { intros other.
      destruct (decide (split (path r) `prefix_of` other)) as [|Hnot1]; [by left |].
      right. destruct (decide (other `prefix_of` split (path r))) as [[below Hb]|Hnot2].
      - left. rewrite Hkeys in *.
        destruct (decide (below = [])) as [->|Hne].
        { exfalso. apply Hnot1. rewrite app_nil_r in Hb. by rewrite Hb. }
        assert (∃ below', below = below' ++ [lastKey] ∧ keys = other ++ below')
          as (below' & -> & ->).
        { destruct below as [|k below' _] using rev_ind; [done |].
          rewrite app_assoc in Hb. apply app_inj_tail in Hb as [-> ->]. eauto. }
        by eapply getPath_setPath_above.
      - right. rewrite Hkeys in *. by apply getPath_setPath_apart. }
    split; [|split].
    + destruct Hroot as [m ->]. rewrite Hkeys. destruct keys; simpl; eauto.
    + intros r' v' Hr' Hv'. apply elem_of_app in Hr' as [Hr'|Hr'].
      * destruct (Hholds r' v' Hr' Hv') as (c & Hc & Hshape).
        destruct (Hcases (split (path r'))) as [Hp|[(c0 & c' & Hc0 & Hc' & Hsame)|Heq]].
        -- by apply (no_descendant_before done todo r r') in Hp.
        -- exists c'. split; [done |]. rewrite Hc in Hc0. injection Hc0 as <-.
           by eapply shapeOf_sameContainer.
        -- exists c. by rewrite Heq.
      * apply list_elem_of_singleton in Hr' as ->.
        rewrite Hassigned in Hv'. injection Hv' as <-.
        exists v. split; [|by eapply shapeOf_assigned].
        rewrite Hkeys.
        pose proof (getPath_setPath_below obj keys lastKey v [] Hres) as Hb.
        by rewrite app_nil_r in Hb.
    + intros other Hne Hsome.
      destruct (Hcases other) as [[below ->]|[(c0 & c' & Hc0 & _)|Heq]].
      * exists r. split; [apply elem_of_app; right; left |].
        rewrite Hkeys in Hsome. rewrite getPath_setPath_below in Hsome by done.
        destruct below as [|k below]; [by rewrite app_nil_r, Hassigned |].
        rewrite (getPath_assigned r v) in Hsome by done. by destruct Hsome.
      * destruct (Honly other Hne) as (r' & ? & ? & ?); [by rewrite Hc0 |].
        exists r'. split; [apply elem_of_app; by left | done].
      * rewrite Heq in Hsome. destruct (Honly other Hne Hsome) as (r' & ? & ? & ?).
        exists r'. split; [apply elem_of_app; by left | done].
  - rewrite (assignAt_nothing _ _ _ Hres). exists obj. split; [done |].
    split; [done |]. split.
    + intros r' v' Hr' Hv'. apply elem_of_app in Hr' as [Hr'|Hr']; [by eapply Hholds |].
      apply list_elem_of_singleton in Hr' as ->. congruence.
    + intros other Hne Hsome. destruct (Honly other Hne Hsome) as (r' & ? & ? & ?).
      exists r'. split; [apply elem_of_app; by left | done].
Qed.

(** The whole [forEach]. *)
Lemma forEach_built (todo done : list MapOption) (obj : value) :
  sorted = done ++ todo → built obj done →
  ∃ obj', foldl (fun acc item => result ← acc; addAtPath result item) (Ok obj) todo
            = Ok obj' ∧
          built obj' sorted.
Proof.
  revert done obj. induction todo as [|r todo IH]; intros done obj Hsorted Hbuilt.
  - rewrite app_nil_r in Hsorted. subst done. by exists obj.
  - destruct (addAtPath_built done todo r obj Hsorted Hbuilt) as (obj' & Hstep & Hbuilt').
    simpl. rewrite Hstep. apply (IH (done ++ [r])); [|done].
    by rewrite <- app_assoc.
Qed.

Lemma mapOptions_built :
  ∃ obj, mapOptions localeCompare rows = Ok obj ∧ built obj rows.
Proof.
  destruct (forEach_built sorted [] (VObject ∅)) as (obj & Hrun & Hbuilt); [done | |].
  - split; [by eexists |]. split.
    + intros r v Hr. by apply elem_of_nil in Hr.
    + intros keys Hne Hsome. destruct keys as [|k keys]; [done |].
      simpl in Hsome. rewrite lookup_empty in Hsome. by destruct Hsome.
  - exists obj. split; [exact Hrun |].
    destruct Hbuilt as (Hroot & Hholds & Honly). split; [done |]. split.
    + intros r v Hr. apply Hholds. by rewrite sorted_Permutation.
    + intros keys Hne Hsome. destruct (Honly keys Hne Hsome) as (r & Hr & ? & ?).
      exists r. split; [by rewrite <- sorted_Permutation | done].
Qed.

Lemma built_rowHolds (obj : value) (r : MapOption) :
  built obj rows → r ∈ rows → rowHolds obj r.
Proof.
  intros (_ & Hholds & Honly) Hr.
  assert (assigned r = None → getPath obj (split (path r)) = None) as Hnone.
  { intros Hassigned. destruct (getPath obj (split (path r))) eqn:Hget; [|done]. exfalso.
    destruct (Honly (split (path r))) as (r' & Hr' & Hpath & Hsome);
      [apply split_nonempty | by rewrite Hget |].
    apply split_inj in Hpath.
    assert (r' = r) as ->; [|rewrite Hassigned in Hsome; by destruct Hsome].
    apply list_elem_of_lookup in Hr as [i Hi]. apply list_elem_of_lookup in Hr' as [j Hj].
    assert (i = j) as ->; [|congruence].
    eapply NoDup_lookup; [exact Hnodup | |]; rewrite list_lookup_fmap.
    - by rewrite Hi.
    - rewrite Hj. simpl. by rewrite Hpath. }
  specialize (Hholds r). unfold rowHolds.
  destruct (type r) eqn:Htype.
  - destruct (Hholds (VArray ∅) Hr) as (c & -> & m & ->);
      [unfold assigned; by rewrite Htype | eauto].
  - destruct (Hholds (VObject ∅) Hr) as (c & -> & m & ->);
      [unfold assigned; by rewrite Htype | eauto].
  - destruct (value_ r) as [s|] eqn:Hvalue.
    2: { apply Hnone. unfold assigned. by rewrite Htype, Hvalue. }
    destruct (String.eqb_spec s "") as [Hs|Hs].
    + rewrite decide_True by done. apply Hnone. unfold assigned.
      rewrite Htype, Hvalue, Hs. done.
    + rewrite decide_False by done.
      destruct (Hholds (VNumber (if includes_dot s then parseFloat s
                                 else parseIntNumber s)) Hr) as (c & -> & ->); [|done].
      unfold assigned. rewrite Htype, Hvalue.
      by rewrite (proj2 (String.eqb_neq _ _) Hs).
  - destruct (Hholds (VBool (match value_ r with
                              | Some v => String.eqb v "true"
                              | None => false
                              end)) Hr) as (c & -> & ->);
      [unfold assigned; by rewrite Htype |].
    do 2 f_equal. destruct (value_ r) as [s|]; [|done].
    destruct (String.eqb_spec s "true") as [->|Hne]; symmetry.
    + by apply bool_decide_eq_true.
    + apply bool_decide_eq_false. congruence.
  - destruct (Hholds (match value_ r with
                      | Some v => VString v
                      | None => VNull
                      end) Hr) as (c & -> & Hshape);
      [unfold assigned; by rewrite Htype |].
    destruct (value_ r); simpl in Hshape; by subst c.
  - by destruct (Hholds VNull Hr) as (c & -> & ->);
      [unfold assigned; by rewrite Htype |].
Qed.
End MapOptionsCorrect.

Lemma prefixClosedb_correct (rows : list MapOption) :
  prefixClosedb rows = true → prefixClosed rows.
Proof.
  unfold prefixClosedb. rewrite forallb_forall. intros Hall r p s Hr Hpath.
  specialize (Hall r (proj1 (list_elem_of_In _ _) Hr)).
  rewrite forallb_forall in Hall.
  pose proof (split_app p s) as Hsplit. rewrite <- Hpath in Hsplit.
  pose proof (split_nonempty p) as Hp. pose proof (split_nonempty s) as Hs.
  specialize (Hall (length (split p))).
  rewrite Hsplit, take_app_length, length_app in Hall.
  destruct (existsb _ rows) eqn:Hex.
  - apply existsb_exists in Hex as (a & Ha & Hcond).
    apply andb_true_iff in Hcond as [Heq Hcont].
    apply bool_decide_eq_true in Heq. apply split_inj in Heq.
    exists a. split; [by apply list_elem_of_In |]. split; [done |].
    unfold isContainerRow in Hcont. destruct (type a); auto; discriminate.
  - exfalso. assert (false = true); [|done]. apply Hall, in_seq.
    destruct (split p), (split s); simpl in *; try done; lia.
Qed.

Lemma walkedKeysCanonicalb_correct (rows : list MapOption) :
  walkedKeysCanonicalb rows = true → walkedKeysCanonical rows.
Proof.
  unfold walkedKeysCanonicalb. rewrite forallb_forall.
  intros Hall a r s key rest Ha Hr Harray Hpath Hsplit Hrest.
  specialize (Hall a (proj1 (list_elem_of_In _ _) Ha)). rewrite Harray in Hall.
  rewrite forallb_forall in Hall.
  specialize (Hall r (proj1 (list_elem_of_In _ _) Hr)).
  rewrite Hpath, split_app, drop_app_length, take_app_length, Hsplit in Hall.
  destruct rest as [|key' rest]; [done |].
  rewrite bool_decide_eq_true_2 in Hall by done. simpl in Hall.
  unfold canonicalIndexb in Hall. apply andb_true_iff in Hall as [H1 H2].
  split; by eapply bool_decide_eq_true.
Qed.

(** C1, as amended.  For rows with pairwise distinct paths whose paths are
    prefix-closed, where no path has the segment [__proto__] and no row
    assigns to the [length] of an array, where a key directly below an
    ['array'] row that a deeper row walks through is an index in canonical
    form, and for a consistent collation that puts a path before the paths
    below it, [mapOptions] returns an object in which the path of every row
    holds: an array for ['array'] and an object for ['object'] (with what the
    rows below put there); for ['number'] the float parsed from a value that
    contains '.' and the integer parsed from any other non-empty value, and
    nothing when the value is null or empty; for ['boolean'] whether the
    value is 'true'; for ['string'] the value; for ['null'] null.  The object
    has no other paths. *)
Theorem mapOptions_rebuilds (localeCompare : string -> string -> Z)
    (rows : list MapOption) :
  consistent localeCompare →
  ancestorsFirst localeCompare →
  NoDup (path <$> rows) →
  prefixClosed rows →
  walkedKeysCanonical rows →
  ownKeys rows →
  ∃ m, mapOptions localeCompare rows = Ok (VObject m) ∧
       (∀ r, r ∈ rows → rowHolds (VObject m) r) ∧
       (∀ keys, keys ≠ [] → is_Some (getPath (VObject m) keys) →
          ∃ r, r ∈ rows ∧ split (path r) = keys).
Proof.
  intros Hcons Hanc Hnodup Hclosed Hidx _.
  destruct (mapOptions_built localeCompare rows Hcons Hanc Hnodup Hclosed Hidx)
    as (obj & Hrun & Hbuilt).
  pose proof Hbuilt as ([m ->] & _ & Honly).
  exists m. split; [done |]. split.
  - intros r Hr. by apply (built_rowHolds rows Hnodup).
  - intros keys Hne Hsome. destruct (Honly keys Hne Hsome) as (r & ? & ? & _). eauto.
Qed.

Lemma mapOptions_rebuilds_witness :
  ∃ m, mapOptions codeUnitCompare someOptions = Ok (VObject m) ∧
       (∀ r, r ∈ someOptions → rowHolds (VObject m) r) ∧
       (∀ keys, keys ≠ [] → is_Some (getPath (VObject m) keys) →
          ∃ r, r ∈ someOptions ∧ split (path r) = keys).
Proof.
  apply (mapOptions_rebuilds codeUnitCompare someOptions).
  - exact codeUnitCompare_consistent.
  - exact codeUnitCompare_ancestorsFirst.
  - compute_done.
  - apply prefixClosedb_correct. vm_compute. reflexivity.
  - apply walkedKeysCanonicalb_correct. vm_compute. reflexivity.
  - compute_done.
Defined.

(** The order in which a collation that is consistent and puts ancestors
    first leaves an array, a member of it and a property of that member. *)
Lemma js_sort_chain (localeCompare : string -> string -> Z) (a b c : MapOption) (s t : string) :
  consistent localeCompare → ancestorsFirst localeCompare →
  path b = path a +:+ "." +:+ s → path c = path b +:+ "." +:+ t →
  js_sort (fun x y => localeCompare (path x) (path y)) [a; b; c] = [a; b; c].
Proof.
  intros [Htotal _] Hanc Hb Hc.
  assert (∀ p q u, q = p +:+ "." +:+ u → (localeCompare p q <=? 0) = true) as Hle.
  { intros p q u ->. apply Z.leb_le. specialize (Hanc p u).
    destruct (Htotal p (p +:+ "." +:+ u)); [done | lia]. }
  unfold js_sort. simpl. rewrite (Hle _ _ _ Hc). simpl. by rewrite (Hle _ _ _ Hb).
Qed.

(** Whatever the collation, a ['number'] row with an empty value leaves its
    path unset... *)
Lemma mapOptions_empty_number (localeCompare : string -> string -> Z) :
  mapOptions localeCompare [row "n" TNumber (Some "")] = Ok (VObject ∅).
Proof. reflexivity. Qed.

(** ... and a key under an array that is not an index makes the rows below
    it throw: [parseInt('x', 10)] is NaN, the array has no property of that
    name, and the assignment is to a property of [undefined]. *)
Lemma mapOptions_array_key (localeCompare : string -> string -> Z) :
  consistent localeCompare → ancestorsFirst localeCompare →
  mapOptions localeCompare
    [row "a" TArray None; row "a.x" TObject None; row "a.x.b" TString (Some "v")]
  = Throw TypeError.
Proof.
  intros Hcons Hanc. unfold mapOptions.
  rewrite (js_sort_chain localeCompare _ _ _ "x" "b" Hcons Hanc) by reflexivity.
  vm_compute. reflexivity.
Qed.

(** C1 as stated fails on prefix-closed rows in three ways: a ['number'] row
    whose value is empty is not parsed, its path stays unset; below a key of
    an array that is not an index, [mapOptions] throws instead of returning
    an object; and of two rows with the same path the later one is assigned
    last, so the path does not hold the value of the earlier one. *)
Lemma mapOptions_counterexample :
  (prefixClosed [row "n" TNumber (Some "")] ∧
   mapOptions codeUnitCompare [row "n" TNumber (Some "")] = Ok (VObject ∅) ∧
   getPath (VObject ∅) (split "n") = None) ∧
  (prefixClosed
     [row "a" TArray None; row "a.x" TObject None; row "a.x.b" TString (Some "v")] ∧
   mapOptions codeUnitCompare
     [row "a" TArray None; row "a.x" TObject None; row "a.x.b" TString (Some "v")]
   = Throw TypeError) ∧
  (prefixClosed [row "s" TString (Some "x"); row "s" TString (Some "y")] ∧
   mapOptions codeUnitCompare [row "s" TString (Some "x"); row "s" TString (Some "y")]
   = Ok (VObject {[ "s" := VString "y" ]}) ∧
   ¬ rowHolds (VObject {[ "s" := VString "y" ]}) (row "s" TString (Some "x"))).
Proof.
  split; [|split]; split.
  - apply prefixClosedb_correct. vm_compute. reflexivity.
  - split; reflexivity.
  - apply prefixClosedb_correct. vm_compute. reflexivity.
  - vm_compute. reflexivity.
  - apply prefixClosedb_correct. vm_compute. reflexivity.
  - split; [vm_compute; reflexivity |]. unfold rowHolds. simpl. discriminate.
Qed.

(** * Further properties *)

(** ** [addAtPath] and [mapOptions] on rows of any shape *)

Lemma assignAt_undefined (keys : list string) (lastKey : string) (v : value) :
  assignAt VUndefined keys lastKey (Some v) = Throw TypeError.
Proof. induction keys as [|k keys IH]; simpl; done. Qed.

(** Along a prefix that resolves, the walk behaves as from the value the
    prefix leads to. *)
Lemma assignAt_app_Throw (cur parent : value) (above rest : list string)
    (lastKey : string) (rhs : option value) (e : error) :
  resolves cur above → getPath cur above = Some parent →
  assignAt parent rest lastKey rhs = Throw e →
  assignAt cur (above ++ rest) lastKey rhs = Throw e.
Proof.
  revert cur. induction above as [|k above IH]; intros cur Hres Hget Hthrow; simpl in *.
  - by injection Hget as ->.
  - destruct cur; try done.
    + destruct Hres as (Hk & c & Hc & Hres). rewrite Hk, Hc.
      simpl in Hget. rewrite Hc in Hget. simpl in Hget.
      by rewrite (IH _ Hres Hget Hthrow).
    + destruct Hres as (c & Hc & Hres). rewrite Hc.
      simpl in Hget. rewrite Hc in Hget. simpl in Hget.
      by rewrite (IH _ Hres Hget Hthrow).
Qed.

Lemma pop_snoc (keys : list string) (lastKey : string) :
  pop (keys ++ [lastKey]) = (keys, lastKey).
Proof. unfold pop. by rewrite removelast_last, last_last. Qed.

(** X1.  A row that assigns throws a [TypeError] when a parent of its path
    is missing: the walk of [addAtPath] reads a property that the array or
    object it has reached does not have, goes on from [undefined], and the
    final assignment is to a property of [undefined].  This is for a walk
    that reads exact indices under arrays and whose missing key is not the
    name of a member that objects inherit. *)
Theorem addAtPath_missing_parent (obj parent : value) (item : MapOption)
    (above below : list string) (key lastKey : string) :
  split (path item) = above ++ key :: below ++ [lastKey] →
  resolves obj above →
  exactWalk obj (above ++ [key]) →
  getPath obj above = Some parent →
  match parent with
  | VObject m => m !! key = None
  | VArray m => m !! indexKey key = None
  | _ => False
  end →
  is_Some (assigned item) →
  addAtPath obj item = Throw TypeError.
Proof.
  intros Hsplit Hres _ Hget Hmissing [v Hv]. unfold addAtPath.
  replace (split (path item)) with ((above ++ key :: below) ++ [lastKey])
    by (by rewrite Hsplit, <- app_assoc).
  rewrite pop_snoc, Hv.
  apply (assignAt_app_Throw obj parent); [done | done |].
  destruct parent; try done; simpl; rewrite Hmissing, assignAt_undefined; done.
Qed.

Lemma addAtPath_missing_parent_witness :
  addAtPath (VObject {[ "a" := VObject ∅ ]}) (row "a.b.c" TString (Some "x"))
  = Throw TypeError.
Proof.
  apply (addAtPath_missing_parent (VObject {[ "a" := VObject ∅ ]}) (VObject ∅)
           (row "a.b.c" TString (Some "x")) ["a"] [] "b" "c").
  - reflexivity.
  - simpl. eexists. split; [reflexivity | by eexists].
  - simpl. compute_done.
  - reflexivity.
  - reflexivity.
  - by eexists.
Defined.

(** The walk leaves an object an object. *)
Lemma assignAt_object (m : gmap string value) (keys : list string) (lastKey : string)
    (rhs : option value) (cur' : value) :
  assignAt (VObject m) keys lastKey rhs = Ok cur' → ∃ m', cur' = VObject m'.
Proof.
  destruct keys as [|k keys]; simpl.
  - destruct rhs; intros [= <-]; eauto.
  - destruct (m !! k); intros H; inv_bind H; injection H as <-; eauto.
Qed.

Lemma forEach_Throw (e : error) (items : list MapOption) :
  foldl (fun acc item => result ← acc; addAtPath result item) (Throw e) items = Throw e.
Proof. induction items as [|item items IH]; simpl; done. Qed.

(** X2.  On rows whose paths are made of plain keys (no name of an
    inherited member, no [length], exact indices), [mapOptions] returns an
    object or throws a [TypeError]: it never returns an array or a scalar,
    and it throws nothing else. *)
Theorem mapOptions_outcome (localeCompare : string -> string -> Z)
    (options : list MapOption) :
  plainRows options →
  match mapOptions localeCompare options with
  | Ok v => ∃ m, v = VObject m
  | Throw e => e = TypeError
  end.
Proof.
  intros _.
  destruct (mapOptions localeCompare options) as [v|e] eqn:Hrun;
    [|by apply onlyTypeError_mapOptions in Hrun].
  unfold mapOptions in Hrun. revert Hrun.
  generalize (js_sort (fun a b => localeCompare (path a) (path b)) options).
  intros sorted. generalize (∅ : gmap string value).
  induction sorted as [|item sorted IH]; intros m; simpl.
  - intros [= <-]. eauto.
  - destruct (addAtPath (VObject m) item) as [obj|e] eqn:Hstep.
    + unfold addAtPath in Hstep. destruct (pop _).
      apply assignAt_object in Hstep as [m' ->]. apply IH.
    + by rewrite forEach_Throw.
Qed.

Lemma mapOptions_outcome_witness :
  plainRows someOptions ∧
  plainRows [row "a" TString (Some "x"); row "a.b" TNull None] ∧
  match mapOptions codeUnitCompare someOptions with
  | Ok v => ∃ m, v = VObject m
  | Throw e => e = TypeError
  end ∧
  match mapOptions codeUnitCompare [row "a" TString (Some "x"); row "a.b" TNull None] with
  | Ok v => ∃ m, v = VObject m
  | Throw e => e = TypeError
  end.
Proof.
  assert (plainRows someOptions) as H1 by (unfold plainRows, plainKey, exactIndex; compute_done).
  assert (plainRows [row "a" TString (Some "x"); row "a.b" TNull None]) as H2
    by (unfold plainRows, plainKey, exactIndex; compute_done).
  split; [exact H1 |]. split; [exact H2 |]. split.
  - exact (mapOptions_outcome codeUnitCompare someOptions H1).
  - exact (mapOptions_outcome codeUnitCompare _ H2).
Defined.

(** A walk that assigns nothing returns what it started from. *)
Lemma assignAt_nothing_unchanged (cur cur' : value) (keys : list string) (lastKey : string) :
  assignAt cur keys lastKey None = Ok cur' → cur' = cur.
Proof.
  revert cur cur'. induction keys as [|k keys IH]; intros cur cur'; simpl.
  - by intros [= <-].
  - destruct cur; try apply IH; try done.
    + destruct (props !! indexKey k) as [child|] eqn:Hk; intros H; inv_bind H;
        injection H as <-; [|done].
      apply IH in Ha as ->. by rewrite insert_id.
    + destruct (props !! k) as [child|] eqn:Hk; intros H; inv_bind H;
        injection H as <-; [|done].
      apply IH in Ha as ->. by rewrite insert_id.
Qed.

(** Stable sorting commutes with filtering. *)
Lemma sort_insert_filter {A} (cmp : A -> A -> Z) (P : A -> Prop) `{forall a, Decision (P a)}
    (a : A) (l : list A) :
  consistent cmp → StronglySorted (fun x y => cmp x y ≤ 0) l →
  filter P (sort_insert cmp a l) =
    if decide (P a) then sort_insert cmp a (filter P l) else filter P l.
Proof.
  intros [Htotal Htrans]. induction 1 as [|b l Hl IH Hb]; simpl.
  - rewrite filter_cons, filter_nil. by destruct (decide (P a)).
  - destruct (Z.leb_spec (cmp a b) 0) as [Hab|Hab].
    + rewrite (filter_cons _ a). destruct (decide (P a)); [|done].
      destruct (filter P (b :: l)) as [|c l'] eqn:Hf; [done |]. simpl.
      assert (c ∈ b :: l) as Hc.
      { assert (c ∈ filter P (b :: l)) as Hc by (rewrite Hf; left).
        by apply list_elem_of_filter in Hc as [_ ?]. }
      assert (cmp a c ≤ 0) as Hac.
      { apply elem_of_cons in Hc as [->|Hc]; [done |].
        rewrite Forall_forall in Hb. eauto. }
      by rewrite (proj2 (Z.leb_le _ _) Hac).
    + rewrite !(filter_cons _ b), IH.
      destruct (decide (P a)), (decide (P b)); simpl; try done.
      by rewrite (proj2 (Z.leb_gt _ _) Hab).
Qed.

Lemma js_sort_filter {A} (cmp : A -> A -> Z) (P : A -> Prop) `{forall a, Decision (P a)}
    (l : list A) :
  consistent cmp → js_sort cmp (filter P l) = filter P (js_sort cmp l).
Proof.
  intros Hcmp. induction l as [|a l IH]; [done |].
  change (js_sort cmp (a :: l)) with (sort_insert cmp a (js_sort cmp l)).
  rewrite sort_insert_filter by (done || by apply js_sort_sorted).
  rewrite filter_cons. destruct (decide (P a)); [|done].
  change (js_sort cmp (a :: filter P l)) with (sort_insert cmp a (js_sort cmp (filter P l))).
  by rewrite IH.
Qed.

Lemma consistent_on_paths (localeCompare : string -> string -> Z) :
  consistent localeCompare →
  consistent (fun a b : MapOption => localeCompare (path a) (path b)).
Proof. intros [Htotal Htrans]. split; [intros a b; apply Htotal | intros a b c; apply Htrans]. Qed.

(** X3.  Rows that assign nothing (a ['number'] row whose value is null or
    empty) do not contribute: whenever [mapOptions] returns, it returns the
    same object for the rows without them. *)
Theorem mapOptions_drop_unassigned (localeCompare : string -> string -> Z)
    (options : list MapOption) (obj : value) :
  consistent localeCompare →
  mapOptions localeCompare options = Ok obj →
  mapOptions localeCompare (filter (fun r => is_Some (assigned r)) options) = Ok obj.
Proof.
  intros Hcmp. unfold mapOptions.
  rewrite js_sort_filter by (by apply consistent_on_paths).
  generalize (js_sort (fun a b => localeCompare (path a) (path b)) options).
  intros sorted. generalize (VObject ∅).
  induction sorted as [|item sorted IH]; intros start; simpl; [done |].
  destruct (addAtPath start item) as [next|e] eqn:Hstep; [|by rewrite forEach_Throw].
  intros Hrun. rewrite filter_cons. destruct (decide (is_Some (assigned item))) as [Hs|Hn].
  - simpl. rewrite Hstep. by apply IH.
  - apply IH. replace start with next; [done |].
    unfold addAtPath in Hstep. destruct (pop _).
    destruct (assigned item); [exfalso; apply Hn; by eexists |].
    by apply assignAt_nothing_unchanged in Hstep.
Qed.

Lemma mapOptions_drop_unassigned_witness :
  mapOptions codeUnitCompare
    (filter (fun r => is_Some (assigned r))
       [row "b" TNumber (Some ""); row "a" TString (Some "x"); row "c.d" TNumber None])
  = Ok (VObject {[ "a" := VString "x" ]}).
Proof.
  apply mapOptions_drop_unassigned.
  - exact codeUnitCompare_consistent.
  - vm_compute. reflexivity.
Defined.

(** Two sorted arrangements of the same rows are equal when no two distinct
    rows tie. *)
Lemma sorted_unique {A} (R : A -> A -> Prop) (l1 l2 : list A) :
  (∀ a, R a a) →
  (∀ a b, a ∈ l1 → b ∈ l1 → R a b → R b a → a = b) →
  StronglySorted R l1 → StronglySorted R l2 → l1 ≡ₚ l2 → l1 = l2.
Proof.
  intros Hrefl. revert l2. induction l1 as [|a l1 IH]; intros l2 Hanti Hs1 Hs2 Hperm.
  - by apply Permutation_nil_l in Hperm.
  - destruct l2 as [|b l2]; [by apply Permutation_nil_r in Hperm |].
    apply StronglySorted_inv in Hs1 as [Hs1 Ha]. apply StronglySorted_inv in Hs2 as [Hs2 Hb].
    rewrite Forall_forall in Ha, Hb.
    assert (a = b) as <-.
    { apply Hanti; [left | rewrite Hperm; left | |].
      - assert (b ∈ a :: l1) as Hin by (rewrite Hperm; left).
        apply elem_of_cons in Hin as [->|Hin]; [apply Hrefl | by apply Ha].
      - assert (a ∈ b :: l2) as Hin by (rewrite <- Hperm; left).
        apply elem_of_cons in Hin as [->|Hin]; [apply Hrefl | by apply Hb]. }
    f_equal. apply IH; [| done | done | by apply Permutation_cons_inv in Hperm].
    intros x y Hx Hy. apply Hanti; by right.
Qed.

Lemma NoDup_fmap_elem {A B} (f : A -> B) (l : list A) (a b : A) :
  NoDup (f <$> l) → a ∈ l → b ∈ l → f a = f b → a = b.
Proof.
  intros Hnd Ha Hb Hf.
  apply list_elem_of_lookup in Ha as [i Hi]. apply list_elem_of_lookup in Hb as [j Hj].
  assert (i = j) as ->; [|congruence].
  eapply NoDup_lookup; [exact Hnd | |]; rewrite list_lookup_fmap.
  - by rewrite Hi.
  - rewrite Hj. simpl. by rewrite Hf.
Qed.

(** X4.  The result of [mapOptions] does not depend on the order in which
    the rows are given, provided their paths are pairwise distinct, the
    collation is a consistent comparator, and it lets no two of these paths
    tie. *)
Theorem mapOptions_Permutation (localeCompare : string -> string -> Z)
    (options1 options2 : list MapOption) :
  consistent localeCompare →
  (∀ r1 r2, r1 ∈ options1 → r2 ∈ options1 →
     localeCompare (path r1) (path r2) ≤ 0 → localeCompare (path r2) (path r1) ≤ 0 →
     path r1 = path r2) →
  NoDup (path <$> options1) →
  options1 ≡ₚ options2 →
  mapOptions localeCompare options1 = mapOptions localeCompare options2.
Proof.
  intros Hcmp Hanti Hnodup Hperm. unfold mapOptions.
  rewrite (sorted_unique (fun a b => localeCompare (path a) (path b) ≤ 0)
             (js_sort (fun a b => localeCompare (path a) (path b)) options1)
             (js_sort (fun a b => localeCompare (path a) (path b)) options2)); [done | | | | |].
  - intros a. destruct Hcmp as [Htotal _]. by destruct (Htotal (path a) (path a)).
  - intros a b Ha Hb Hab Hba. rewrite js_sort_Permutation in Ha, Hb.
    apply (NoDup_fmap_elem path options1); auto.
  - by apply js_sort_sorted, consistent_on_paths.
  - by apply js_sort_sorted, consistent_on_paths.
  - by rewrite !js_sort_Permutation.
Qed.

Lemma codeUnitCompare_antisym (p q : string) :
  codeUnitCompare p q ≤ 0 → codeUnitCompare q p ≤ 0 → p = q.
Proof.
  rewrite !codeUnitCompare_le, (String.compare_antisym q p).
  destruct (String.compare p q) eqn:E; simpl; try done.
  intros _ _. by apply String.compare_eq_iff.
Qed.

Lemma mapOptions_Permutation_witness :
  mapOptions codeUnitCompare someOptions = mapOptions codeUnitCompare (reverse someOptions).
Proof.
  apply mapOptions_Permutation.
  - exact codeUnitCompare_consistent.
  - intros r1 r2 _ _. apply codeUnitCompare_antisym.
  - compute_done.
  - by rewrite reverse_Permutation.
Defined.

(** ** The response of [byName] and the stored data *)

Lemma mapR_ext {A B} (f g : A -> result B) (l : list A) :
  (∀ a, a ∈ l → f a = g a) → mapR f l = mapR g l.
Proof.
  induction l as [|a l IH]; intros Hfg; simpl; [done |].
  rewrite (Hfg a) by left. rewrite IH; [done |]. intros b Hb. apply Hfg. by right.
Qed.

Lemma mapR_fmap {A B C} (f : B -> result C) (g : A -> B) (l : list A) :
  mapR f (g <$> l) = mapR (fun a => f (g a)) l.
Proof.
  induction l as [|a l IH]; [done |]. rewrite fmap_cons. cbn [mapR]. by rewrite IH.
Qed.

(** Filtering loaded rows by a test that only looks at what two loaders
    agree on keeps the same rows. *)
Lemma filterR_fmap {A B} (p : B -> result bool) (g : A -> B) (l : list A) :
  filterR p (g <$> l) =
    filterR (fun a => p (g a)) l ≫= fun kept : list A => Ok (g <$> kept).
Proof.
  induction l as [|a l IH]; [done |]. rewrite fmap_cons. cbn [filterR].
  destruct (p (g a)) as [keep|e]; simpl; [|done]. rewrite IH.
  destruct (filterR (fun a => p (g a)) l); simpl; [|done]. by destruct keep.
Qed.

Lemma mapSecret_lowEq (s1 s2 : SecretRow) : secretLowEq s1 s2 → mapSecret s1 = mapSecret s2.
Proof.
  intros (Hkey & Hvis & Hval & Hdef). unfold mapSecret.
  rewrite Hkey, (bool_decide_ext _ _ Hdef).
  destruct (decide (secret_visibility s1 = "private")) as [H1|H1].
  - by rewrite decide_True by (by apply Hvis).
  - rewrite decide_False by (by rewrite <- Hvis). by rewrite Hval.
Qed.

Lemma findFirst_lowEq (id : string) (apps1 apps2 : list AppRow) :
  Forall2 appLowEq apps1 apps2 →
  option_Forall2 appLowEq (findFirst (fun a => app_id a = id) apps1)
                          (findFirst (fun a => app_id a = id) apps2).
Proof.
  unfold findFirst. induction 1 as [|a1 a2 l1 l2 Ha _ IH]; simpl; [constructor |].
  rewrite !filter_cons. pose proof Ha as (Hid & _). rewrite <- Hid.
  destruct (decide (app_id a1 = id)); simpl; [by constructor | done].
Qed.

Lemma mapApp_lowEq (x1 x2 : MapApp) :
  ma_item x1 = ma_item x2 →
  option_Forall2 appLowEq (ma_app x1) (ma_app x2) →
  mapApp x1 = mapApp x2.
Proof.
  intros Hitem Happ. unfold mapApp. rewrite Hitem.
  destruct (deref (ma_item x2)) as [item|]; simpl; [|done].
  destruct (deref (head (iwl_layouts item))) as [li|]; simpl; [|done].
  destruct Happ as [a1 a2 (Hid & Hname & Hurl & Hicon & Hcodes & Hint)|]; simpl; [|done].
  rewrite Hname, Hurl, Hicon, Hcodes. do 2 f_equal.
  destruct Hint as [i1 i2 (Hiid & Hiname & Hsecrets)|]; simpl; [|done].
  rewrite Hiid, Hiname. do 2 f_equal.
  induction Hsecrets as [|s1 s2 l1 l2 Hs _ IH]; [done |].
  rewrite !fmap_cons, IH. by rewrite (mapSecret_lowEq _ _ Hs).
Qed.

(** X5.  The response of [byName] does not depend on the values of private
    secrets beyond their being defined: two databases that differ only in
    the [apps] table, row by row at most in the values of private secrets
    (each defined or not in both), give the same outcome to every query. *)
Theorem byName_hides_private_secrets (localeCompare : string -> string -> Z)
    (db : DB) (apps' : list AppRow) (input : ByNameInput) :
  Forall2 appLowEq (apps db) apps' →
  byName localeCompare (withApps db apps') input = byName localeCompare db input.
Proof.
  intros Hlow. symmetry. unfold byName, getFullBoardWithLayoutSectionsAsync. simpl.
  destruct (findFirst _ (boards db)) as [board|]; simpl; [|done].
  destruct (head _) as [layout|]; [|done].
  set (sectionIds := section_id <$> fl_sections layout).
  assert (getWidgetsForSectionsAsync (withApps db apps') sectionIds
          = getWidgetsForSectionsAsync db sectionIds) as -> by done.
  rewrite (mapR_ext _
    (fun section =>
       filteredApps ← filterR (fun x => inSection (section_id section) (ma_item x))
                        (getAppsForSectionsAsync (withApps db apps') sectionIds);
       filteredWidgets ← filterR (fun x => inSection (section_id section) (mw_item x))
                           (getWidgetsForSectionsAsync db sectionIds);
       mappedApps ← mapR mapApp filteredApps;
       mappedWidgets ← mapR (mapWidget localeCompare) filteredWidgets;
       Ok (mapSection section ((ItemApp <$> mappedApps) ++ (ItemWidget <$> mappedWidgets))))
    (fl_sections layout)); [done |].
  intros section _. unfold getAppsForSectionsAsync.
  destruct sectionIds as [|sid sids]; [done |].
  rewrite !filterR_fmap. simpl.
  destruct (filterR _ (appItems db)) as [kept|]; simpl; [|done].
  destruct (filterR _ _) as [filteredWidgets|]; simpl; [|done].
  rewrite !mapR_fmap.
  rewrite (mapR_ext _ (fun ai => mapApp (withAppAndItem (withApps db apps') (sid :: sids) ai))
             kept); [done |].
  intros ai _. apply mapApp_lowEq; [done |]. simpl. by apply findFirst_lowEq.
Qed.

Lemma byName_hides_private_secrets_witness :
  byName codeUnitCompare (withOtherSecrets (withSecrets homeDb)) homeInput
  = byName codeUnitCompare (withSecrets homeDb) homeInput.
Proof.
  apply (byName_hides_private_secrets codeUnitCompare (withSecrets homeDb)).
  vm_compute.
  repeat constructor; try discriminate.
  all: try (intros Hne; by destruct Hne).
  all: tauto.
Defined.

(** ** How the handlers compose *)

(** X6.  [byNameSimple] and [byName] answer for the same board: when
    [byName] returns, [byNameSimple] returns the row with the id, name and
    customization of that response, whose owner is the user of its
    [ownerId]. *)
Theorem byNameSimple_agrees (localeCompare : string -> string -> Z)
    (db : DB) (input : ByNameInput) (res : BoardOut) :
  byName localeCompare db input = Ok res →
  ∃ row, byNameSimple db (bn_boardName input) = Ok row ∧
         board_id row = bo_id res ∧
         board_name row = bo_name res ∧
         board_name row = bn_boardName input ∧
         board_customization row = bo_customization res ∧
         findFirst (fun u => user_id u = board_ownerId row) (users db) = bo_owner res.
Proof.
  unfold byName, byNameSimple, getFullBoardWithLayoutSectionsAsync. intros H.
  destruct (findFirst _ (boards db)) as [board|] eqn:Hboard; [|discriminate].
  simpl in H. destruct (head _); [|discriminate].
  inv_bind H. injection H as <-. simpl.
  apply findFirst_Some in Hboard as [_ Hname]. eauto 10.
Qed.

Lemma byNameSimple_agrees_witness :
  ∃ res, byName codeUnitCompare twoLayoutsDb homeInput = Ok res ∧
  ∃ row, byNameSimple twoLayoutsDb (bn_boardName homeInput) = Ok row ∧
         board_id row = bo_id res ∧
         board_name row = bo_name res ∧
         board_name row = bn_boardName homeInput ∧
         board_customization row = bo_customization res ∧
         findFirst (fun u => user_id u = board_ownerId row) (users twoLayoutsDb)
         = bo_owner res.
Proof.
  eexists. split; [vm_compute; reflexivity |].
  apply (byNameSimple_agrees codeUnitCompare twoLayoutsDb homeInput).
  vm_compute. reflexivity.
Defined.

Lemma findFirst_update_None {A} (P Q : A -> Prop) `{forall a, Decision (P a)}
    `{forall a, Decision (Q a)} (set : A -> A) (table : list A) :
  (∀ row, P (set row) ↔ P row) →
  findFirst P table = None → findFirst P (update Q set table) = None.
Proof.
  intros Hset. rewrite !findFirst_None. intros Hno (a & Ha & HPa).
  apply list_elem_of_fmap in Ha as (row & -> & Hrow).
  apply Hno. exists row. split; [done |].
  destruct (decide (Q row)); [by apply Hset | done].
Qed.

Lemma update_update {A} (P : A -> Prop) `{forall a, Decision (P a)} (set1 set2 : A -> A)
    (table : list A) :
  (∀ row, P (set1 row) ↔ P row) →
  (∀ row, set2 (set1 row) = set2 row) →
  update P set2 (update P set1 table) = update P set2 table.
Proof.
  intros HP Hset. unfold update. rewrite <- list_fmap_compose.
  apply list_fmap_ext. intros _ row _. simpl.
  destruct (decide (P row)) as [Hrow|Hrow].
  - rewrite decide_True by (by apply HP). apply Hset.
  - by rewrite decide_False.
Qed.

(** X7.  Of two successive updates of a board the second one wins: the
    database after both is the database after the second alone, and the
    second call returns the row as the first one left it. *)
Theorem updateCustomization_twice (db db1 : DB) (boardName : string)
    (c1 c2 : CustomizationInput) (dbBoard : BoardRow) :
  updateCustomization db boardName c1 = Ok (db1, dbBoard) →
  ∃ db2, updateCustomization db boardName c2 = Ok (db2, dbBoard) ∧
         updateCustomization db1 boardName c2 = Ok (db2, setCustomization c1 dbBoard).
Proof.
  unfold updateCustomization. intros H.
  destruct (findFirst _ (boards db)) as [b|] eqn:Hb; [|discriminate].
  injection H as <- <-. eexists. split; [reflexivity |]. simpl.
  erewrite findFirst_update; [|done | exact Hb].
  rewrite decide_True by done. simpl.
  by rewrite update_update.
Qed.

Lemma updateCustomization_twice_witness :
  ∃ db1 dbBoard db2,
    updateCustomization twoBoards "work" someCustomization = Ok (db1, dbBoard) ∧
    updateCustomization twoBoards "work" otherCustomization = Ok (db2, dbBoard) ∧
    updateCustomization db1 "work" otherCustomization
      = Ok (db2, setCustomization someCustomization dbBoard).
Proof.
  assert (∃ db1 dbBoard,
            updateCustomization twoBoards "work" someCustomization = Ok (db1, dbBoard))
    as (db1 & dbBoard & H) by (eexists _, _; vm_compute; reflexivity).
  destruct (updateCustomization_twice twoBoards db1 "work" someCustomization
              otherCustomization dbBoard H) as (db2 & H1 & H2).
  exists db1, dbBoard, db2. auto.
Defined.

(** X8.  [updateCustomization] changes what [byName] returns in the
    customization only, and only for the board with the id of the updated
    row: every query has the outcome it had before, with the new
    customization in place of the old one when it returns that board. *)
Theorem byName_after_updateCustomization (localeCompare : string -> string -> Z)
    (db db' : DB) (boardName : string) (customization : CustomizationInput)
    (dbBoard : BoardRow) (input : ByNameInput) :
  updateCustomization db boardName customization = Ok (db', dbBoard) →
  byName localeCompare db' input =
    byName localeCompare db input ≫= fun res =>
      Ok (if decide (bo_id res = board_id dbBoard)
          then withCustomization res
                 (board_customization (setCustomization customization dbBoard))
          else res).
Proof.
  unfold updateCustomization. intros H.
  destruct (findFirst _ (boards db)) as [b|] eqn:Hb; [|discriminate].
  injection H as <- <-.
  unfold byName, getFullBoardWithLayoutSectionsAsync. simpl.
  destruct (findFirst (fun b0 => board_name b0 = bn_boardName input) (boards db))
    as [board|] eqn:Hboard.
  - erewrite findFirst_update; [|done | exact Hboard]. simpl.
    assert (∀ row : BoardRow,
      board_id (if decide (board_id board = board_id b)
                then setCustomization customization board else board) = board_id board ∧
      board_ownerId (if decide (board_id board = board_id b)
                     then setCustomization customization board else board)
        = board_ownerId board ∧
      board_name (if decide (board_id board = board_id b)
                  then setCustomization customization board else board)
        = board_name board) as Hkeep by (intros _; by case_decide).
    destruct (Hkeep b) as (-> & -> & ->).
    destruct (head _) as [layout|]; [|done].
    destruct (mapR _ (fl_sections layout)) as [prepared|]; simpl; [|done].
    f_equal. by case_decide.
  - by erewrite findFirst_update_None.
Qed.

Lemma byName_after_updateCustomization_witness :
  ∃ db' dbBoard,
    updateCustomization homeDb "home" someCustomization = Ok (db', dbBoard) ∧
    byName codeUnitCompare db' homeInput =
      byName codeUnitCompare homeDb homeInput ≫= fun res =>
        Ok (if decide (bo_id res = board_id dbBoard)
            then withCustomization res
                   (board_customization (setCustomization someCustomization dbBoard))
            else res).
Proof.
  eexists _, _. split; [vm_compute; reflexivity |].
  apply (byName_after_updateCustomization codeUnitCompare homeDb _ "home" someCustomization).
  vm_compute. reflexivity.
Defined.

(** ** Where an item of the response gets its geometry *)

Lemma head_filter_iff {A} (P Q : A -> Prop) `{forall a, Decision (P a)}
    `{forall a, Decision (Q a)} (l : list A) :
  (∀ a, P a ↔ Q a) → head (filter P l) = head (filter Q l).
Proof. intros HPQ. by rewrite (list_filter_iff P Q l HPQ). Qed.

Lemma head_filter_Some {A} (P : A -> Prop) `{forall a, Decision (P a)} (l : list A) (a : A) :
  head (filter P l) = Some a → P a.
Proof. intros Hhd. by apply (findFirst_Some P l a) in Hhd as [_ ?]. Qed.

Lemma itemWithLayouts_head (db : DB) (sectionIds : list string) (itemId : string)
    (item : ItemWithLayouts) (li : LayoutItemRow) :
  itemWithLayouts db sectionIds itemId = Some item →
  head (iwl_layouts item) = Some li →
  findFirst (fun y => layoutItem_itemId y = layoutItem_itemId li ∧
                      layoutItem_sectionId y ∈ sectionIds) (layoutItems db) = Some li.
Proof.
  unfold itemWithLayouts. intros Hitem Hhd.
  destruct (findFirst _ (items db)) as [i|]; [|discriminate].
  simpl in Hitem. injection Hitem as <-. simpl in Hhd.
  pose proof (head_filter_Some _ _ _ Hhd) as [Hid _].
  unfold findFirst. rewrite <- Hhd. apply head_filter_iff.
  intros y. by rewrite Hid.
Qed.

Lemma mapApp_position (db : DB) (sectionIds : list string) (x : MapApp) (out : AppOut) :
  ma_item x = itemWithLayouts db sectionIds (ma_itemId x) →
  mapApp x = Ok out →
  ∃ li, findFirst (fun y => layoutItem_itemId y = ao_id out ∧
                            layoutItem_sectionId y ∈ sectionIds) (layoutItems db) = Some li ∧
        itemOutPosition (ItemApp out) = layoutItemPosition li.
Proof.
  intros Hitem H. unfold mapApp in H.
  inv_bind H. inv_bind H. inv_bind H. injection H as <-. simpl.
  apply deref_Ok in Ha, Ha0. rewrite Hitem in Ha.
  exists a0. split; [by eapply itemWithLayouts_head | done].
Qed.

Lemma mapWidget_position (localeCompare : string -> string -> Z) (db : DB)
    (sectionIds : list string) (x : MapWidget) (out : WidgetOut) :
  mw_item x = itemWithLayouts db sectionIds (mw_itemId x) →
  mapWidget localeCompare x = Ok out →
  ∃ li, findFirst (fun y => layoutItem_itemId y = wo_id out ∧
                            layoutItem_sectionId y ∈ sectionIds) (layoutItems db) = Some li ∧
        itemOutPosition (ItemWidget out) = layoutItemPosition li.
Proof.
  intros Hitem H. unfold mapWidget in H.
  inv_bind H. inv_bind H. inv_bind H. injection H as <-. simpl.
  apply deref_Ok in Ha, Ha0. rewrite Hitem in Ha.
  exists a0. split; [by eapply itemWithLayouts_head | done].
Qed.

Lemma byName_section_ids (localeCompare : string -> string -> Z) (db : DB)
    (input : ByNameInput) (res : BoardOut) (board : FullBoard) (layout : FullLayout) :
  byName localeCompare db input = Ok res →
  getFullBoardWithLayoutSectionsAsync db (bn_boardName input)
    (default "default" (bn_layout input)) = Some board →
  head (fb_layouts board) = Some layout →
  sec_id <$> bo_sections res = section_id <$> fl_sections layout.
Proof.
  intros H Hboard Hlayout.
  apply byName_Ok in H as (board' & layout' & Hboard' & Hlayout' & _ & Hsections).
  rewrite Hboard in Hboard'. injection Hboard' as <-.
  rewrite Hlayout in Hlayout'. injection Hlayout' as <-.
  simpl in Hsections.
  induction Hsections as [|row out rows outs (fA & fW & mA & mW & _ & _ & _ & _ & ->) _ IH];
    [done |].
  rewrite !fmap_cons, IH. f_equal.
  by destruct (mapSection_id row ((ItemApp <$> mA) ++ (ItemWidget <$> mW))) as (-> & _).
Qed.

(** X9.  The width, height, x and y of every item of the response are those
    of one stored layout item: the first layout item of that item, in table
    order, that lies in any section of the chosen layout.  So an item placed
    in several sections of the layout is shown in each of them with the
    geometry of its first placement. *)
Theorem byName_item_geometry (localeCompare : string -> string -> Z)
    (db : DB) (input : ByNameInput) (res : BoardOut) (section : SectionOut) (item : ItemOut) :
  byName localeCompare db input = Ok res →
  section ∈ bo_sections res →
  item ∈ sec_items section →
  ∃ li, findFirst (fun y => layoutItem_itemId y = itemOutId item ∧
                            layoutItem_sectionId y ∈ sec_id <$> bo_sections res)
                  (layoutItems db) = Some li ∧
        itemOutPosition item = layoutItemPosition li.
Proof.
  intros H Hsection Hitem.
  pose proof H as Hres.
  apply byName_Ok in H as (board & layout & Hboard & Hlayout & _ & Hsections).
  rewrite (byName_section_ids _ _ _ _ _ _ Hres Hboard Hlayout).
  simpl in Hsections.
  apply list_elem_of_lookup in Hsection as [i Hi].
  destruct (Forall2_lookup_r _ _ _ _ _ Hsections Hi)
    as (row & Hrow & fApps & fWidgets & mApps & mWidgets & HfA & HfW & HmA & HmW & ->).
  destruct (mapSection_id row ((ItemApp <$> mApps) ++ (ItemWidget <$> mWidgets)))
    as (_ & _ & Hitems).
  rewrite Hitems in Hitem. clear Hitems.
  apply filterR_Ok in HfA as [_ ->]. apply filterR_Ok in HfW as [_ ->].
  apply mapR_Ok in HmA, HmW.
  apply elem_of_app in Hitem as [Hitem|Hitem];
    apply list_elem_of_fmap in Hitem as (out & -> & Hout);
    apply list_elem_of_lookup in Hout as [j Hj].
  - destruct (Forall2_lookup_r _ _ _ _ _ HmA Hj) as (x & Hx & Hmap).
    apply list_elem_of_lookup_2, list_elem_of_filter in Hx as [_ Hx].
    unfold getAppsForSectionsAsync in Hx.
    destruct (section_id <$> fl_sections layout) as [|sid sids] eqn:Hids;
      [by apply elem_of_nil in Hx |].
    apply list_elem_of_fmap in Hx as (ai & -> & _).
    exact (mapApp_position db (sid :: sids) (withAppAndItem db (sid :: sids) ai) out
             eq_refl Hmap).
  - destruct (Forall2_lookup_r _ _ _ _ _ HmW Hj) as (x & Hx & Hmap).
    apply list_elem_of_lookup_2, list_elem_of_filter in Hx as [_ Hx].
    unfold getWidgetsForSectionsAsync in Hx.
    destruct (section_id <$> fl_sections layout) as [|sid sids] eqn:Hids;
      [by apply elem_of_nil in Hx |].
    apply list_elem_of_fmap in Hx as (w & -> & _).
    exact (mapWidget_position localeCompare db (sid :: sids)
             (withOptionsAndItem db (sid :: sids) w) out eq_refl Hmap).
Qed.

Lemma byName_item_geometry_witness :
  ∃ res section item,
    byName codeUnitCompare twoLayoutsDb homeInput = Ok res ∧
    bo_sections res !! 2%nat = Some section ∧
    sec_id section = "s9" ∧
    sec_items section = [item] ∧
    itemOutId item = "id15" ∧
    itemOutPosition item = {| width := 2; height := 1; x := 0; y := 0 |} ∧
    ∃ li, findFirst (fun y => layoutItem_itemId y = itemOutId item ∧
                              layoutItem_sectionId y ∈ sec_id <$> bo_sections res)
                    (layoutItems twoLayoutsDb) = Some li ∧
          itemOutPosition item = layoutItemPosition li.
Proof.
  eexists _, _, _. split; [vm_compute; reflexivity |].
  split; [reflexivity |]. split; [reflexivity |]. split; [reflexivity |].
  split; [reflexivity |]. split; [reflexivity |].
  eapply (byName_item_geometry codeUnitCompare twoLayoutsDb homeInput).
  - vm_compute. reflexivity.
  - apply (list_elem_of_lookup_2 _ 2%nat). reflexivity.
  - left.
Defined.

(** ** When [byName] returns *)

Lemma inSection_Ok_item (db : DB) (sectionIds : list string) (sectionId itemId : string)
    (b : bool) :
  inSection sectionId (itemWithLayouts db sectionIds itemId) = Ok b →
  ∃ i, i ∈ items db ∧ item_id i = itemId.
Proof.
  unfold inSection, itemWithLayouts. intros H.
  destruct (findFirst _ (items db)) as [i|] eqn:Hi; [|discriminate].
  apply findFirst_Some in Hi. eauto.
Qed.

Lemma mapApp_Ok_app (x : MapApp) (out : AppOut) :
  mapApp x = Ok out → ∃ app, ma_app x = Some app.
Proof.
  unfold mapApp. intros H. inv_bind H. inv_bind H. inv_bind H.
  apply deref_Ok in Ha1. eauto.
Qed.

Lemma mapWidget_Ok_options (localeCompare : string -> string -> Z) (x : MapWidget)
    (out : WidgetOut) :
  mapWidget localeCompare x = Ok out → ∃ o, mapOptions localeCompare (mw_options x) = Ok o.
Proof. unfold mapWidget. intros H. inv_bind H. inv_bind H. inv_bind H. eauto. Qed.

Lemma filterR_mapR_elem {A B} (p : A -> result bool) (f : A -> result B)
    (l filtered : list A) (mapped : list B) (a : A) :
  filterR p l = Ok filtered → mapR f filtered = Ok mapped →
  a ∈ l → p a = Ok true → ∃ b, f a = Ok b.
Proof.
  intros Hf Hm Ha Hp. apply filterR_Ok in Hf as [_ ->]. apply mapR_Ok in Hm.
  assert (a ∈ filter (fun a => p a = Ok true) l) as Hin by (by apply list_elem_of_filter).
  apply list_elem_of_lookup in Hin as [i Hi].
  destruct (Forall2_lookup_l _ _ _ _ _ Hm Hi) as (b & _ & Hb). eauto.
Qed.

(** X10.  [byName] returns a board exactly when the board and a layout of
    the requested name exist and either that layout has no section, or every
    [appItems] row and every widget refers to a stored item and, for those
    placed in a section of the layout, the app is stored and the options of
    the widget can be rebuilt.  Rows of other boards count as well: the
    queries load every [appItems] and [widgets] row. *)
Theorem byName_returns_iff (localeCompare : string -> string -> Z) (db : DB)
    (input : ByNameInput) :
  (∃ res, byName localeCompare db input = Ok res) ↔
  ∃ board layout,
    getFullBoardWithLayoutSectionsAsync db (bn_boardName input)
      (default "default" (bn_layout input)) = Some board ∧
    head (fb_layouts board) = Some layout ∧
    (fl_sections layout = [] ∨
     (∀ ai, ai ∈ appItems db →
        (∃ i, i ∈ items db ∧ item_id i = appItem_itemId ai) ∧
        (placed db (section_id <$> fl_sections layout) (appItem_itemId ai) →
         ∃ a, a ∈ apps db ∧ app_id a = appItem_appId ai)) ∧
     (∀ w, w ∈ widgets db →
        (∃ i, i ∈ items db ∧ item_id i = widget_itemId w) ∧
        (placed db (section_id <$> fl_sections layout) (widget_itemId w) →
         ∃ o, mapOptions localeCompare (widget_options w) = Ok o))).
Proof.
  split.
  - intros [res H].
    apply byName_Ok in H as (board & layout & Hboard & Hlayout & _ & Hsections).
    exists board, layout. split; [done |]. split; [done |].
    simpl in Hsections.
    destruct (fl_sections layout) as [|row0 rows] eqn:Hrows; [by left | right].
    rewrite <- Hrows in *.
    assert (∀ row, row ∈ fl_sections layout →
      ∃ fA fW mA mW,
        filterR (fun x => inSection (section_id row) (ma_item x))
          (withAppAndItem db (section_id <$> fl_sections layout) <$> appItems db) = Ok fA ∧
        filterR (fun x => inSection (section_id row) (mw_item x))
          (withOptionsAndItem db (section_id <$> fl_sections layout) <$> widgets db) = Ok fW ∧
        mapR mapApp fA = Ok mA ∧
        mapR (mapWidget localeCompare) fW = Ok mW) as Hrow.
    { intros row Hin. apply list_elem_of_lookup in Hin as [i Hi].
      destruct (Forall2_lookup_l _ _ _ _ _ Hsections Hi)
        as (out & _ & fA & fW & mA & mW & HfA & HfW & HmA & HmW & _).
      unfold getAppsForSectionsAsync in HfA. unfold getWidgetsForSectionsAsync in HfW.
      rewrite Hrows in HfA, HfW. rewrite fmap_cons in HfA, HfW. rewrite Hrows, fmap_cons.
      eauto 10. }
    assert (row0 ∈ fl_sections layout) as Hrow0 by (rewrite Hrows; left).
    split.
    + intros ai Hai. split.
      * destruct (Hrow row0 Hrow0) as (fA & _ & _ & _ & HfA & _).
        apply filterR_Ok in HfA as [HfA _]. rewrite Forall_fmap, Forall_forall in HfA.
        destruct (HfA ai Hai) as [b Hb]. simpl in Hb.
        exact (inSection_Ok_item _ _ _ _ _ Hb).
      * intros (sectionId & Hin & Hplaced).
        pose proof Hin as Hin'.
        apply list_elem_of_fmap in Hin' as (row & -> & Hin').
        destruct (Hrow row Hin') as (fA & _ & mA & _ & HfA & _ & HmA & _).
        pose proof HfA as Hall. apply filterR_Ok in Hall as [Hall _].
        rewrite Forall_fmap, Forall_forall in Hall. destruct (Hall ai Hai) as [b Hb].
        simpl in Hb.
        pose proof (inSection_spec _ _ _ _ _ Hin Hb) as Hspec.
        apply Hspec in Hplaced as ->.
        destruct (filterR_mapR_elem _ _ _ _ _ (withAppAndItem db (section_id <$> fl_sections layout) ai) HfA HmA)
          as [out Hout]; [by apply list_elem_of_fmap_2 | done |].
        apply mapApp_Ok_app in Hout as [app Happ]. simpl in Happ.
        apply findFirst_Some in Happ. eauto.
    + intros w Hw. split.
      * destruct (Hrow row0 Hrow0) as (_ & fW & _ & _ & _ & HfW & _).
        apply filterR_Ok in HfW as [HfW _]. rewrite Forall_fmap, Forall_forall in HfW.
        destruct (HfW w Hw) as [b Hb]. simpl in Hb.
        exact (inSection_Ok_item _ _ _ _ _ Hb).
      * intros (sectionId & Hin & Hplaced).
        pose proof Hin as Hin'.
        apply list_elem_of_fmap in Hin' as (row & -> & Hin').
        destruct (Hrow row Hin') as (_ & fW & _ & mW & _ & HfW & _ & HmW).
        pose proof HfW as Hall. apply filterR_Ok in Hall as [Hall _].
        rewrite Forall_fmap, Forall_forall in Hall. destruct (Hall w Hw) as [b Hb].
        simpl in Hb.
        pose proof (inSection_spec _ _ _ _ _ Hin Hb) as Hspec.
        apply Hspec in Hplaced as ->.
        destruct (filterR_mapR_elem _ _ _ _ _ (withOptionsAndItem db (section_id <$> fl_sections layout) w) HfW HmW)
          as [out Hout]; [by apply list_elem_of_fmap_2 | done |].
        by apply mapWidget_Ok_options in Hout.
  - intros (board & layout & Hboard & Hlayout & Hcond).
    unfold byName. rewrite Hboard, Hlayout.
    destruct Hcond as [Hnil|[Happs Hwidgets]]; [rewrite Hnil; simpl; eauto |].
    set (rows := fl_sections layout) in *.
    destruct (mapR_total
      (fun section =>
         filteredApps ← filterR (fun x => inSection (section_id section) (ma_item x))
                          (getAppsForSectionsAsync db (section_id <$> rows));
         filteredWidgets ← filterR (fun x => inSection (section_id section) (mw_item x))
                             (getWidgetsForSectionsAsync db (section_id <$> rows));
         mappedApps ← mapR mapApp filteredApps;
         mappedWidgets ← mapR (mapWidget localeCompare) filteredWidgets;
         Ok (mapSection section ((ItemApp <$> mappedApps) ++ (ItemWidget <$> mappedWidgets))))
      rows) as [prepared Hprepared]; [|rewrite Hprepared; simpl; eauto].
    apply Forall_forall. intros section Hsection.
    assert (section_id section ∈ section_id <$> rows) as Hin
      by (by apply list_elem_of_fmap_2).
    unfold getAppsForSectionsAsync, getWidgetsForSectionsAsync.
    destruct (section_id <$> rows) as [|sid sids] eqn:Hids; [by apply elem_of_nil in Hin |].
    destruct (filterR_total (fun x => inSection (section_id section) (ma_item x))
                (withAppAndItem db (sid :: sids) <$> appItems db)) as [fApps HfApps].
    { apply Forall_fmap, Forall_forall. intros ai Hai.
      destruct (Happs ai Hai) as [(i & Hi & Hid) _]. by eapply inSection_total. }
    destruct (filterR_total (fun x => inSection (section_id section) (mw_item x))
                (withOptionsAndItem db (sid :: sids) <$> widgets db)) as [fWidgets HfWidgets].
    { apply Forall_fmap, Forall_forall. intros w Hw.
      destruct (Hwidgets w Hw) as [(i & Hi & Hid) _]. by eapply inSection_total. }
    rewrite HfApps, HfWidgets. simpl.
    apply filterR_Ok in HfApps as [_ ->]. apply filterR_Ok in HfWidgets as [_ ->].
    destruct (mapR_total mapApp
      (filter (fun x => inSection (section_id section) (ma_item x) = Ok true)
              (withAppAndItem db (sid :: sids) <$> appItems db))) as [mApps ->].
    { apply Forall_forall. intros x Hx. apply list_elem_of_filter in Hx as [Htrue Hx].
      apply list_elem_of_fmap in Hx as (ai & -> & Hai).
      destruct (inSection_true_head _ _ Htrue) as (i & li & Hi & Hli).
      simpl in Htrue. pose proof (inSection_spec _ _ _ _ _ Hin Htrue) as Hspec.
      destruct (Happs ai Hai) as [_ Happ].
      destruct Happ as (a & Ha & Hid);
        [exists (section_id section); split; [done | by apply Hspec] |].
      destruct (findFirst_is_Some (fun a => app_id a = appItem_appId ai) _ _ Ha Hid)
        as [a' Ha'].
      unfold mapApp. rewrite Hi. simpl. rewrite Hli. simpl in *. rewrite Ha'. simpl. eauto. }
    destruct (mapR_total (mapWidget localeCompare)
      (filter (fun x => inSection (section_id section) (mw_item x) = Ok true)
              (withOptionsAndItem db (sid :: sids) <$> widgets db))) as [mWidgets ->].
    { apply Forall_forall. intros x Hx. apply list_elem_of_filter in Hx as [Htrue Hx].
      apply list_elem_of_fmap in Hx as (w & -> & Hw).
      destruct (inSection_true_head _ _ Htrue) as (i & li & Hi & Hli).
      simpl in Htrue. pose proof (inSection_spec _ _ _ _ _ Hin Htrue) as Hspec.
      destruct (Hwidgets w Hw) as [_ Hopts].
      destruct Hopts as (o & Ho);
        [exists (section_id section); split; [done | by apply Hspec] |].
      unfold mapWidget. rewrite Hi. simpl. rewrite Hli. simpl in *. rewrite Ho. simpl. eauto. }
    simpl. eauto.
Qed.

(** ** [addAppsForContainers] on a config it has written *)

Lemma sort_insert_least {A} (cmp : A -> A -> Z) (a : A) (l : list A) :
  Forall (fun b => cmp a b ≤ 0) l → sort_insert cmp a l = a :: l.
Proof.
  destruct 1 as [|b l Hb _]; simpl; [done |].
  by rewrite (proj2 (Z.leb_le _ _) Hb).
Qed.

Lemma js_sort_sorted_id {A} (cmp : A -> A -> Z) (l : list A) :
  StronglySorted (fun a b => cmp a b ≤ 0) l → js_sort cmp l = l.
Proof.
  induction 1 as [|a l _ IH Ha]; [done |].
  unfold js_sort in *. simpl. rewrite IH. by apply sort_insert_least.
Qed.

Lemma mapR_length {A B} (f : A -> result B) (l : list A) (bs : list B) :
  mapR f l = Ok bs → length bs = length l.
Proof. intros H. apply mapR_Ok in H. symmetry. by eapply Forall2_length. Qed.

(** X11.  The config that [addAppsForContainers] writes has its wrappers in
    ascending order of position, and a later call on that board leaves the
    wrappers exactly as they are: it only appends one app per container. *)
Theorem addAppsForContainers_sorts_wrappers (generateDefaultApp : string -> nat -> ConfigApp)
    (configs configs' : gmap string Config) (boardName : string)
    (containers : list Container) :
  addAppsForContainers generateDefaultApp configs boardName containers = Ok configs' →
  ∃ config',
    configs' !! boardName = Some config' ∧
    StronglySorted (fun a b => wrapper_position a ≤ wrapper_position b)
                   (cfg_wrappers config') ∧
    ∀ containers2 configs'',
      addAppsForContainers generateDefaultApp configs' boardName containers2 = Ok configs'' →
      ∃ config'' newApps,
        configs'' !! boardName = Some config'' ∧
        cfg_wrappers config'' = cfg_wrappers config' ∧
        cfg_rest config'' = cfg_rest config' ∧
        cfg_apps config'' = cfg_apps config' ++ newApps ∧
        length newApps = length containers2.
Proof.
  intros H.
  destruct (configs !! boardName) as [config|] eqn:Hconfig;
    [|by rewrite addAppsForContainers_missing in H].
  rewrite (addAppsForContainers_existing _ _ _ _ _ Hconfig) in H. simpl in H.
  inv_bind H. injection H as <-.
  eexists. split; [apply lookup_insert_eq |]. simpl.
  assert (StronglySorted (fun a b => wrapper_position a - wrapper_position b ≤ 0)
            (js_sort (fun a b => wrapper_position a - wrapper_position b)
                     (cfg_wrappers config))) as Hsorted
    by apply js_sort_sorted, wrapper_cmp_consistent.
  split.
  - eapply StronglySorted_weaken; [|exact Hsorted]. intros x y. simpl. lia.
  - intros containers2 configs'' H2.
    rewrite (addAppsForContainers_existing _ _ _ _ _ (lookup_insert_eq _ _ _)) in H2.
    simpl in H2. rewrite (js_sort_sorted_id _ _ Hsorted) in H2.
    inv_bind H2. injection H2 as <-.
    eexists _, a0. split; [apply lookup_insert_eq |]. simpl.
    split; [done |]. split; [done |]. split; [done |].
    apply mapR_length in Ha0. by rewrite Ha0, length_imap.
Qed.

Lemma addAppsForContainers_sorts_wrappers_witness :
  ∃ written,
    addAppsForContainers defaultApp {[ "home" := someConfig twoWrappers ]} "home"
      [ {| container_name := "plex"; container_port := Some 32400 |} ]
    = Ok (<[ "home" := written ]> {[ "home" := someConfig twoWrappers ]}) ∧
    cfg_wrappers written = [ {| wrapper_id := "w1"; wrapper_position := 1 |};
                             {| wrapper_id := "w2"; wrapper_position := 2 |} ] ∧
    ∃ config',
      (<[ "home" := written ]> {[ "home" := someConfig twoWrappers ]}
         : gmap string Config) !! "home" = Some config' ∧
      StronglySorted (fun a b => wrapper_position a ≤ wrapper_position b)
                     (cfg_wrappers config') ∧
      ∀ containers2 configs'',
        addAppsForContainers defaultApp
          (<[ "home" := written ]> {[ "home" := someConfig twoWrappers ]})
          "home" containers2 = Ok configs'' →
        ∃ config'' newApps,
          configs'' !! "home" = Some config'' ∧
          cfg_wrappers config'' = cfg_wrappers config' ∧
          cfg_rest config'' = cfg_rest config' ∧
          cfg_apps config'' = cfg_apps config' ++ newApps ∧
          length newApps = length containers2.
Proof.
  eexists. split; [reflexivity |]. split; [reflexivity |].
  apply (addAppsForContainers_sorts_wrappers defaultApp
           {[ "home" := someConfig twoWrappers ]} _ "home"
           [ {| container_name := "plex"; container_port := Some 32400 |} ]).
  reflexivity.
Defined.

(** ** [all] *)

Lemma string_app_cons (c : ascii) (s t : string) : String c s +:+ t = String c (s +:+ t).
Proof. reflexivity. Qed.

Lemma string_app_nil_l (s : string) : "" +:+ s = s.
Proof. reflexivity. Qed.

Lemma string_app_nil_r (s : string) : s +:+ "" = s.
Proof.
  induction s as [|c s IH]; [done |]. by rewrite string_app_cons, IH.
Qed.

Lemma string_app_length (s t : string) :
  String.length (s +:+ t) = (String.length s + String.length t)%nat.
Proof.
  induction s as [|c s IH]; [done |]. rewrite string_app_cons. simpl. by rewrite IH.
Qed.

Lemma endsWith_spec (s search : string) :
  endsWith s search = true ↔ ∃ pre, s = pre +:+ search.
Proof.
  induction s as [|c s IH]; simpl.
  - rewrite orb_false_r, bool_decide_eq_true. split.
    + intros <-. by exists "".
    + intros [pre H]. destruct pre; [done | discriminate].
  - rewrite orb_true_iff, bool_decide_eq_true, IH. split.
    + intros [<-|[pre ->]]; [by exists "" | by exists (String c pre)].
    + intros [pre H]. destruct pre as [|c' pre]; [by left | right].
      rewrite string_app_cons in H. injection H as _ ->. eauto.
Qed.

Lemma stripPrefix_spec (search s rest : string) :
  stripPrefix search s = Some rest ↔ s = search +:+ rest.
Proof.
  revert s. induction search as [|a search IH]; intros s; simpl.
  - rewrite string_app_nil_l. split; congruence.
  - rewrite string_app_cons. destruct s as [|b s]; [split; discriminate |].
    case_decide as Hab.
    + subst b. rewrite IH. split; congruence.
    + split; [discriminate | congruence].
Qed.

(** Removing the first occurrence of a suffix that occurs nowhere else
    leaves what stands before it. *)
Lemma replace_suffix (search pre : string) :
  onlyAtEnd search (pre +:+ search) → replace (pre +:+ search) search "" = pre.
Proof.
  induction pre as [|c pre IH]; intros Honly.
  - rewrite string_app_nil_l in *.
    assert (stripPrefix search search = Some "") as H
      by (apply stripPrefix_spec; by rewrite string_app_nil_r).
    destruct search as [|a search]; [done |]. cbn [replace]. by rewrite H.
  - rewrite string_app_cons in *. cbn [replace].
    destruct (stripPrefix search (String c (pre +:+ search))) as [rest|] eqn:Hrest.
    + apply stripPrefix_spec in Hrest.
      pose proof (Honly "" rest Hrest) as ->.
      rewrite string_app_nil_r in Hrest.
      apply (f_equal String.length) in Hrest. simpl in Hrest.
      rewrite string_app_length in Hrest. lia.
    + f_equal. apply IH. intros p q Hpq.
      apply (Honly (String c p) q). rewrite string_app_cons. by f_equal.
Qed.

Lemma onlyAtEndb_correct (search s : string) :
  onlyAtEndb search s = true → onlyAtEnd search s.
Proof.
  induction s as [|c s IH]; simpl; intros H pre post Hs.
  - destruct pre; [|discriminate]. rewrite string_app_nil_l in Hs.
    apply stripPrefix_spec in Hs. rewrite Hs in H. by destruct post.
  - destruct pre as [|c' pre].
    + rewrite string_app_nil_l in Hs.
      apply stripPrefix_spec in Hs. rewrite Hs in H. by destruct post.
    + rewrite string_app_cons in Hs. injection Hs as _ Hs.
      apply (IH (ltac:(by destruct (stripPrefix search _) as [[|]|])) pre). done.
Qed.

(** [replace] removes the first occurrence of what it searches for. *)
Lemma replace_removesFirst (search s : string) :
  (∃ pre post, s = pre +:+ search +:+ post) →
  removesFirst search s (replace s search "").
Proof.
  induction s as [|c s IH]; intros (pre & post & Hs); cbn [replace].
  - destruct (stripPrefix search "") as [rest|] eqn:Hrest.
    + apply stripPrefix_spec in Hrest. exists "", rest.
      rewrite !string_app_nil_l. split; [done |]. split; [done |]. simpl. lia.
    + destruct pre; [|discriminate]. rewrite string_app_nil_l in Hs.
      apply stripPrefix_spec in Hs. congruence.
  - destruct (stripPrefix search (String c s)) as [rest|] eqn:Hrest.
    + apply stripPrefix_spec in Hrest. exists "", rest.
      rewrite !string_app_nil_l. split; [done |]. split; [done |]. simpl. lia.
    + destruct pre as [|c' pre].
      { rewrite string_app_nil_l in Hs. apply stripPrefix_spec in Hs. congruence. }
      rewrite string_app_cons in Hs. injection Hs as <- Hs.
      destruct IH as (pre1 & post1 & Hs1 & Hout & Hmin); [by eauto |].
      exists (String c pre1), post1. rewrite !string_app_cons.
      split; [by f_equal |]. split; [by f_equal |].
      intros pre' post' Hs'. destruct pre' as [|c'' pre'].
      { rewrite string_app_nil_l in Hs'. apply stripPrefix_spec in Hs'. congruence. }
      rewrite string_app_cons in Hs'. injection Hs' as _ Hs'.
      simpl. apply le_n_S. by eapply Hmin.
Qed.

Lemma boardSummary_Some (getFrontendConfig : string -> option FrontendConfig)
    (defaultBoard file : string) (b : BoardSummary) :
  boardSummary getFrontendConfig defaultBoard file = Some b →
  bs_name b = replace file ".json" "" ∧
  ∃ config,
    getFrontendConfig (bs_name b) = Some config ∧
    bs_countApps b = length (fc_apps config) ∧
    bs_countWidgets b = length (fc_widgets config) ∧
    bs_countCategories b = length (fc_categories config) ∧
    (bs_isDefaultForUser b = true ↔ bs_name b = defaultBoard).
Proof.
  unfold boardSummary. intros Hb.
  destruct (getFrontendConfig (replace file ".json" "")) as [config|] eqn:Hconfig;
    [|discriminate].
  simpl in Hb. injection Hb as <-. split; [done |]. exists config. simpl.
  by rewrite bool_decide_eq_true.
Qed.

Lemma boardSummary_is_Some (getFrontendConfig : string -> option FrontendConfig)
    (defaultBoard file : string) :
  is_Some (boardSummary getFrontendConfig defaultBoard file)
  ↔ is_Some (getFrontendConfig (replace file ".json" "")).
Proof.
  unfold boardSummary.
  destruct (getFrontendConfig (replace file ".json" "")) as [config|]; simpl.
  - split; intros _; by eexists.
  - split; intros [? ?]; discriminate.
Qed.

(** X12.  [all] answers exactly when [getFrontendConfig] gives a config for
    the name of every file of the config directory that ends in [.json],
    the name of a file being the file name without its first [.json].  It
    then answers with one entry per such file, in directory order: the entry
    has the name of the file, the counts of the frontend config of that
    name, and is flagged as the default exactly when the name is the user's
    default board.  For a file name in which [.json] occurs at the end only,
    the name is the file name without that extension. *)
Theorem all_lists_config_files (getDefaultBoardAsync : string -> string -> string)
    (getFrontendConfig : string -> option FrontendConfig)
    (readdir : list string) (sessionUserId : string) :
  (is_Some (all getDefaultBoardAsync getFrontendConfig readdir sessionUserId)
   ↔ Forall (fun file => is_Some (getFrontendConfig (replace file ".json" "")))
       (filter (fun file => endsWith file ".json" = true) readdir)) ∧
  (∀ boards,
     all getDefaultBoardAsync getFrontendConfig readdir sessionUserId = Some boards →
     Forall2 (fun file b =>
                bs_name b = replace file ".json" "" ∧
                removesFirst ".json" file (bs_name b) ∧
                (onlyAtEnd ".json" file → bs_name b +:+ ".json" = file) ∧
                ∃ config,
                  getFrontendConfig (bs_name b) = Some config ∧
                  bs_countApps b = length (fc_apps config) ∧
                  bs_countWidgets b = length (fc_widgets config) ∧
                  bs_countCategories b = length (fc_categories config) ∧
                  (bs_isDefaultForUser b = true ↔
                   bs_name b = getDefaultBoardAsync sessionUserId "default"))
             (filter (fun file => endsWith file ".json" = true) readdir) boards).
Proof.
  unfold all. split.
  - rewrite mapM_is_Some. apply Forall_proper; [|done].
    intros file. apply boardSummary_is_Some.
  - intros boards H. apply mapM_Some in H.
    assert (Forall (fun file => endsWith file ".json" = true)
              (filter (fun file => endsWith file ".json" = true) readdir)) as Hfiles.
    { apply Forall_forall. intros file Hin. by apply list_elem_of_filter in Hin as [? ?]. }
    induction H as [|file b files boards Hb _ IH]; [constructor |].
    apply Forall_cons in Hfiles as [Hends Hfiles].
    constructor; [|by apply IH].
    apply boardSummary_Some in Hb as [Hname Hconfig].
    apply endsWith_spec in Hends as [pre Hpre].
    split; [done |]. split; [|split; [|done]].
    + rewrite Hname. apply replace_removesFirst. exists pre, "".
      by rewrite string_app_nil_r.
    + intros Honly. rewrite Hname, Hpre. rewrite Hpre in Honly.
      by rewrite replace_suffix.
Qed.

Lemma all_lists_config_files_witness :
  ∃ boards,
    all fallbackBoard someFrontendConfig someDirectory "u1" = Some boards ∧
    bs_name <$> boards = ["default"; "media"] ∧
    bs_isDefaultForUser <$> boards = [true; false] ∧
    Forall2 (fun file b =>
               bs_name b = replace file ".json" "" ∧
               removesFirst ".json" file (bs_name b) ∧
               (onlyAtEnd ".json" file → bs_name b +:+ ".json" = file) ∧
               ∃ config,
                 someFrontendConfig (bs_name b) = Some config ∧
                 bs_countApps b = length (fc_apps config) ∧
                 bs_countWidgets b = length (fc_widgets config) ∧
                 bs_countCategories b = length (fc_categories config) ∧
                 (bs_isDefaultForUser b = true ↔ bs_name b = fallbackBoard "u1" "default"))
            (filter (fun file => endsWith file ".json" = true) someDirectory) boards.
Proof.
  eexists. split; [vm_compute; reflexivity |].
  split; [reflexivity |]. split; [reflexivity |].
  apply (proj2 (all_lists_config_files fallbackBoard someFrontendConfig someDirectory "u1")).
  vm_compute. reflexivity.
Defined.

(** ** [byName] on a database made of two separate parts *)

Lemma filter_none {A} (Pr : A -> Prop) `{forall a, Decision (Pr a)} (l : list A) :
  Forall (fun a => ¬ Pr a) l → filter Pr l = [].
Proof.
  induction 1 as [|a l Ha _ IH]; [done |]. by rewrite filter_cons, decide_False.
Qed.

Lemma merged_filter {A} (Pr : A -> Prop) `{forall a, Decision (Pr a)} (lP lQ lD : list A) :
  merged lP lQ lD → Forall (fun a => ¬ Pr a) lQ → filter Pr lD = filter Pr lP.
Proof.
  intros [-> | ->] HQ; rewrite filter_app, (filter_none Pr lQ HQ); [apply app_nil_r | done].
Qed.

Lemma merged_findFirst {A} (Pr : A -> Prop) `{forall a, Decision (Pr a)}
    (lP lQ lD : list A) :
  merged lP lQ lD → Forall (fun a => ¬ Pr a) lQ → findFirst Pr lD = findFirst Pr lP.
Proof. intros Hm HQ. unfold findFirst. by rewrite (merged_filter Pr lP lQ lD). Qed.

Lemma merged_elem_Q {A} (lP lQ lD : list A) (a : A) : merged lP lQ lD → a ∈ lQ → a ∈ lD.
Proof. intros [-> | ->] Ha; apply elem_of_app; auto. Qed.

Lemma merged_fmap {A B} (f : A -> B) (lP lQ lD : list A) :
  merged lP lQ lD → merged (f <$> lP) (f <$> lQ) (f <$> lD).
Proof. intros [-> | ->]; rewrite fmap_app; [by left | by right]. Qed.

Lemma filterR_app {A} (p : A -> result bool) (l1 l2 : list A) :
  filterR p (l1 ++ l2) =
    filterR p l1 ≫= fun r1 => filterR p l2 ≫= fun r2 => Ok (r1 ++ r2).
Proof.
  induction l1 as [|a l1 IH]; simpl.
  - by destruct (filterR p l2).
  - destruct (p a) as [keep|]; simpl; [|done]. rewrite IH.
    destruct (filterR p l1); simpl; [|done].
    destruct (filterR p l2); simpl; [|done]. by destruct keep.
Qed.

Lemma filterR_none {A} (p : A -> result bool) (l : list A) :
  Forall (fun a => p a = Ok false) l → filterR p l = Ok [].
Proof. induction 1 as [|a l Ha _ IH]; simpl; [done |]. by rewrite Ha, IH. Qed.

Lemma merged_filterR {A} (p : A -> result bool) (lP lQ lD : list A) :
  merged lP lQ lD → Forall (fun a => p a = Ok false) lQ → filterR p lD = filterR p lP.
Proof.
  intros [-> | ->] HQ; rewrite filterR_app, (filterR_none p lQ HQ); simpl.
  - destruct (filterR p lP); simpl; [by rewrite app_nil_r | done].
  - by destruct (filterR p lP).
Qed.

Section Merged.
Variable localeCompare : string -> string -> Z.
Variables P Q D : DB.
Hypothesis Hmerged : mergedDb P Q D.
Hypothesis Hsep : separate P Q.

(** An item that a row of [P] refers to is loaded from [D] as from [P]. *)
Lemma merged_itemWithLayouts_P (ids : list string) (ref : string) :
  ref ∈ itemRefs P →
  (∀ s, s ∈ ids → s ∈ section_id <$> sections P) →
  itemWithLayouts D ids ref = itemWithLayouts P ids ref.
Proof.
  intros Href Hids.
  destruct Hmerged as (_ & _ & _ & Hitems & _ & _ & _ & HlayoutItems).
  destruct Hsep as (_ & _ & Hsections & Hrefs & _ & _ & _).
  unfold itemWithLayouts.
  rewrite (merged_findFirst _ _ _ _ Hitems).
  2:{ eapply Forall_impl; [exact Hrefs |]. intros i Hi Heq. apply Hi. by rewrite Heq. }
  destruct (findFirst _ (items P)) as [item|]; simpl; [|done]. do 2 f_equal.
  apply (merged_filter _ _ _ _ HlayoutItems).
  eapply Forall_impl; [exact Hsections |]. intros li Hli [_ Hin]. auto.
Qed.

(** An item that a row of [Q] refers to has no layout item in a section of
    [P]. *)
Lemma merged_itemWithLayouts_Q (ids : list string) (sectionId ref : string) :
  ref ∈ itemRefs Q →
  (∀ s, s ∈ ids → s ∈ section_id <$> sections P) →
  inSection sectionId (itemWithLayouts D ids ref) = Ok false.
Proof.
  intros Href Hids.
  destruct Hmerged as (_ & _ & _ & Hitems & _ & _ & _ & HlayoutItems).
  destruct Hsep as (_ & _ & Hsections & _ & _ & Hplaced & Hintegrity).
  rewrite Forall_forall in Hintegrity. destruct (Hintegrity ref Href) as (i & Hi & Hid).
  destruct (findFirst_is_Some (fun i => item_id i = ref) (items D) i) as [item Hitem];
    [by eapply merged_elem_Q | done |].
  unfold inSection, itemWithLayouts. rewrite Hitem. simpl.
  apply findFirst_Some in Hitem as [_ Hitem].
  rewrite (merged_filter _ _ _ _ HlayoutItems).
  2:{ eapply Forall_impl; [exact Hsections |]. intros li Hli [_ Hin]. auto. }
  rewrite filter_none.
  2:{ eapply Forall_impl; [exact Hplaced |]. intros li Hli [Heq _].
      apply Hli. by rewrite Heq, Hitem. }
  done.
Qed.

Lemma merged_filter_apps (ids : list string) (sectionId : string) :
  (∀ s, s ∈ ids → s ∈ section_id <$> sections P) →
  filterR (fun x => inSection sectionId (ma_item x)) (withAppAndItem D ids <$> appItems D)
  = filterR (fun x => inSection sectionId (ma_item x)) (withAppAndItem P ids <$> appItems P).
Proof.
  intros Hids.
  pose proof Hmerged as (_ & _ & _ & _ & Happs & HappItems & _ & _).
  pose proof Hsep as (_ & _ & _ & _ & Hids' & _ & _).
  rewrite (merged_filterR _ _ _ _ (merged_fmap (withAppAndItem D ids) _ _ _ HappItems)).
  2:{ apply Forall_fmap, Forall_forall. intros ai Hai. simpl.
      apply merged_itemWithLayouts_Q; [|done].
      apply elem_of_app. left. by apply list_elem_of_fmap_2. }
  f_equal. apply list_fmap_ext. intros _ ai Hai%list_elem_of_lookup_2.
  unfold withAppAndItem. f_equal.
  - apply (merged_findFirst _ _ _ _ Happs).
    eapply Forall_impl; [exact Hids' |]. intros a Ha Heq. apply Ha.
    rewrite Heq. by apply list_elem_of_fmap_2.
  - apply merged_itemWithLayouts_P; [|done].
    apply elem_of_app. left. by apply list_elem_of_fmap_2.
Qed.

Lemma merged_filter_widgets (ids : list string) (sectionId : string) :
  (∀ s, s ∈ ids → s ∈ section_id <$> sections P) →
  filterR (fun x => inSection sectionId (mw_item x))
          (withOptionsAndItem D ids <$> widgets D)
  = filterR (fun x => inSection sectionId (mw_item x))
            (withOptionsAndItem P ids <$> widgets P).
Proof.
  intros Hids.
  pose proof Hmerged as (_ & _ & _ & _ & _ & _ & Hwidgets & _).
  rewrite (merged_filterR _ _ _ _ (merged_fmap (withOptionsAndItem D ids) _ _ _ Hwidgets)).
  2:{ apply Forall_fmap, Forall_forall. intros w Hw. simpl.
      apply merged_itemWithLayouts_Q; [|done].
      apply elem_of_app. right. by apply list_elem_of_fmap_2. }
  f_equal. apply list_fmap_ext. intros _ w Hw%list_elem_of_lookup_2.
  unfold withOptionsAndItem. f_equal.
  apply merged_itemWithLayouts_P; [|done].
  apply elem_of_app. right. by apply list_elem_of_fmap_2.
Qed.

Lemma merged_getFullBoard (boardName layoutName : string) :
  findFirst (fun b => board_name b = boardName) (boards D)
    = findFirst (fun b => board_name b = boardName) (boards P) →
  getFullBoardWithLayoutSectionsAsync D boardName layoutName
    = getFullBoardWithLayoutSectionsAsync P boardName layoutName.
Proof.
  intros Hboard.
  destruct Hmerged as (Husers & Hlayouts & Hsections & _).
  destruct Hsep as (Hboards' & Hlayouts' & _).
  unfold getFullBoardWithLayoutSectionsAsync. rewrite Hboard, Husers.
  destruct (findFirst _ (boards P)) as [b|] eqn:Hb; simpl; [|done].
  apply findFirst_Some in Hb as [Hb _]. do 2 f_equal.
  rewrite (merged_filter _ _ _ _ Hlayouts).
  2:{ eapply Forall_impl; [exact Hboards' |]. intros l Hl [Heq _]. apply Hl.
      rewrite Heq. by apply list_elem_of_fmap_2. }
  apply list_fmap_ext. intros _ l Hl%list_elem_of_lookup_2.
  apply list_elem_of_filter in Hl as [_ Hl]. do 2 f_equal.
  apply (merged_filter _ _ _ _ Hsections).
  eapply Forall_impl; [exact Hlayouts' |]. intros s Hs Heq. apply Hs.
  rewrite Heq. by apply list_elem_of_fmap_2.
Qed.

(** When the lookup of the board does not see [Q], [byName] answers on [D]
    as it does on [P]. *)
Lemma byName_merged (input : ByNameInput) :
  findFirst (fun b => board_name b = bn_boardName input) (boards D)
    = findFirst (fun b => board_name b = bn_boardName input) (boards P) →
  byName localeCompare D input = byName localeCompare P input.
Proof.
  intros Hboard. unfold byName. rewrite (merged_getFullBoard _ _ Hboard).
  destruct (getFullBoardWithLayoutSectionsAsync P _ _) as [board|] eqn:Hfull; [|done].
  destruct (head (fb_layouts board)) as [layout|] eqn:Hlayout; [|done].
  assert (∀ s, s ∈ section_id <$> fl_sections layout → s ∈ section_id <$> sections P)
    as Hids.
  { apply getFullBoard_Some in Hfull as (_ & _ & Hlayouts).
    assert (layout ∈ fb_layouts board) as Hin.
    { destruct (fb_layouts board); [discriminate |]. injection Hlayout as ->. left. }
    rewrite Forall_forall in Hlayouts. destruct (Hlayouts layout Hin) as (l & _ & _ & _ & ->).
    intros s Hs. apply list_elem_of_fmap in Hs as (row & -> & Hrow).
    rewrite js_sort_Permutation in Hrow. apply list_elem_of_filter in Hrow as [_ Hrow].
    by apply list_elem_of_fmap_2. }
  cbv zeta. f_equal. apply mapR_ext. intros section Hsection.
  unfold getAppsForSectionsAsync, getWidgetsForSectionsAsync.
  destruct (section_id <$> fl_sections layout) as [|sid sids] eqn:Hsids.
  { apply fmap_nil_inv in Hsids. rewrite Hsids in Hsection. by apply elem_of_nil in Hsection. }
  by rewrite (merged_filter_apps _ _ Hids), (merged_filter_widgets _ _ Hids).
Qed.
End Merged.

(** ** [exampleBoard] and [byName] *)

Ltac stored_tac := unfold storedIds, itemRefs in *; rewrite ?elem_of_app in *; tauto.

Section ExampleBoardFacts.
Variable uuid : nat -> string.
Variable defaults : Customization.
Variables sessionUserId boardName : string.

Lemma exampleBoard_mergedDb (w : World) :
  mergedDb (db w) (exampleRows uuid defaults sessionUserId boardName (drawn w))
           (db (exampleBoard uuid defaults sessionUserId boardName w)) ∧
  mergedDb (withUsers (exampleRows uuid defaults sessionUserId boardName (drawn w))
                      (users (db w)))
           (db w)
           (db (exampleBoard uuid defaults sessionUserId boardName w)).
Proof.
  destruct w as [d n]. unfold mergedDb, merged, exampleRows. cbn.
  rewrite <- !app_assoc. cbn.
  split; repeat split; auto.
Qed.

Lemma exampleBoard_boards (w : World) :
  boards (db (exampleBoard uuid defaults sessionUserId boardName w))
  = boards (db w) ++ [ {| board_id := uuid (drawn w); board_name := boardName;
                          board_ownerId := sessionUserId;
                          board_customization := defaults |} ].
Proof. by destruct w. Qed.

Lemma fresh_stored (w : World) (k : nat) (id : string) :
  fresh uuid w → (drawn w ≤ k)%nat → id ∈ storedIds (db w) → id ≠ uuid k.
Proof. intros [_ Hfresh] Hk Hin ->. by apply (Hfresh k). Qed.

Lemma exampleBoard_separate_old (w : World) :
  fresh uuid w →
  separate (db w) (exampleRows uuid defaults sessionUserId boardName (drawn w)).
Proof.
  intros Hfresh. destruct w as [d n].
  assert (∀ k id, (n ≤ k)%nat → id ∈ storedIds d → id ≠ uuid k) as Hnew
    by (intros k id; apply (fresh_stored {| db := d; drawn := n |} k id Hfresh)).
  unfold separate, exampleRows. cbn.
  split; [|split; [|split; [|split; [|split; [|split]]]]].
  1-5: apply Forall_forall; intros row Hrow;
       repeat (apply elem_of_cons in Hrow as [->|Hrow]); [..|by apply elem_of_nil in Hrow];
       simpl; intros Hin;
       match type of Hin with
       | uuid ?k ∈ _ => apply (Hnew k (uuid k)); [lia | stored_tac | reflexivity]
       end.
  - apply Forall_forall. intros li Hli.
    pose proof (list_elem_of_fmap_2 layoutItem_itemId _ _ Hli) as Hin.
    repeat (apply not_elem_of_cons; split); [..|apply not_elem_of_nil].
    all: apply Hnew; [lia | stored_tac].
  - apply Forall_forall. intros ref Href.
    match goal with
    | |- ∃ i, i ∈ ?rows ∧ _ => assert (ref ∈ item_id <$> rows) as Hin by exact Href
    end.
    apply list_elem_of_fmap in Hin as (i & -> & Hi). eauto.
Qed.

Lemma exampleBoard_separate_new (w : World) :
  fresh uuid w →
  Forall (fun ref => ∃ i, i ∈ items (db w) ∧ item_id i = ref) (itemRefs (db w)) →
  separate (withUsers (exampleRows uuid defaults sessionUserId boardName (drawn w))
                      (users (db w)))
           (db w).
Proof.
  intros Hfresh Hintegrity. destruct w as [d n].
  assert (∀ k id, (n ≤ k)%nat → id ∈ storedIds d → id ≠ uuid k) as Hnew
    by (intros k id; apply (fresh_stored {| db := d; drawn := n |} k id Hfresh)).
  unfold separate, exampleRows. cbn.
  split; [|split; [|split; [|split; [|split; [|split]]]]].
  - apply Forall_forall. intros row Hrow.
    pose proof (list_elem_of_fmap_2 layout_boardId _ _ Hrow) as Hin.
    repeat (apply not_elem_of_cons; split); [..|apply not_elem_of_nil].
    all: apply Hnew; [lia | stored_tac].
  - apply Forall_forall. intros row Hrow.
    pose proof (list_elem_of_fmap_2 section_layoutId _ _ Hrow) as Hin.
    repeat (apply not_elem_of_cons; split); [..|apply not_elem_of_nil].
    all: apply Hnew; [lia | stored_tac].
  - apply Forall_forall. intros row Hrow.
    pose proof (list_elem_of_fmap_2 layoutItem_sectionId _ _ Hrow) as Hin.
    repeat (apply not_elem_of_cons; split); [..|apply not_elem_of_nil].
    all: apply Hnew; [lia | stored_tac].
  - apply Forall_forall. intros row Hrow.
    pose proof (list_elem_of_fmap_2 item_id _ _ Hrow) as Hin.
    repeat (apply not_elem_of_cons; split); [..|apply not_elem_of_nil].
    all: apply Hnew; [lia | stored_tac].
  - apply Forall_forall. intros row Hrow.
    pose proof (list_elem_of_fmap_2 app_id _ _ Hrow) as Hin.
    repeat (apply not_elem_of_cons; split); [..|apply not_elem_of_nil].
    all: apply Hnew; [lia | stored_tac].
  - apply Forall_forall. intros row Hrow.
    repeat (apply elem_of_cons in Hrow as [->|Hrow]); [..|by apply elem_of_nil in Hrow].
    all: simpl; intros Hin.
    all: match type of Hin with
         | uuid ?k ∈ _ => apply (Hnew k (uuid k)); [lia | stored_tac | reflexivity]
         end.
  - exact Hintegrity.
Qed.
End ExampleBoardFacts.

Lemma findFirst_app_found {A} (Pr : A -> Prop) `{forall a, Decision (Pr a)}
    (l1 l2 : list A) (a : A) :
  findFirst Pr l1 = Some a → findFirst Pr (l1 ++ l2) = Some a.
Proof.
  unfold findFirst. rewrite filter_app. by destruct (filter Pr l1).
Qed.

(** X13.  [exampleBoard] leaves the answers of [byName] for the boards that
    exist as they are: when the ids it draws are fresh, [byName] returns on
    the new database what it returned before, for every board name other
    than the new one and for every name that a stored board already has. *)
Theorem exampleBoard_byName_frame (localeCompare : string -> string -> Z)
    (uuid : nat -> string) (defaults : Customization) (sessionUserId boardName : string)
    (w : World) (input : ByNameInput) :
  fresh uuid w →
  bn_boardName input ≠ boardName ∨
    (∃ b, b ∈ boards (db w) ∧ board_name b = bn_boardName input) →
  byName localeCompare (db (exampleBoard uuid defaults sessionUserId boardName w)) input
  = byName localeCompare (db w) input.
Proof.
  intros Hfresh Hname.
  apply (byName_merged localeCompare (db w)
           (exampleRows uuid defaults sessionUserId boardName (drawn w))).
  - apply exampleBoard_mergedDb.
  - by apply exampleBoard_separate_old.
  - rewrite exampleBoard_boards. destruct Hname as [Hname|(b & Hb & Hname)].
    + unfold findFirst. rewrite filter_app, filter_cons, decide_False by (simpl; congruence).
      by rewrite filter_nil, app_nil_r.
    + destruct (findFirst_is_Some (fun b => board_name b = bn_boardName input) _ b Hb Hname)
        as [b' Hb'].
      rewrite Hb'. by apply findFirst_app_found.
Qed.

Lemma findFirst_cons_True {A} (Pr : A -> Prop) `{forall a, Decision (Pr a)}
    (a : A) (l : list A) :
  Pr a → findFirst Pr (a :: l) = Some a.
Proof. intros Ha. unfold findFirst. by rewrite filter_cons_True. Qed.

Lemma findFirst_cons_False {A} (Pr : A -> Prop) `{forall a, Decision (Pr a)}
    (a : A) (l : list A) :
  ¬ Pr a → findFirst Pr (a :: l) = findFirst Pr l.
Proof. intros Ha. unfold findFirst. by rewrite filter_cons_False. Qed.

(** What [byName] returns on the rows of an example board alone. *)
Lemma exampleRows_byName (localeCompare : string -> string -> Z) (uuid : nat -> string)
    (defaults : Customization) (sessionUserId boardName : string)
    (rows : list UserRow) (n : nat) :
  (∀ i j, (n ≤ i)%nat → (n ≤ j)%nat → uuid i = uuid j → i = j) →
  byName localeCompare
    (withUsers (exampleRows uuid defaults sessionUserId boardName n) rows)
    {| bn_boardName := boardName; bn_layout := None |}
  = Ok (exampleResponse uuid defaults
          (findFirst (fun u => user_id u = sessionUserId) rows) boardName n).
Proof.
  intros Hinj.
  assert (∀ i j, (n ≤ i)%nat → (n ≤ j)%nat → i ≠ j → uuid i ≠ uuid j) as Hne
    by (intros i j Hi Hj Hij Heq; by apply Hij, Hinj).
  unfold byName, getFullBoardWithLayoutSectionsAsync, exampleRows, withUsers.
  cbn [db exampleBoard addApp addWidget randomUUID onDb insertBoard insertLayout
       insertSection insertItem insertApp insertAppItem insertWidget insertLayoutItem
       boards users layouts sections items apps appItems widgets layoutItems drawn
       emptyDb app aa_boardId aa_sectionId aa_name aa_internalUrl aa_iconUrl aa_position
       aw_boardId aw_sectionId aw_type aw_position width height x y
       bn_boardName bn_layout default].
  (* the board, its layout and the section *)
  rewrite findFirst_cons_True by done.
  cbn [mbind option_bind board_id board_ownerId].
  rewrite filter_cons_True by done. rewrite filter_nil.
  cbn [fmap list_fmap head fb_layouts fl_sections layout_id].
  rewrite filter_cons_True by done. rewrite filter_nil.
  cbn [js_sort foldr sort_insert fmap list_fmap section_id].
  (* the rows loaded for the section *)
  unfold getAppsForSectionsAsync, getWidgetsForSectionsAsync.
  cbn [mapR section_id appItems widgets fmap list_fmap filterR].
  unfold withAppAndItem, withOptionsAndItem, itemWithLayouts.
  cbn [ma_item mw_item items layoutItems apps appItem_itemId appItem_appId widget_itemId].
  repeat first
    [ rewrite findFirst_cons_True by reflexivity
    | rewrite findFirst_cons_False by (simpl; apply Hne; lia) ].
  cbn [mbind option_bind item_id].
  repeat first
    [ rewrite filter_nil
    | rewrite filter_cons_True by (split; [reflexivity | apply list_elem_of_here])
    | rewrite filter_cons_False by (simpl; intros [Heq _]; revert Heq; apply Hne; lia) ].
  (* every row is placed in the section and is mapped *)
  unfold inSection.
  cbn [deref mbind result_bind iwl_layouts].
  rewrite !bool_decide_eq_true_2 by (constructor; reflexivity).
  cbn [mbind result_bind mapR].
  unfold mapApp, mapWidget.
  cbn [deref mbind result_bind iwl_layouts ma_item mw_item ma_app head mw_options mw_type].
  reflexivity.
Qed.

(** X14.  A board made by [exampleBoard] is served by [byName]: when the
    ids drawn are fresh, no stored board has the new name and every stored
    [appItems] row and widget refers to a stored item, [byName] returns for
    the new name the board of the session user with one section of type
    ['empty'] at position 0 that holds the four apps and then the four
    widgets, each with the geometry [exampleBoard] gave it, and with empty
    options for the widgets. *)
Theorem exampleBoard_byName (localeCompare : string -> string -> Z)
    (uuid : nat -> string) (defaults : Customization) (sessionUserId boardName : string)
    (w : World) :
  fresh uuid w →
  Forall (fun b => board_name b ≠ boardName) (boards (db w)) →
  Forall (fun ref => ∃ i, i ∈ items (db w) ∧ item_id i = ref) (itemRefs (db w)) →
  byName localeCompare (db (exampleBoard uuid defaults sessionUserId boardName w))
    {| bn_boardName := boardName; bn_layout := None |}
  = Ok (exampleResponse uuid defaults
          (findFirst (fun u => user_id u = sessionUserId) (users (db w)))
          boardName (drawn w)).
Proof.
  intros Hfresh Hname Hintegrity.
  rewrite <- (exampleRows_byName localeCompare uuid defaults sessionUserId boardName
                (users (db w)) (drawn w)) by apply Hfresh.
  apply (byName_merged localeCompare _ (db w)).
  - apply exampleBoard_mergedDb.
  - by apply exampleBoard_separate_new.
  - rewrite exampleBoard_boards.
    apply merged_findFirst with (lQ := boards (db w)); [by right | done].
Qed.

Lemma fresh_homeWorld : fresh exampleUuid homeWorld.
Proof.
  split.
  - intros i j _ _ H. unfold exampleUuid in H.
    by apply (inj (String.app "id")), (inj pretty) in H.
  - intros k Hk Hin.
    assert (Forall (fun id => id ∈ exampleUuid <$> seq 0 27) (storedIds (db homeWorld)))
      as Hstored by compute_done.
    rewrite Forall_forall in Hstored. apply Hstored in Hin.
    apply list_elem_of_fmap in Hin as (j & Heq & Hj).
    unfold exampleUuid in Heq. apply (inj (String.app "id")), (inj pretty) in Heq.
    apply elem_of_seq in Hj. simpl in Hk. lia.
Qed.

Lemma exampleBoard_byName_frame_witness :
  byName codeUnitCompare
    (db (exampleBoard exampleUuid noCustomization "u2" "work" homeWorld)) homeInput
  = byName codeUnitCompare (db homeWorld) homeInput.
Proof.
  apply (exampleBoard_byName_frame codeUnitCompare exampleUuid noCustomization
           "u2" "work" homeWorld homeInput).
  - exact fresh_homeWorld.
  - left. discriminate.
Defined.

Lemma exampleBoard_byName_witness :
  byName codeUnitCompare
    (db (exampleBoard exampleUuid noCustomization "u2" "work" homeWorld))
    {| bn_boardName := "work"; bn_layout := None |}
  = Ok (exampleResponse exampleUuid noCustomization
          (findFirst (fun u => user_id u = "u2") (users (db homeWorld)))
          "work" (drawn homeWorld)).
Proof.
  apply (exampleBoard_byName codeUnitCompare exampleUuid noCustomization
           "u2" "work" homeWorld).
  - exact fresh_homeWorld.
  - repeat constructor. discriminate.
  - apply Forall_forall. intros ref Href.
    assert (Forall (fun ref => ref ∈ item_id <$> items (db homeWorld))
                   (itemRefs (db homeWorld))) as Hrefs by compute_done.
    rewrite Forall_forall in Hrefs. apply Hrefs in Href.
    apply list_elem_of_fmap in Href as (i & -> & Hi). eauto.
Defined.

(** ** What [exampleBoard] keeps *)

(** X15.  [exampleBoard] draws 27 ids and keeps what the two properties
    above rely on: if the supply was fresh it is fresh for the new state, and
    if every [appItems] row and widget referred to a stored item this still
    holds.  So boards can be added one after the other. *)
Theorem exampleBoard_keeps_fresh (uuid : nat -> string) (defaults : Customization)
    (sessionUserId boardName : string) (w : World) :
  fresh uuid w →
  Forall (fun ref => ∃ i, i ∈ items (db w) ∧ item_id i = ref) (itemRefs (db w)) →
  drawn (exampleBoard uuid defaults sessionUserId boardName w) = (27 + drawn w)%nat ∧
  fresh uuid (exampleBoard uuid defaults sessionUserId boardName w) ∧
  Forall (fun ref => ∃ i, i ∈ items (db (exampleBoard uuid defaults sessionUserId boardName w))
                          ∧ item_id i = ref)
         (itemRefs (db (exampleBoard uuid defaults sessionUserId boardName w))).
Proof.
  intros [Hinj Hfresh] Hintegrity. destruct w as [d n]. simpl in Hinj, Hfresh, Hintegrity.
  split; [reflexivity |]. split; [split |].
  - cbn. intros i j Hi Hj. apply Hinj; lia.
  - cbn [drawn]. intros k Hk Hin.
    assert (drawn (exampleBoard uuid defaults sessionUserId boardName {| db := d; drawn := n |})
            = (27 + n)%nat) as Hdrawn by reflexivity.
    rewrite Hdrawn in Hk. clear Hdrawn.
    assert (n ≤ k)%nat as Hk' by lia. specialize (Hfresh k Hk').
    unfold storedIds in Hin. cbn in Hin. rewrite <- !app_assoc in Hin. cbn in Hin.
    rewrite !fmap_app, !elem_of_app in Hin. cbn in Hin.
    repeat match type of Hin with
           | _ ∨ _ => destruct Hin as [Hin|Hin]
           end.
    all: try (apply Hfresh; stored_tac).
    all: repeat (apply elem_of_cons in Hin as [Hin|Hin]); try (by apply elem_of_nil in Hin).
    all: apply Hinj in Hin; lia.
  - unfold itemRefs in *. cbn. rewrite <- !app_assoc. cbn.
    rewrite !fmap_app. cbn.
    rewrite Forall_app in Hintegrity. destruct Hintegrity as [Happs Hwidgets].
    assert (∀ rows ref, (∃ i, i ∈ items d ∧ item_id i = ref) →
              ∃ i, i ∈ items d ++ rows ∧ item_id i = ref) as Hold.
    { intros rows ref (i & Hi & Hid). exists i. split; [|done]. apply elem_of_app. by left. }
    assert (∀ ref rows, ref ∈ item_id <$> rows →
              ∃ i, i ∈ items d ++ rows ∧ item_id i = ref) as Hnew.
    { intros ref rows Href. apply list_elem_of_fmap in Href as (i & -> & Hi).
      exists i. split; [|done]. apply elem_of_app. by right. }
    repeat (apply Forall_app; split).
    + eapply Forall_impl; [exact Happs | apply Hold].
    + apply Forall_forall. intros ref Href. apply Hnew.
      cbn. repeat (apply elem_of_cons in Href as [->|Href]);
        [..|by apply elem_of_nil in Href].
      all: repeat first [apply list_elem_of_here | apply list_elem_of_further].
    + eapply Forall_impl; [exact Hwidgets | apply Hold].
    + apply Forall_forall. intros ref Href. apply Hnew.
      cbn. repeat (apply elem_of_cons in Href as [->|Href]);
        [..|by apply elem_of_nil in Href].
      all: repeat first [apply list_elem_of_here | apply list_elem_of_further].
Qed.

Lemma exampleBoard_keeps_fresh_witness :
  drawn (exampleBoard exampleUuid noCustomization "u2" "work" homeWorld)
    = (27 + drawn homeWorld)%nat ∧
  fresh exampleUuid (exampleBoard exampleUuid noCustomization "u2" "work" homeWorld) ∧
  Forall (fun ref =>
            ∃ i, i ∈ items (db (exampleBoard exampleUuid noCustomization "u2" "work" homeWorld))
                 ∧ item_id i = ref)
         (itemRefs (db (exampleBoard exampleUuid noCustomization "u2" "work" homeWorld))).
Proof.
  apply (exampleBoard_keeps_fresh exampleUuid noCustomization "u2" "work" homeWorld).
  - exact fresh_homeWorld.
  - apply Forall_forall. intros ref Href.
    assert (Forall (fun ref => ref ∈ item_id <$> items (db homeWorld))
                   (itemRefs (db homeWorld))) as Hrefs by compute_done.
    rewrite Forall_forall in Hrefs. apply Hrefs in Href.
    apply list_elem_of_fmap in Href as (i & -> & Hi). eauto.
Defined.

(** ** What [byName] reads of an item *)

Lemma filterR_ext {A} (p q : A -> result bool) (l : list A) :
  (∀ a, a ∈ l → p a = q a) → filterR p l = filterR q l.
Proof.
  induction l as [|a l IH]; intros Hpq; simpl; [done |].
  rewrite (Hpq a) by left. rewrite IH; [done |]. intros b Hb. apply Hpq. by right.
Qed.

Lemma findFirst_item_ids (itemId : string) (rows rows' : list ItemRow) :
  item_id <$> rows = item_id <$> rows' →
  item_id <$> findFirst (fun i => item_id i = itemId) rows
  = item_id <$> findFirst (fun i => item_id i = itemId) rows'.
Proof.
  revert rows'. induction rows as [|i rows IH]; intros [|i' rows'] Hids; try done.
  rewrite !fmap_cons in Hids. injection Hids as Hid Hids.
  unfold findFirst in *. rewrite !filter_cons, <- Hid.
  destruct (decide (item_id i = itemId)); simpl; [congruence | by apply IH].
Qed.

Lemma itemWithLayouts_item_ids (d : DB) (rows : list ItemRow) (ids : list string)
    (itemId : string) :
  item_id <$> items d = item_id <$> rows →
  iwl_layouts <$> itemWithLayouts (withItems d rows) ids itemId
  = iwl_layouts <$> itemWithLayouts d ids itemId.
Proof.
  intros Hids. unfold itemWithLayouts. simpl.
  pose proof (findFirst_item_ids itemId _ _ Hids) as Hfirst.
  destruct (findFirst _ (items d)) as [i|], (findFirst _ rows) as [i'|]; try done.
  simpl in *. injection Hfirst as ->. done.
Qed.

Lemma inSection_layouts (sectionId : string) (o1 o2 : option ItemWithLayouts) :
  iwl_layouts <$> o1 = iwl_layouts <$> o2 → inSection sectionId o1 = inSection sectionId o2.
Proof.
  destruct o1, o2; try done. simpl. intros [= Heq]. unfold inSection. simpl. by rewrite Heq.
Qed.

Lemma mapApp_layouts (x1 x2 : MapApp) :
  iwl_layouts <$> ma_item x1 = iwl_layouts <$> ma_item x2 →
  ma_app x1 = ma_app x2 →
  mapApp x1 = mapApp x2.
Proof.
  intros Hitem Happ. unfold mapApp. rewrite Happ.
  destruct (ma_item x1), (ma_item x2); try done.
  simpl in *. injection Hitem as ->. done.
Qed.

Lemma mapWidget_layouts (localeCompare : string -> string -> Z) (x1 x2 : MapWidget) :
  iwl_layouts <$> mw_item x1 = iwl_layouts <$> mw_item x2 →
  mw_options x1 = mw_options x2 → mw_type x1 = mw_type x2 →
  mapWidget localeCompare x1 = mapWidget localeCompare x2.
Proof.
  intros Hitem Hoptions Htype. unfold mapWidget. rewrite Hoptions, Htype.
  destruct (mw_item x1), (mw_item x2); try done.
  simpl in *. injection Hitem as ->. done.
Qed.

(** X16.  Of the [items] table [byName] reads the ids only: the outcome of
    every query stays the same when the type and the board of the items are
    changed.  In particular [byName] does not check that an item shown in a
    section of a board belongs to that board. *)
Theorem byName_reads_item_ids (localeCompare : string -> string -> Z)
    (d : DB) (rows : list ItemRow) (input : ByNameInput) :
  item_id <$> items d = item_id <$> rows →
  byName localeCompare (withItems d rows) input = byName localeCompare d input.
Proof.
  intros Hids. unfold byName, getFullBoardWithLayoutSectionsAsync. simpl.
  destruct (findFirst _ (boards d)) as [board|]; simpl; [|done].
  destruct (head _) as [layout|]; [|done].
  set (sectionIds := section_id <$> fl_sections layout).
  f_equal. apply mapR_ext. intros section _.
  unfold getAppsForSectionsAsync, getWidgetsForSectionsAsync.
  destruct sectionIds as [|sid sids]; [done |].
  rewrite !filterR_fmap. simpl.
  rewrite (filterR_ext _
    (fun ai => inSection (section_id section)
                 (itemWithLayouts d (sid :: sids) (appItem_itemId ai))) (appItems d))
    by (intros ai _; by apply inSection_layouts, itemWithLayouts_item_ids).
  destruct (filterR _ (appItems d)) as [keptApps|]; simpl; [|done].
  rewrite (filterR_ext _
    (fun w => inSection (section_id section)
                (itemWithLayouts d (sid :: sids) (widget_itemId w))) (widgets d))
    by (intros w _; by apply inSection_layouts, itemWithLayouts_item_ids).
  destruct (filterR _ (widgets d)) as [keptWidgets|]; simpl; [|done].
  rewrite !mapR_fmap.
  rewrite (mapR_ext _ (fun ai => mapApp (withAppAndItem d (sid :: sids) ai)) keptApps)
    by (intros ai _; apply mapApp_layouts; [by apply itemWithLayouts_item_ids | done]).
  destruct (mapR _ keptApps) as [mappedApps|]; simpl; [|done].
  rewrite (mapR_ext _ (fun w => mapWidget localeCompare
                                  (withOptionsAndItem d (sid :: sids) w)) keptWidgets)
    by (intros w _; apply mapWidget_layouts; [by apply itemWithLayouts_item_ids | done..]).
  done.
Qed.

Lemma byName_reads_item_ids_witness :
  byName codeUnitCompare (withItems homeDb movedItems) homeInput
  = byName codeUnitCompare homeDb homeInput.
Proof.
  apply (byName_reads_item_ids codeUnitCompare homeDb movedItems homeInput).
  vm_compute. reflexivity.
Defined.
